(** * CompressPro: the transcoding pipeline of [main.py], embedded in Rocq

    The development follows the layout of the source file:

    - [CompressionSettings]                       (dataclass, lines 30-45)
    - [SystemDetector.get_optimal_encoder] and
      [SystemDetector.get_fallback_encoders]      (lines 114-146)
    - [VideoCompressionWorker.get_resolution_dimensions] (lines 377-384)

    Python dictionaries are stdpp [gmap]s keyed by strings, the set
    [av.codec.codecs_available] is a [gset string]. *)

From Stdlib Require Import ZArith Lia Ascii String DecimalString.
From stdpp Require Import gmap strings list fin_maps.

Local Open Scope Z_scope.

(** ** Settings record *)

Record CompressionSettings := {
  input_file : string;
  output_file : string;
  codec : string;
  quality_mode : string;
  crf_value : Z;
  bitrate : string;
  resolution : string;
  fps : string;
  gpu_acceleration : string;
  preset : string;
  audio_codec : string;
  audio_bitrate : string;
  threads : Z
}.

(** The defaults of the dataclass. *)
Definition default_settings : CompressionSettings := {|
  input_file := ""; output_file := "";
  codec := "h264"; quality_mode := "crf"; crf_value := 23;
  bitrate := "1M"; resolution := "original"; fps := "original";
  gpu_acceleration := "auto"; preset := "medium";
  audio_codec := "aac"; audio_bitrate := "128k"; threads := 0
|}.

(** Functional update of the one field the GUI calls the acceleration
    preference. *)
Definition set_gpu_acceleration (g : string) (s : CompressionSettings) :=
  {| input_file := input_file s; output_file := output_file s;
     codec := codec s; quality_mode := quality_mode s;
     crf_value := crf_value s; bitrate := bitrate s;
     resolution := resolution s; fps := fps s;
     gpu_acceleration := g; preset := preset s;
     audio_codec := audio_codec s; audio_bitrate := audio_bitrate s;
     threads := threads s |}.

Definition set_bitrate (b : string) (s : CompressionSettings) :=
  {| input_file := input_file s; output_file := output_file s;
     codec := codec s; quality_mode := quality_mode s;
     crf_value := crf_value s; bitrate := b;
     resolution := resolution s; fps := fps s;
     gpu_acceleration := gpu_acceleration s; preset := preset s;
     audio_codec := audio_codec s; audio_bitrate := audio_bitrate s;
     threads := threads s |}.

(** The settings with another resolution. *)
Definition set_resolution (r : string) (s : CompressionSettings) :=
  {| input_file := input_file s; output_file := output_file s;
     codec := codec s; quality_mode := quality_mode s;
     crf_value := crf_value s; bitrate := bitrate s;
     resolution := r; fps := fps s;
     gpu_acceleration := gpu_acceleration s; preset := preset s;
     audio_codec := audio_codec s; audio_bitrate := audio_bitrate s;
     threads := threads s |}.

Definition set_fps (f : string) (s : CompressionSettings) :=
  {| input_file := input_file s; output_file := output_file s;
     codec := codec s; quality_mode := quality_mode s;
     crf_value := crf_value s; bitrate := bitrate s;
     resolution := resolution s; fps := f;
     gpu_acceleration := gpu_acceleration s; preset := preset s;
     audio_codec := audio_codec s; audio_bitrate := audio_bitrate s;
     threads := threads s |}.

Definition set_audio_bitrate (b : string) (s : CompressionSettings) :=
  {| input_file := input_file s; output_file := output_file s;
     codec := codec s; quality_mode := quality_mode s;
     crf_value := crf_value s; bitrate := bitrate s;
     resolution := resolution s; fps := fps s;
     gpu_acceleration := gpu_acceleration s; preset := preset s;
     audio_codec := audio_codec s; audio_bitrate := b;
     threads := threads s |}.

(** The two fields of the constant-quality mode. *)
Definition set_quality (crf : Z) (p : string) (s : CompressionSettings) :=
  {| input_file := input_file s; output_file := output_file s;
     codec := codec s; quality_mode := quality_mode s;
     crf_value := crf; bitrate := bitrate s;
     resolution := resolution s; fps := fps s;
     gpu_acceleration := gpu_acceleration s; preset := p;
     audio_codec := audio_codec s; audio_bitrate := audio_bitrate s;
     threads := threads s |}.

(** ** SystemDetector *)

Module SystemDetector.

(** [encoder_priority] of [get_optimal_encoder]. *)
Definition encoder_priority : gmap string (list string) :=
  <["h264" := ["libx264"; "h264_nvenc"; "h264_qsv"; "h264_vaapi"; "h264_videotoolbox"]]>
  (<["h265" := ["libx265"; "hevc_nvenc"; "hevc_qsv"; "hevc_vaapi"; "hevc_videotoolbox"]]>
  (<["vp9" := ["libvpx-vp9"; "vp9_vaapi"]]>
  (<["av1" := ["libsvtav1"; "av1_qsv"; "av1_vaapi"; "av1_nvenc"]]> ∅))).

(** [fallback] of [get_optimal_encoder]. *)
Definition fallback : gmap string string :=
  <["h264" := "libx264"]>
  (<["h265" := "libx265"]>
  (<["vp9" := "libvpx-vp9"]>
  (<["av1" := "libsvtav1"]> ∅))).

(** [fallback_lists] of [get_fallback_encoders]. *)
Definition fallback_lists : gmap string (list string) :=
  <["h264" := ["libx264"; "h264_nvenc"]]>
  (<["h265" := ["libx265"; "hevc_nvenc"]]>
  (<["vp9" := ["libvpx-vp9"]]>
  (<["av1" := ["libsvtav1"; "libaom-av1"]]> ∅))).

(** The [for encoder in ...: if encoder in available_encoders: return
    encoder] loop: the first listed encoder that is available. *)
Fixpoint first_available (available : gset string) (l : list string)
  : option string :=
  match l with
  | [] => None
  | e :: l' => if decide (e ∈ available) then Some e
               else first_available available l'
  end.

Definition get_optimal_encoder (available : gset string) (c : string)
  : string :=
  match first_available available (default [] (encoder_priority !! c)) with
  | Some e => e
  | None => default "libx264" (fallback !! c)
  end.

Definition get_fallback_encoders (c : string) : list string :=
  default ["libx264"] (fallback_lists !! c).

(** The dictionary of [detect_gpu_capabilities]. *)
Record Capabilities := {
  nvenc : bool;
  qsv : bool;
  vaapi : bool;
  videotoolbox : bool;
  supported_codecs : list string
}.

(** [any(codec in encoders for codec in codecs)] *)
Definition any_available (encoders : gset string) (codecs : list string)
  : bool :=
  existsb (fun codec => bool_decide (codec ∈ encoders)) codecs.

(** [detect_gpu_capabilities] (lines 55-95), as a function of
    [av.codec.codecs_available]; reading that set does not raise. *)
Definition detect_gpu_capabilities (encoders : gset string) : Capabilities := {|
  nvenc := any_available encoders ["h264_nvenc"; "hevc_nvenc"; "av1_nvenc"];
  qsv := any_available encoders ["h264_qsv"; "hevc_qsv"; "av1_qsv"];
  vaapi := any_available encoders ["h264_vaapi"; "hevc_vaapi"];
  videotoolbox :=
    any_available encoders ["h264_videotoolbox"; "hevc_videotoolbox"];
  supported_codecs :=
    filter (fun codec => codec ∈ encoders \/ ("lib" +:+ codec) ∈ encoders)
           ["h264"; "h265"; "vp9"; "av1"]
|}.

End SystemDetector.

(** The list the negotiation loop of [run] iterates over:
    [[encoder_name] + fallback_encoders]. *)
Definition attempt_plan (available : gset string) (s : CompressionSettings)
  : list string :=
  SystemDetector.get_optimal_encoder available (codec s)
    :: SystemDetector.get_fallback_encoders (codec s).

(** ** Resolution presets *)

Definition resolutions : gmap string (Z * Z) :=
  <["1080p" := (1920, 1080)]>
  (<["720p" := (1280, 720)]>
  (<["480p" := (854, 480)]> ∅)).

Definition get_resolution_dimensions (r : string) : Z * Z :=
  default (1920, 1080) (resolutions !! r).


(** * Python numbers

    Python's [float] is an IEEE-754 binary64 number.  A finite double is
    kept as a signed mantissa and a binary exponent, [Finite m e] standing
    for [m * 2^e]; every operation returns the exact result rounded to the
    nearest double, ties to even, as IEEE-754 prescribes. *)

Module PyFloat.

Inductive pyfloat :=
| Finite (m e : Z)
| Infinity (negative : bool)
| NaN.

(** Exponent of the least subnormal double, [2^-1074]. *)
Definition emin : Z := -1074.

(** [n/d >= 2^e], for [n >= 0] and [d > 0]. *)
Definition ge_pow2 (n d e : Z) : bool :=
  if 0 <=? e then d * 2 ^ e <=? n else d <=? n * 2 ^ (- e).

(** [floor (log2 (n/d))] for [n, d > 0]. *)
Definition ilog2_ratio (n d : Z) : Z :=
  let e := Z.log2 n - Z.log2 d in
  if ge_pow2 n d e then e else e - 1.

(** The integer nearest to [n/d], ties to even ([n >= 0], [d > 0]). *)
Definition rne (n d : Z) : Z :=
  let q := n / d in
  match 2 * (n mod d) ?= d with
  | Lt => q
  | Gt => q + 1
  | Eq => if Z.even q then q else q + 1
  end.

(** The quantum of the binade of [n/d]: 53 significant bits, and no
    finer than the subnormal spacing. *)
Definition quantum (n d : Z) : Z := Z.max (ilog2_ratio n d - 52) emin.

(** [n / (d * 2^e)] rounded to an integer. *)
Definition scaled_rne (n d e : Z) : Z :=
  if 0 <=? e then rne n (d * 2 ^ e) else rne (n * 2 ^ (- e)) d.

(** Rounding of a positive rational [n/d]; a result of at least [2^1024]
    overflows. *)
Definition round_pos (negative : bool) (n d : Z) : pyfloat :=
  let e := quantum n d in
  let m := scaled_rne n d e in
  if 2 ^ 2098 <=? m * 2 ^ (e - emin) then Infinity negative
  else Finite (if negative then - m else m) e.

(** Rounding of the rational [n/d], [d > 0]. *)
Definition round_ratio (n d : Z) : pyfloat :=
  match n with
  | 0 => Finite 0 0
  | Zpos _ => round_pos false n d
  | Zneg _ => round_pos true (- n) d
  end.

(** Rounding of the dyadic number [m * 2^e]. *)
Definition round_dyadic (m e : Z) : pyfloat :=
  if 0 <=? e then round_ratio (m * 2 ^ e) 1 else round_ratio m (2 ^ (- e)).

Definition is_negative (x : pyfloat) : bool :=
  match x with
  | Finite m _ => m <? 0
  | Infinity s => s
  | NaN => false
  end.

Definition is_zero (x : pyfloat) : bool :=
  match x with Finite 0 _ => true | _ => false end.

(** [x * y] on doubles. *)
Definition mul (x y : pyfloat) : pyfloat :=
  match x, y with
  | NaN, _ | _, NaN => NaN
  | Finite m1 e1, Finite m2 e2 => round_dyadic (m1 * m2) (e1 + e2)
  | _, _ =>
      if is_zero x || is_zero y then NaN
      else Infinity (xorb (is_negative x) (is_negative y))
  end.

(** The integer part, towards zero, of a finite double. *)
Definition trunc (m e : Z) : Z :=
  if 0 <=? e then m * 2 ^ e else Z.quot m (2 ^ (- e)).

End PyFloat.

Import PyFloat.

(** ** Exceptions *)

Inductive exn :=
| FileNotFoundError (msg : string)
| IndexError (msg : string)
| ValueError (msg : string)
| RuntimeError (msg : string)
| ZeroDivisionError (msg : string)
| OverflowError (msg : string)
| AVError (msg : string).

(** [str(e)] *)
Definition exn_str (e : exn) : string :=
  match e with
  | FileNotFoundError m | IndexError m | ValueError m | RuntimeError m
  | ZeroDivisionError m | OverflowError m | AVError m => m
  end.

Inductive result (A : Type) :=
| Ok (a : A)
| Raise (e : exn).
Arguments Ok {A} a.
Arguments Raise {A} e.

(** [a / b] on Python integers: the correctly rounded quotient. *)
Definition int_truediv (a b : Z) : result pyfloat :=
  if b =? 0 then Raise (ZeroDivisionError "division by zero")
  else
    match (if 0 <? b then round_ratio a b else round_ratio (- a) (- b)) with
    | Finite m e => Ok (Finite m e)
    | _ => Raise (OverflowError "integer division result too large for a float")
    end.

(** [float(a)] for a Python integer, as done implicitly by [int * float]. *)
Definition float_of_int (a : Z) : result pyfloat :=
  match round_ratio a 1 with
  | Finite m e => Ok (Finite m e)
  | _ => Raise (OverflowError "int too large to convert to float")
  end.

(** [int(x)] for a double. *)
Definition int_of_float (x : pyfloat) : result Z :=
  match x with
  | Finite m e => Ok (trunc m e)
  | Infinity _ => Raise (OverflowError "cannot convert float infinity to integer")
  | NaN => Raise (ValueError "cannot convert float NaN to integer")
  end.

(** [x * k] for a double [x] and an integer [k]. *)
Definition float_mul_int (x : pyfloat) (k : Z) : result pyfloat :=
  match float_of_int k with
  | Ok y => Ok (mul x y)
  | Raise e => Raise e
  end.

Definition bind {A B} (r : result A) (f : A -> result B) : result B :=
  match r with
  | Ok a => f a
  | Raise e => Raise e
  end.

(** [min(100, int((processed_frames / total_frames) * 100))], line 246. *)
Definition progress_value (processed_frames total_frames : Z) : result Z :=
  bind (int_truediv processed_frames total_frames) (fun q =>
  bind (float_mul_int q 100) (fun x =>
  bind (int_of_float x) (fun i =>
  Ok (Z.min 100 i)))).

(** * Python strings

    Strings are ASCII strings; [float()] and [int()] follow CPython's
    grammar on them: surrounding white space is skipped, an underscore may
    separate two digits, [float()] accepts a fraction, an exponent and the
    words inf, infinity and nan in any case. *)

Module PyStr.

Definition upper_char (c : ascii) : ascii :=
  let n := N_of_ascii c in
  if ((97 <=? n) && (n <=? 122))%N then ascii_of_N (n - 32) else c.

(** [s.upper()] *)
Fixpoint upper (s : string) : string :=
  match s with
  | EmptyString => EmptyString
  | String c s' => String (upper_char c) (upper s')
  end.

Definition lower_char (c : ascii) : ascii :=
  let n := N_of_ascii c in
  if ((65 <=? n) && (n <=? 90))%N then ascii_of_N (n + 32) else c.

(** [s.lower()] *)
Fixpoint lower (s : string) : string :=
  match s with
  | EmptyString => EmptyString
  | String c s' => String (lower_char c) (lower s')
  end.

(** [s.endswith(suffix)] *)
Definition endswith (s suffix : string) : bool :=
  String.prefix (String.rev suffix) (String.rev s).

(** [s[:-1]] *)
Definition but_last (s : string) : string :=
  match String.rev s with
  | EmptyString => EmptyString
  | String _ r => String.rev r
  end.

(** [sub in s] *)
Fixpoint contains (sub s : string) : bool :=
  String.prefix sub s ||
  match s with
  | EmptyString => false
  | String _ s' => contains sub s'
  end.

Definition is_digit (c : ascii) : bool :=
  match Ascii.is_nat c with Some _ => true | None => false end.

Definition digit_value (c : ascii) : Z :=
  match Ascii.is_nat c with Some d => Z.of_nat d | None => 0 end.

(** Every underscore stands between two digits; [prev] is the character
    before [l]. *)
Fixpoint underscores_ok (prev : option ascii) (l : list ascii) : bool :=
  match l with
  | [] => negb (bool_decide (prev = Some "_"%char))
  | c :: l' =>
      (if bool_decide (c = "_"%char)
       then from_option is_digit false prev
       else negb (bool_decide (prev = Some "_"%char)) || is_digit c)
      && underscores_ok (Some c) l'
  end.

Definition remove_underscores (l : list ascii) : list ascii :=
  filter (fun c => c ≠ "_"%char) l.

Fixpoint lstrip (l : list ascii) : list ascii :=
  match l with
  | c :: l' => if Ascii.is_space c then lstrip l' else l
  | [] => []
  end.

Definition strip (l : list ascii) : list ascii :=
  reverse (lstrip (reverse (lstrip l))).

(** An optional sign: whether it is a minus, and what follows. *)
Definition take_sign (l : list ascii) : bool * list ascii :=
  match l with
  | "-"%char :: l' => (true, l')
  | "+"%char :: l' => (false, l')
  | _ => (false, l)
  end.

(** The longest prefix of digits, and what follows. *)
Fixpoint span_digits (l : list ascii) : list ascii * list ascii :=
  match l with
  | c :: l' =>
      if is_digit c
      then let '(ds, r) := span_digits l' in (c :: ds, r)
      else ([], l)
  | [] => ([], [])
  end.

(** The number a list of decimal digits denotes. *)
Definition decimal (ds : list ascii) : Z :=
  fold_left (fun acc c => 10 * acc + digit_value c) ds 0.

(** The digits of a decimal number: mantissa digits and power of ten. *)
Inductive literal :=
| LitNumber (negative : bool) (digits : Z) (exp10 : Z)
| LitInf (negative : bool)
| LitNaN.

(** The exponent part: empty, or [E], an optional sign and digits. *)
Definition exponent_part (l : list ascii) : option Z :=
  match l with
  | [] => Some 0
  | c :: l' =>
      if bool_decide (upper_char c = "E"%char) then
        let '(neg, l'') := take_sign l' in
        match span_digits l'' with
        | ((_ :: _) as ds, []) => Some (if neg then - decimal ds else decimal ds)
        | _ => None
        end
      else None
  end.

Definition float_literal (s : string) : option literal :=
  let l := list_ascii_of_string s in
  if negb (underscores_ok None l) then None else
  let '(neg, l1) := take_sign (strip (remove_underscores l)) in
  let u := upper (string_of_list_ascii l1) in
  if bool_decide (u = "INF") || bool_decide (u = "INFINITY") then Some (LitInf neg)
  else if bool_decide (u = "NAN") then Some LitNaN
  else
    let '(ip, l2) := span_digits l1 in
    let '(fp, l3) :=
      match l2 with
      | "."%char :: l2' => span_digits l2'
      | _ => ([], l2)
      end in
    match ip ++ fp with
    | [] => None
    | ds =>
        match exponent_part l3 with
        | Some e => Some (LitNumber neg (decimal ds) (e - Z.of_nat (length fp)))
        | None => None
        end
    end.

(** What [int()] makes of a string: a value, a syntax error, or more
    digits than [sys.get_int_max_str_digits()] allows. *)
Inductive int_parse :=
| IntValue (z : Z)
| IntInvalid
| IntTooLong (digits : nat).

(** The run of digits and single underscores at the head of [l], as
    [int()] scans it: its digits and what follows; [None] when two
    underscores meet or the run ends in one.  [prev] is the character
    before [l]. *)
Fixpoint scan_digits (prev : ascii) (l : list ascii)
  : option (list ascii * list ascii) :=
  match l with
  | c :: l' =>
      if bool_decide (c = "_"%char) then
        if bool_decide (prev = "_"%char) then None else scan_digits c l'
      else if is_digit c then
        match scan_digits c l' with
        | Some (ds, r) => Some (c :: ds, r)
        | None => None
        end
      else if bool_decide (prev = "_"%char) then None else Some ([], l)
  | [] => if bool_decide (prev = "_"%char) then None else Some ([], [])
  end.

(** The default of [sys.get_int_max_str_digits()]. *)
Definition int_max_str_digits : Z := 4300.

(** [int(s)] reads white space, a sign, the run of digits, and white
    space up to the end; the number of digits is checked before what
    follows the run is. *)
Definition int_literal (s : string) : int_parse :=
  let '(neg, l) := take_sign (lstrip (list_ascii_of_string s)) in
  match l with
  | "_"%char :: _ => IntInvalid
  | _ =>
      match scan_digits zero l with
      | None | Some ([], _) => IntInvalid
      | Some (ds, rest) =>
          if int_max_str_digits <? Z.of_nat (length ds)
          then IntTooLong (length ds)
          else
            match lstrip rest with
            | [] => IntValue (if neg then - decimal ds else decimal ds)
            | _ => IntInvalid
            end
      end
  end.

(** ** [repr] of a string of ASCII characters *)

Definition hex_digit (n : N) : ascii :=
  if (n <? 10)%N then ascii_of_N (48 + n) else ascii_of_N (87 + n).

Definition single_quote : ascii := ascii_of_N 39.
Definition double_quote : ascii := ascii_of_N 34.
Definition backslash : ascii := ascii_of_N 92.

Definition repr_char (quote c : ascii) : list ascii :=
  let n := N_of_ascii c in
  if bool_decide (c = backslash) || bool_decide (c = quote)
  then [backslash; c]
  else if (n =? 9)%N then [backslash; "t"%char]
  else if (n =? 10)%N then [backslash; "n"%char]
  else if (n =? 13)%N then [backslash; "r"%char]
  else if (n <? 32)%N || (n =? 127)%N
  then [backslash; "x"%char; hex_digit (n / 16); hex_digit (n mod 16)]
  else [c].

(** [repr(s)]: in single quotes, unless [s] has a single and no double
    quote. *)
Definition repr (s : string) : string :=
  let l := list_ascii_of_string s in
  let quote :=
    if existsb (fun c => bool_decide (c = single_quote)) l
       && negb (existsb (fun c => bool_decide (c = double_quote)) l)
    then double_quote else single_quote in
  string_of_list_ascii (quote :: flat_map (repr_char quote) l ++ [quote]).

End PyStr.

(** [float(s)]: the double nearest to the decimal number written in [s]. *)
Definition float_of_str (s : string) : result pyfloat :=
  match PyStr.float_literal s with
  | Some (PyStr.LitNumber neg ds e10) =>
      let n := if neg then - ds else ds in
      Ok (if 0 <=? e10 then round_ratio (n * 10 ^ e10) 1
          else round_ratio n (10 ^ (- e10)))
  | Some (PyStr.LitInf neg) => Ok (Infinity neg)
  | Some PyStr.LitNaN => Ok NaN
  | None =>
      Raise (ValueError ("could not convert string to float: "
                         +:+ PyStr.repr s))
  end.

(** The decimal digits of an integer. *)
Definition decimal_string (n : Z) : string :=
  NilZero.string_of_int (Z.to_int n).

(** The error of [int()] on a string of more than 4300 digits. *)
Definition exceeds_int_limit (digits : nat) : exn :=
  ValueError
    ("Exceeds the limit (4300 digits) for integer string conversion: value has "
     +:+ decimal_string (Z.of_nat digits)
     +:+ " digits; use sys.set_int_max_str_digits() to increase the limit").

(** [int(s)]; the message of a syntax error shows at most 200 characters
    of [repr(s)]. *)
Definition int_of_str (s : string) : result Z :=
  match PyStr.int_literal s with
  | PyStr.IntValue z => Ok z
  | PyStr.IntInvalid =>
      Raise (ValueError ("invalid literal for int() with base 10: "
                         +:+ String.substring 0 200 (PyStr.repr s)))
  | PyStr.IntTooLong digits => Raise (exceeds_int_limit digits)
  end.

(** ** parse_bitrate (lines 386-394) *)

Definition parse_bitrate (bitrate_str : string) : result Z :=
  let bitrate_str := PyStr.upper bitrate_str in
  if PyStr.endswith bitrate_str "K" then
    bind (float_of_str (PyStr.but_last bitrate_str)) (fun f =>
    bind (float_mul_int f 1000) int_of_float)
  else if PyStr.endswith bitrate_str "M" then
    bind (float_of_str (PyStr.but_last bitrate_str)) (fun f =>
    bind (float_mul_int f 1000000) int_of_float)
  else int_of_str bitrate_str.

(** [str(n)], also as an f-string does it.  The integers a run prints
    are counts of frames, which PyAV keeps in 64 bits or [int()] takes
    from a double, and the CRF value; [str] raises only from 4300 digits
    on. *)
Definition str_of_int (n : Z) : string := decimal_string n.

(** * The multimedia framework, as the pipeline sees it

    The pipeline only sequences calls into PyAV.  A [World] fixes what each
    of these calls does during one run: which of them raise, which frames
    the input decodes to, which packets the encoders return.  Opening a
    container, adding a stream, decoding, reformatting, encoding, muxing
    and closing may raise; assigning the attributes of a stream that has
    been added is taken not to.  Strings are strings of ASCII
    characters. *)

(** [fractions.Fraction]: the denominator of a fraction is positive. *)
Record Fraction := { numerator : Z; denominator : positive }.

Record VideoStream := {
  vs_frames : Z;                        (* [frames], 0 when unknown *)
  vs_duration : option Z;               (* [duration], [None] when unknown *)
  vs_average_rate : option Fraction;
  vs_base_rate : option Fraction;
  vs_width : Z;
  vs_height : Z
}.

(** An input audio stream; an attribute that [hasattr] does not find is
    [None]. *)
Record AudioStream := {
  as_sample_rate : option Z;
  as_rate : option Z;
  as_layout : option string
}.

Record Frame := { fr_index : nat; fr_width : Z; fr_height : Z }.

Record AudioFrame := { af_index : nat }.

(** A packet returned by an encoder; [pkt_mux_error] is what
    [output_container.mux] raises for it, if anything. *)
Record Packet := { pkt_id : nat; pkt_mux_error : option string }.

(** What a call of [stream.encode] does. *)
Inductive encode_result :=
| Packets (l : list Packet)
| EncodeError (msg : string).

Record World := {
  w_input_exists : bool;                      (* [os.path.exists] *)
  w_open_input_error : option string;         (* [av.open(input_file)] *)
  w_video : option VideoStream;               (* [streams.video], first entry *)
  w_audio : option AudioStream;               (* [streams.audio], first entry *)
  w_open_output_error : option string;        (* [av.open(output_file, 'w')] *)
  w_codecs_available : gset string;           (* [av.codec.codecs_available] *)
  w_add_stream_error : string -> option string; (* [add_stream(name)] *)
  w_video_frames : list Frame;                (* [decode(video=0)] *)
  w_audio_frames : list AudioFrame;           (* [decode(audio=0)] *)
  w_encode_video : Frame -> encode_result;    (* [encode(frame)], video *)
  w_encode_audio : AudioFrame -> encode_result;
  w_flush_video : encode_result;              (* [encode()], video *)
  w_flush_audio : encode_result;
  (** The GUI thread calls [cancel()] once the worker has performed this
      many observable steps; [None] when it never does. *)
  w_cancel_after : option nat;
  (** What the generator of [decode] raises when it is asked for a frame
      after the listed ones; [None] when it is exhausted then. *)
  w_video_decode_error : option string;
  w_audio_decode_error : option string;
  w_reformat_error : Frame -> option string;  (* [frame.reformat] *)
  w_close_input_error : option string;        (* [input_container.close()] *)
  w_close_output_error : option string        (* [output_container.close()] *)
}.

(** ** Output streams *)

Record OutputStream := {
  os_encoder : string;
  os_width : Z;
  os_height : Z;
  os_rate : Fraction;
  os_pix_fmt : string;
  os_options : gmap string string;       (* [codec_context.options] *)
  os_bit_rate : option Z;                (* [codec_context.bit_rate] *)
  os_thread_count : option Z             (* [codec_context.thread_count] *)
}.

Record AudioOutputStream := {
  aos_codec : string;
  aos_sample_rate : Z;
  aos_layout : string;
  aos_bit_rate : Z
}.

(** ** Observable steps of a run *)

Inductive phase := MainVideo | MainAudio | FlushedVideo | FlushedAudio.

Inductive event :=
| Status (msg : string)                      (* [status_updated.emit] *)
| Progress (p : Z)                           (* [progress_updated.emit] *)
| Finished (success : bool) (msg : string)   (* [finished.emit] *)
| OpenInput
| OpenOutput
| CloseInput
| CloseOutput
| AddStream (name : string)
| ReadFlag (b : bool)                        (* a read of [is_cancelled] *)
| DecodeVideo (f : Frame)
| DecodeAudio (f : AudioFrame)
| Reformat (f : Frame) (width height : Z)
| EncodeVideo (f : Frame)
| EncodeAudio (f : AudioFrame)
| FlushVideo
| FlushAudio
| Mux (ph : phase) (p : Packet)
| GcCollect.

Inductive handle := Unopened | Opened | Closed.

(** The state of one run: what happened so far, the two containers, and
    the local variables of [run] that outlive a failure. *)
Record RunState := {
  trace : list event;
  input_container : handle;
  output_container : handle;
  video_output_stream : option OutputStream;
  audio_output_stream : option AudioOutputStream;
  processed_frames : Z
}.

Definition initial_state : RunState := {|
  trace := []; input_container := Unopened; output_container := Unopened;
  video_output_stream := None; audio_output_stream := None;
  processed_frames := 0
|}.

Definition with_trace (t : list event) (st : RunState) : RunState :=
  {| trace := t; input_container := input_container st;
     output_container := output_container st;
     video_output_stream := video_output_stream st;
     audio_output_stream := audio_output_stream st;
     processed_frames := processed_frames st |}.

Definition with_input (h : handle) (st : RunState) : RunState :=
  {| trace := trace st; input_container := h;
     output_container := output_container st;
     video_output_stream := video_output_stream st;
     audio_output_stream := audio_output_stream st;
     processed_frames := processed_frames st |}.

Definition with_output (h : handle) (st : RunState) : RunState :=
  {| trace := trace st; input_container := input_container st;
     output_container := h;
     video_output_stream := video_output_stream st;
     audio_output_stream := audio_output_stream st;
     processed_frames := processed_frames st |}.

Definition with_video_stream (o : option OutputStream) (st : RunState) :=
  {| trace := trace st; input_container := input_container st;
     output_container := output_container st;
     video_output_stream := o;
     audio_output_stream := audio_output_stream st;
     processed_frames := processed_frames st |}.

Definition with_audio_stream (o : option AudioOutputStream) (st : RunState) :=
  {| trace := trace st; input_container := input_container st;
     output_container := output_container st;
     video_output_stream := video_output_stream st;
     audio_output_stream := o;
     processed_frames := processed_frames st |}.

Definition with_processed (n : Z) (st : RunState) : RunState :=
  {| trace := trace st; input_container := input_container st;
     output_container := output_container st;
     video_output_stream := video_output_stream st;
     audio_output_stream := audio_output_stream st;
     processed_frames := n |}.

(** ** The monad of the worker: state, and exceptions that keep the state *)

Definition Run (A : Type) : Type := RunState -> result A * RunState.

Definition ret {A} (a : A) : Run A := fun st => (Ok a, st).

Definition raise {A} (e : exn) : Run A := fun st => (Raise e, st).

Definition bindR {A B} (c : Run A) (k : A -> Run B) : Run B :=
  fun st =>
    match c st with
    | (Ok a, st') => k a st'
    | (Raise e, st') => (Raise e, st')
    end.

Declare Scope run_scope.
Delimit Scope run_scope with run.
Notation "x <- c ;; k" := (bindR c (fun x => k))
  (at level 100, c at next level, right associativity) : run_scope.
Notation "c ;; k" := (bindR c (fun _ => k))
  (at level 100, right associativity) : run_scope.
Local Open Scope run_scope.

(** A pure computation that may raise. *)
Definition lift {A} (r : result A) : Run A := fun st => (r, st).

Definition emit (e : event) : Run unit :=
  fun st => (Ok tt, with_trace (trace st ++ [e]) st).

Definition modify (f : RunState -> RunState) : Run unit :=
  fun st => (Ok tt, f st).

Definition gets {A} (f : RunState -> A) : Run A := fun st => (Ok (f st), st).

(** [try: c except Exception as e: h e] *)
Definition try_except {A} (c : Run A) (h : exn -> Run A) : Run A :=
  fun st =>
    match c st with
    | (Ok a, st') => (Ok a, st')
    | (Raise e, st') => h e st'
    end.

(** A read of [self.is_cancelled]: [cancel()] has been called once the
    worker has gone through [w_cancel_after] steps. *)
Definition flag_at (w : World) (steps : nat) : bool :=
  match w_cancel_after w with
  | Some t => bool_decide (t ≤ steps)%nat
  | None => false
  end.

Definition is_cancelled (w : World) : Run bool :=
  fun st =>
    let b := flag_at w (length (trace st)) in
    (Ok b, with_trace (trace st ++ [ReadFlag b]) st).

(** * VideoCompressionWorker *)

Section Worker.

Variable settings : CompressionSettings.
Variable w : World.

(** ** setup_video_encoder (lines 293-348) *)

(** A [Fraction] is true when it is not zero. *)
Definition truthy_rate (o : option Fraction) : option Fraction :=
  match o with
  | Some r => if numerator r =? 0 then None else Some r
  | None => None
  end.

Definition output_dimensions (input_stream : VideoStream) : Z * Z :=
  if bool_decide (resolution settings = "original")
  then (vs_width input_stream, vs_height input_stream)
  else get_resolution_dimensions (resolution settings).

Definition output_rate (input_stream : VideoStream) : result Fraction :=
  if bool_decide (fps settings = "original") then
    match truthy_rate (vs_average_rate input_stream) with
    | Some r => Ok r
    | None =>
        match truthy_rate (vs_base_rate input_stream) with
        | Some r => Ok r
        | None => Ok {| numerator := 30; denominator := 1 |}
        end
    end
  else
    bind (int_of_str (fps settings)) (fun k =>
    Ok {| numerator := k; denominator := 1 |}).

(** The quality settings: the codec options and the bit rate. *)
Definition quality_options (encoder_name : string)
  : result (gmap string string * option Z) :=
  if bool_decide (quality_mode settings = "crf") then
    if PyStr.contains "nvenc" encoder_name then
      let key := if PyStr.contains "h264_nvenc" encoder_name
                 then "crf" else "cq" in
      Ok (<["preset" := "medium"]>
            (<[key := str_of_int (crf_value settings)]> ∅), None)
    else if PyStr.contains "qsv" encoder_name then
      Ok (<["global_quality" := str_of_int (crf_value settings)]> ∅, None)
    else
      Ok (<["preset" := preset settings]>
            (<["crf" := str_of_int (crf_value settings)]> ∅), None)
  else
    bind (parse_bitrate (bitrate settings)) (fun b => Ok (∅, Some b)).

(** Everything after [add_stream]. *)
Definition configure_video_stream (encoder_name : string)
    (input_stream : VideoStream) : result OutputStream :=
  let '(width, height) := output_dimensions input_stream in
  bind (output_rate input_stream) (fun rate =>
  bind (quality_options encoder_name) (fun '(options, bit_rate) =>
  Ok {| os_encoder := encoder_name;
        os_width := width; os_height := height;
        os_rate := rate; os_pix_fmt := "yuv420p";
        os_options := options; os_bit_rate := bit_rate;
        os_thread_count :=
          if 0 <? threads settings then Some (threads settings)
          else None |})).

Definition setup_video_encoder (encoder_name : string)
    (input_stream : VideoStream) : Run OutputStream :=
  match w_add_stream_error w encoder_name with
  | Some msg =>
      raise (RuntimeError ("Failed to create stream with encoder "
                           +:+ encoder_name +:+ ": " +:+ msg))
  | None =>
      emit (AddStream encoder_name) ;;
      lift (configure_video_stream encoder_name input_stream)
  end.

(** ** setup_audio_encoder (lines 350-370) *)

Definition setup_audio_encoder (input_stream : AudioStream)
  : Run AudioOutputStream :=
  match w_add_stream_error w (audio_codec settings) with
  | Some msg => raise (AVError msg)
  | None =>
      emit (AddStream (audio_codec settings)) ;;
      b <- lift (parse_bitrate (audio_bitrate settings)) ;;
      ret {| aos_codec := audio_codec settings;
             aos_sample_rate :=
               match as_sample_rate input_stream with
               | Some r => r
               | None => default 44100 (as_rate input_stream)
               end;
             aos_layout := default "stereo" (as_layout input_stream);
             aos_bit_rate := b |}
  end.

(** ** resize_frame (lines 372-375) *)

Definition resize_frame (frame : Frame) : Run Frame :=
  let '(width, height) := get_resolution_dimensions (resolution settings) in
  match w_reformat_error w frame with
  | Some msg => raise (AVError msg)
  | None =>
      emit (Reformat frame width height) ;;
      ret {| fr_index := fr_index frame;
             fr_width := width; fr_height := height |}
  end.

(** ** run (lines 165-291) *)

(** Lines 183-192: the number of frames the progress bar counts against. *)
Definition estimate_total_frames (video_stream : VideoStream) : result Z :=
  if vs_frames video_stream =? 0 then
    match vs_duration video_stream with
    | Some d =>
        if d =? 0 then Ok 1000 else
        match truthy_rate (vs_average_rate video_stream) with
        | Some r =>
            bind (int_truediv (numerator r) (Zpos (denominator r))) (fun fr =>
            bind (float_of_int d) (fun fd =>
            int_of_float (mul fd fr)))
        | None => Ok (d * 30)
        end
    | None => Ok 1000
    end
  else Ok (vs_frames video_stream).

(** [for packet in ...: output_container.mux(packet)] *)
Fixpoint mux_all (ph : phase) (packets : list Packet) : Run unit :=
  match packets with
  | [] => ret tt
  | p :: rest =>
      emit (Mux ph p) ;;
      match pkt_mux_error p with
      | Some msg => raise (AVError msg)
      | None => mux_all ph rest
      end
  end.

Definition encode_and_mux (ph : phase) (call : event) (r : encode_result)
  : Run unit :=
  emit call ;;
  match r with
  | EncodeError msg => raise (AVError msg)
  | Packets l => mux_all ph l
  end.

(** Lines 207-217: the attempts, in order, until one succeeds. *)
Fixpoint negotiate (video_stream : VideoStream) (plan : list string)
  : Run unit :=
  match plan with
  | [] => ret tt
  | attempt_encoder :: rest =>
      found <- try_except
        (emit (Status ("Attempting encoder: " +:+ attempt_encoder)) ;;
         os <- setup_video_encoder attempt_encoder video_stream ;;
         modify (with_video_stream (Some os)) ;;
         emit (Status ("✅ Using encoder: " +:+ attempt_encoder)) ;;
         ret true)
        (fun e =>
           emit (Status ("❌ Encoder " +:+ attempt_encoder +:+ " failed: "
                         +:+ exn_str e)) ;;
           ret false) ;;
      if found : bool then ret tt else negotiate video_stream rest
  end.

(** Lines 233-250: the video loop.  The generator decodes a frame, and
    the body starts with the check of the flag. *)
Fixpoint video_loop (total_frames : Z) (frames : list Frame) : Run unit :=
  match frames with
  | [] =>
      match w_video_decode_error w with
      | Some msg => raise (AVError msg)
      | None => ret tt
      end
  | frame :: rest =>
      emit (DecodeVideo frame) ;;
      cancelled <- is_cancelled w ;;
      if cancelled : bool then ret tt else
      frame <- (if bool_decide (resolution settings ≠ "original")
                then resize_frame frame else ret frame) ;;
      encode_and_mux MainVideo (EncodeVideo frame) (w_encode_video w frame) ;;
      n <- gets processed_frames ;;
      modify (with_processed (n + 1)) ;;
      progress <- lift (progress_value (n + 1) total_frames) ;;
      emit (Progress progress) ;;
      (if (n + 1) mod 30 =? 0
       then emit (Status ("Processed " +:+ str_of_int (n + 1) +:+ "/"
                          +:+ str_of_int total_frames +:+ " frames"))
       else ret tt) ;;
      video_loop total_frames rest
  end.

(** Lines 255-259: the audio loop. *)
Fixpoint audio_loop (frames : list AudioFrame) : Run unit :=
  match frames with
  | [] =>
      match w_audio_decode_error w with
      | Some msg => raise (AVError msg)
      | None => ret tt
      end
  | frame :: rest =>
      emit (DecodeAudio frame) ;;
      cancelled <- is_cancelled w ;;
      if cancelled : bool then ret tt else
      encode_and_mux MainAudio (EncodeAudio frame) (w_encode_audio w frame) ;;
      audio_loop rest
  end.

(** Lines 168-194: validate and open the input, find the video stream,
    estimate the number of frames. *)
Definition open_input : Run (VideoStream * Z) :=
  emit (Status "Initializing compression...") ;;
  (if w_input_exists w then ret tt
   else raise (FileNotFoundError
                 ("Input file not found: " +:+ input_file settings))) ;;
  match w_open_input_error w with
  | Some msg => raise (AVError msg)
  | None =>
      emit OpenInput ;;
      modify (with_input Opened) ;;
      match w_video w with
      | None => raise (IndexError "tuple index out of range")
      | Some video_stream =>
          total_frames <- lift (estimate_total_frames video_stream) ;;
          emit (Status ("Processing " +:+ str_of_int total_frames
                        +:+ " frames...")) ;;
          ret (video_stream, total_frames)
      end
  end.

(** Lines 196-220: open the output and negotiate a video encoder. *)
Definition negotiate_video (video_stream : VideoStream) : Run unit :=
  let encoder_name :=
    SystemDetector.get_optimal_encoder (w_codecs_available w)
                                       (codec settings) in
  emit (Status ("Trying encoder: " +:+ encoder_name)) ;;
  match w_open_output_error w with
  | Some msg => raise (AVError msg)
  | None =>
      emit OpenOutput ;;
      modify (with_output Opened) ;;
      modify (with_video_stream None) ;;
      let fallback_encoders :=
        SystemDetector.get_fallback_encoders (codec settings) in
      negotiate video_stream (encoder_name :: fallback_encoders) ;;
      vos <- gets video_output_stream ;;
      if vos is None
      then raise (RuntimeError "No working video encoder found")
      else ret tt
  end.

(** Lines 222-227: the audio encoder, when the input has audio. *)
Definition negotiate_audio : Run unit :=
  modify (with_audio_stream None) ;;
  match w_audio w with
  | Some audio_stream =>
      aos <- setup_audio_encoder audio_stream ;;
      modify (with_audio_stream (Some aos))
  | None => ret tt
  end.

(** Lines 229-250. *)
Definition process_video (total_frames : Z) : Run unit :=
  modify (with_processed 0) ;;
  video_loop total_frames (w_video_frames w).

(** Lines 252-259. *)
Definition process_audio : Run unit :=
  aos <- gets audio_output_stream ;;
  if aos is Some _
  then emit (Status "Processing audio...") ;;
       audio_loop (w_audio_frames w)
  else ret tt.

(** Lines 261-272: the flush, unless cancelled. *)
Definition flush_encoders : Run unit :=
  cancelled <- is_cancelled w ;;
  if cancelled : bool then ret tt else
    emit (Status "Finalizing...") ;;
    encode_and_mux FlushedVideo FlushVideo (w_flush_video w) ;;
    aos <- gets audio_output_stream ;;
    if aos is Some _
    then encode_and_mux FlushedAudio FlushAudio (w_flush_audio w)
    else ret tt.

(** Lines 274-276. *)
Definition close_containers : Run unit :=
  match w_close_input_error w with
  | Some msg => raise (AVError msg)
  | None =>
      emit CloseInput ;;
      modify (with_input Closed) ;;
      match w_close_output_error w with
      | Some msg => raise (AVError msg)
      | None =>
          emit CloseOutput ;;
          modify (with_output Closed)
      end
  end.

(** Lines 278-283. *)
Definition report : Run unit :=
  cancelled <- is_cancelled w ;;
  if cancelled : bool then
    emit (Finished false "Compression cancelled by user")
  else
    emit (Status "Compression completed successfully!") ;;
    emit (Progress 100) ;;
    emit (Finished true "Compression completed successfully!").

(** Everything from the first decoded frame on. *)
Definition encode_and_finish (total_frames : Z) : Run unit :=
  process_video total_frames ;;
  process_audio ;;
  flush_encoders ;;
  close_containers ;;
  report.

(** The body of the [try] block. *)
Definition run_body : Run unit :=
  opened <- open_input ;;
  let '(video_stream, total_frames) := opened in
  negotiate_video video_stream ;;
  negotiate_audio ;;
  encode_and_finish total_frames.

(** The [except Exception as e] handler. *)
Definition report_failure (e : exn) : Run unit :=
  let error_msg := "Compression failed: " +:+ exn_str e in
  emit (Status error_msg) ;;
  emit (Finished false error_msg).

(** [try: ... except Exception as e: ... finally: gc.collect()] *)
Definition run_monadic : Run unit :=
  try_except run_body report_failure ;;
  emit GcCollect.

(** The state a run ends in. *)
Definition run : RunState := snd (run_monadic initial_state).

End Worker.

(** * CompressProMainWindow

    The controls of the settings panel, as [update_settings_from_ui]
    reads them: the current text of each combo box and line edit, the
    value of each spin box. *)

Module MainWindow.

Record Ui := {
  input_file_edit : string;
  output_file_edit : string;
  codec_combo : string;
  quality_mode_combo : string;
  crf_spin : Z;
  bitrate_edit : string;
  resolution_combo : string;
  fps_combo : string;
  gpu_combo : string;
  preset_combo : string;
  threads_spin : Z
}.

(** The items [create_settings_panel] fills the combo boxes with (lines
    615-727); the boxes are not editable. *)
Definition codec_items : list string :=
  ["H.264 - Best compatibility"; "H.265 - Better compression";
   "VP9 - Open source"; "AV1 - Next generation (experimental)"].

Definition quality_mode_items : list string :=
  ["CRF (Constant Quality)"; "Bitrate (Fixed Size)"].

Definition resolution_items : list string :=
  ["Original"; "1080p"; "720p"; "480p"].

Definition fps_items : list string := ["Original"; "24"; "30"; "60"].

Definition gpu_items : list string :=
  ["Auto (Recommended)"; "NVIDIA NVENC"; "Intel QuickSync"; "AMD VAAPI";
   "CPU Only"].

Definition preset_items : list string :=
  ["ultrafast"; "fast"; "medium"; "slow"; "veryslow"].

Definition codec_map : gmap string string :=
  <["H.264 - Best compatibility" := "h264"]>
  (<["H.265 - Better compression" := "h265"]>
  (<["VP9 - Open source" := "vp9"]>
  (<["AV1 - Next generation (experimental)" := "av1"]> ∅))).

Definition gpu_map : gmap string string :=
  <["Auto (Recommended)" := "auto"]>
  (<["NVIDIA NVENC" := "nvenc"]>
  (<["Intel QuickSync" := "qsv"]>
  (<["AMD VAAPI" := "vaapi"]>
  (<["CPU Only" := "cpu"]> ∅)))).

(** [update_settings_from_ui] (lines 972-1003): the settings object after
    the call, [None] when a dictionary lookup raises [KeyError].  The
    audio fields are not touched. *)
Definition update_settings_from_ui (settings : CompressionSettings) (ui : Ui)
  : option CompressionSettings :=
  match codec_map !! codec_combo ui, gpu_map !! gpu_combo ui with
  | Some c, Some g =>
      Some {| input_file := input_file_edit ui;
              output_file := output_file_edit ui;
              codec := c;
              quality_mode :=
                if PyStr.contains "CRF" (quality_mode_combo ui)
                then "crf" else "bitrate";
              crf_value := crf_spin ui;
              bitrate := bitrate_edit ui;
              resolution := PyStr.lower (resolution_combo ui);
              fps := PyStr.lower (fps_combo ui);
              gpu_acceleration := g;
              preset := preset_combo ui;
              audio_codec := audio_codec settings;
              audio_bitrate := audio_bitrate settings;
              threads := threads_spin ui |}
  | _, _ => None
  end.

End MainWindow.

(** * What the caller observes of a run *)

(** The [(success, message)] pairs delivered through [finished]. *)
Definition terminal_events (tr : list event) : list (bool * string) :=
  omap (fun e => match e with Finished b m => Some (b, m) | _ => None end) tr.

(** The values delivered through [progress_updated]. *)
Definition progress_values (tr : list event) : list Z :=
  omap (fun e => match e with Progress p => Some p | _ => None end) tr.

(** The video frames handed to the encoder. *)
Definition submitted (tr : list event) : list Frame :=
  omap (fun e => match e with EncodeVideo f => Some f | _ => None end) tr.

(** The calls of [frame.reformat] that returned: the frame and the size
    asked for. *)
Definition reformats (tr : list event) : list (Frame * Z * Z) :=
  omap (fun e => match e with
                 | Reformat f width height => Some (f, width, height)
                 | _ => None
                 end) tr.

(** The accelerator families of [detect_gpu_capabilities]; an encoder of
    one of them carries its name. *)
Definition accelerators : list string :=
  ["nvenc"; "qsv"; "vaapi"; "videotoolbox"].

Definition is_hardware (encoder : string) : bool :=
  existsb (fun a => PyStr.contains a encoder) accelerators.

(** The audio frames pulled from the decoder. *)
Definition audio_decodes (tr : list event) : list AudioFrame :=
  omap (fun e => match e with DecodeAudio f => Some f | _ => None end) tr.

(** The streams [add_stream] has put into the output container, by the
    name of their codec, in the order of the container's list. *)
Definition output_streams (tr : list event) : list string :=
  omap (fun e => match e with AddStream c => Some c | _ => None end) tr.

(** The messages delivered through [status_updated]. *)
Definition statuses (tr : list event) : list string :=
  omap (fun e => match e with Status m => Some m | _ => None end) tr.

Definition failure_prefix : string := "Compression failed: ".
Definition cancelled_message : string := "Compression cancelled by user".
Definition success_message : string := "Compression completed successfully!".

(** A message of the [except] handler. *)
Definition is_failure_message (m : string) : bool :=
  String.prefix failure_prefix m.

(** ** Classes of events *)

(** What the blocks before the first decoded frame emit. *)
Definition setup_event (e : event) : bool :=
  match e with
  | Status m => negb (is_failure_message m)
  | OpenInput | OpenOutput | AddStream _ => true
  | _ => false
  end.

(** No observation of the flag, no terminal event, no failure report. *)
Definition calm (e : event) : bool :=
  match e with
  | ReadFlag b => negb b
  | Finished _ _ => false
  | Status m => negb (is_failure_message m)
  | _ => true
  end.

(** No terminal event and no failure report. *)
Definition sober (e : event) : bool :=
  match e with
  | Finished _ _ => false
  | Status m => negb (is_failure_message m)
  | _ => true
  end.

(** Calm, and before the containers are closed. *)
Definition early (e : event) : bool :=
  match e with
  | CloseInput | CloseOutput => false
  | _ => calm e
  end.

(** What may still happen once the flag has been observed, up to the
    terminal event. *)
Definition quiet (e : event) : bool :=
  match e with
  | ReadFlag b => b
  | Status m => bool_decide (m = "Processing audio...")
  | DecodeAudio _ | CloseInput | CloseOutput => true
  | _ => false
  end.

(** What [process_audio] emits. *)
Definition audio_event (e : event) : bool :=
  match e with
  | Status m => bool_decide (m = "Processing audio...")
  | DecodeAudio _ | ReadFlag _ | EncodeAudio _ | Mux MainAudio _ => true
  | _ => false
  end.

(** What [flush_encoders] emits. *)
Definition flush_event (e : event) : bool :=
  match e with
  | Status m => bool_decide (m = "Finalizing...")
  | ReadFlag _ | FlushVideo | FlushAudio
  | Mux FlushedVideo _ | Mux FlushedAudio _ => true
  | _ => false
  end.

(** What the pipeline does not do once it has observed the flag: decode a
    video frame, hand a frame to an encoder, flush, or mux. *)
Definition no_more_work (e : event) : bool :=
  match e with
  | DecodeVideo _ | Reformat _ _ _ | EncodeVideo _ | EncodeAudio _
  | FlushVideo | FlushAudio | Mux _ _ | Progress _ => false
  | _ => true
  end.

(** An event of the flush phase. *)
Definition is_flush (e : event) : bool :=
  match e with
  | FlushVideo | FlushAudio | Mux FlushedVideo _ | Mux FlushedAudio _ => true
  | _ => false
  end.

(** A frame pulled from a decoder. *)
Definition is_decode (e : event) : bool :=
  match e with DecodeVideo _ | DecodeAudio _ => true | _ => false end.

(** Every decoded frame is followed at once by a read of the flag. *)
Definition checked_each_iteration (tr : list event) : Prop :=
  forall i e, tr !! i = Some e -> is_decode e = true ->
              exists b, tr !! S i = Some (ReadFlag b).

(** A frame pulled from a decoder or handed to an encoder. *)
Definition handles_frame (e : event) : bool :=
  match e with
  | DecodeVideo _ | DecodeAudio _ | EncodeVideo _ | EncodeAudio _ => true
  | _ => false
  end.

(** The specification's reading of cancellation: once a check has
    observed the flag, no further frame is decoded or encoded. *)
Definition no_frames_after_observation (tr : list event) : Prop :=
  forall pre post, tr = pre ++ ReadFlag true :: post ->
                   Forall (fun e => handles_frame e = false) post.

(** Frames and reformats are 1920 by 1080. *)
Definition full_hd (e : event) : bool :=
  match e with
  | EncodeVideo f => (fr_width f =? 1920) && (fr_height f =? 1080)
  | Reformat _ width height => (width =? 1920) && (height =? 1080)
  | _ => true
  end.

(** The frame [frame.reformat(width=1920, height=1080)] returns. *)
Definition full_hd_frame (f : Frame) : Frame :=
  {| fr_index := fr_index f; fr_width := 1920; fr_height := 1080 |}.

(** Neither a reformat nor a frame handed to the video encoder. *)
Definition untouched (e : event) : bool :=
  match e with Reformat _ _ _ | EncodeVideo _ => false | _ => true end.

(** Not the close of a container. *)
Definition unclosed (e : event) : bool :=
  match e with CloseInput | CloseOutput => false | _ => true end.

(** What the video loop emits. *)
Definition video_event (e : event) : bool :=
  match e with
  | Status m => String.prefix "Processed " m
  | DecodeVideo _ | ReadFlag _ | Reformat _ _ _ | EncodeVideo _
  | Mux MainVideo _ | Progress _ => true
  | _ => false
  end.

(** A frame handed to the video encoder. *)
Definition is_submit (e : event) : bool :=
  match e with EncodeVideo _ => true | _ => false end.

(** The calls that can still raise once the flag has been observed:
    [decode(audio=0)] and the two [close()]. *)
Definition raises_late (w : World) : Prop :=
  w_audio_decode_error w <> None
  \/ w_close_input_error w <> None
  \/ w_close_output_error w <> None.

(** The three ways a run ends.  A failure that follows an observation of
    the flag was raised by one of the calls of [raises_late]. *)
Inductive ending (w : World) (tr : list event) : Prop :=
| EndSuccess tr0 :
    tr = tr0 ++ [CloseInput; CloseOutput; ReadFlag false;
                 Status success_message; Progress 100;
                 Finished true success_message; GcCollect] ->
    Forall (fun e => early e = true) tr0 ->
    ending w tr
| EndCancelled pre post tr1 :
    tr = pre ++ ReadFlag true :: post
           ++ [Finished false cancelled_message; GcCollect] ->
    tr = tr1 ++ [CloseInput; CloseOutput; ReadFlag true;
                 Finished false cancelled_message; GcCollect] ->
    Forall (fun e => calm e = true) pre ->
    Forall (fun e => quiet e = true) post ->
    (length (audio_decodes post) <= 1)%nat ->
    ending w tr
| EndFailed tr0 e :
    tr = tr0 ++ [Status (failure_prefix +:+ exn_str e);
                 Finished false (failure_prefix +:+ exn_str e); GcCollect] ->
    Forall (fun e => sober e = true) tr0 ->
    (ReadFlag true ∈ tr0 -> raises_late w) ->
    ending w tr.

(** The events of the life of the two containers, and the terminal
    event. *)
Definition is_lifecycle (e : event) : bool :=
  match e with
  | OpenInput | OpenOutput | CloseInput | CloseOutput | Finished _ _ => true
  | _ => false
  end.

(** * Example runs *)

Module Examples.

(** A 4K input that declares three frames. *)
Definition video : VideoStream := {|
  vs_frames := 3; vs_duration := None;
  vs_average_rate := None; vs_base_rate := None;
  vs_width := 3840; vs_height := 2160
|}.

Definition audio : AudioStream := {|
  as_sample_rate := Some 48000; as_rate := None; as_layout := Some "stereo"
|}.

Definition frame (i : nat) : Frame :=
  {| fr_index := i; fr_width := 3840; fr_height := 2160 |}.

Definition packet (i : nat) : Packet :=
  {| pkt_id := i; pkt_mux_error := None |}.

(** Everything works, and nobody cancels. *)
Definition healthy : World := {|
  w_input_exists := true;
  w_open_input_error := None;
  w_video := Some video;
  w_audio := Some audio;
  w_open_output_error := None;
  w_codecs_available := {["libx264"]};
  w_add_stream_error := fun _ => None;
  w_video_frames := [frame 0; frame 1; frame 2];
  w_audio_frames := [{| af_index := 0 |}; {| af_index := 1 |}];
  w_encode_video := fun f => Packets [packet (fr_index f)];
  w_encode_audio := fun f => Packets [];
  w_flush_video := Packets [packet 99];
  w_flush_audio := Packets [];
  w_cancel_after := None;
  w_video_decode_error := None;
  w_audio_decode_error := None;
  w_reformat_error := fun _ => None;
  w_close_input_error := None;
  w_close_output_error := None
|}.

Definition with_cancel_after (t : nat) (w : World) : World := {|
  w_input_exists := w_input_exists w;
  w_open_input_error := w_open_input_error w;
  w_video := w_video w;
  w_audio := w_audio w;
  w_open_output_error := w_open_output_error w;
  w_codecs_available := w_codecs_available w;
  w_add_stream_error := w_add_stream_error w;
  w_video_frames := w_video_frames w;
  w_audio_frames := w_audio_frames w;
  w_encode_video := w_encode_video w;
  w_encode_audio := w_encode_audio w;
  w_flush_video := w_flush_video w;
  w_flush_audio := w_flush_audio w;
  w_cancel_after := Some t;
  w_video_decode_error := w_video_decode_error w;
  w_audio_decode_error := w_audio_decode_error w;
  w_reformat_error := w_reformat_error w;
  w_close_input_error := w_close_input_error w;
  w_close_output_error := w_close_output_error w
|}.

(** [cancel()] is called while the second frame is being decoded: one
    frame has been submitted. *)
Definition cancelled : World := with_cancel_after 14 healthy.

(** [cancel()] is called after the flush, while the containers are
    being closed. *)
Definition late_cancel : World := with_cancel_after 37 healthy.

(** The world [w] with an output whose [close()] raises. *)
Definition with_close_output_error (msg : string) (w : World) : World := {|
  w_input_exists := w_input_exists w;
  w_open_input_error := w_open_input_error w;
  w_video := w_video w;
  w_audio := w_audio w;
  w_open_output_error := w_open_output_error w;
  w_codecs_available := w_codecs_available w;
  w_add_stream_error := w_add_stream_error w;
  w_video_frames := w_video_frames w;
  w_audio_frames := w_audio_frames w;
  w_encode_video := w_encode_video w;
  w_encode_audio := w_encode_audio w;
  w_flush_video := w_flush_video w;
  w_flush_audio := w_flush_audio w;
  w_cancel_after := w_cancel_after w;
  w_video_decode_error := w_video_decode_error w;
  w_audio_decode_error := w_audio_decode_error w;
  w_reformat_error := w_reformat_error w;
  w_close_input_error := w_close_input_error w;
  w_close_output_error := Some msg
|}.

(** The trailer of the output cannot be written. *)
Definition full_disk : World :=
  with_close_output_error "[Errno 28] No space left on device" healthy.

(** The same, and [cancel()] is called while the second frame is being
    decoded. *)
Definition cancelled_full_disk : World := with_cancel_after 14 full_disk.

(** No encoder can be added to the output. *)
Definition no_encoder : World := {|
  w_input_exists := true;
  w_open_input_error := None;
  w_video := Some video;
  w_audio := Some audio;
  w_open_output_error := None;
  w_codecs_available := {["libx264"]};
  w_add_stream_error := fun _ => Some "Unknown encoder";
  w_video_frames := [frame 0; frame 1; frame 2];
  w_audio_frames := [];
  w_encode_video := fun f => Packets [];
  w_encode_audio := fun f => Packets [];
  w_flush_video := Packets [];
  w_flush_audio := Packets [];
  w_cancel_after := None;
  w_video_decode_error := None;
  w_audio_decode_error := None;
  w_reformat_error := fun _ => None;
  w_close_input_error := None;
  w_close_output_error := None
|}.

(** The input has an audio stream only. *)
Definition no_video : World := {|
  w_input_exists := true;
  w_open_input_error := None;
  w_video := None;
  w_audio := Some audio;
  w_open_output_error := None;
  w_codecs_available := {["libx264"]};
  w_add_stream_error := fun _ => None;
  w_video_frames := [];
  w_audio_frames := [{| af_index := 0 |}];
  w_encode_video := fun f => Packets [];
  w_encode_audio := fun f => Packets [];
  w_flush_video := Packets [];
  w_flush_audio := Packets [];
  w_cancel_after := None;
  w_video_decode_error := None;
  w_audio_decode_error := None;
  w_reformat_error := fun _ => None;
  w_close_input_error := None;
  w_close_output_error := None
|}.

(** An input that declares 100 frames, of which 29 are decoded. *)
Definition long : World := {|
  w_input_exists := true;
  w_open_input_error := None;
  w_video := Some {|
    vs_frames := 100; vs_duration := None;
    vs_average_rate := None; vs_base_rate := None;
    vs_width := 3840; vs_height := 2160
  |};
  w_audio := None;
  w_open_output_error := None;
  w_codecs_available := {["libx264"]};
  w_add_stream_error := fun _ => None;
  w_video_frames := map frame (seq 0 29);
  w_audio_frames := [];
  w_encode_video := fun f => Packets [packet (fr_index f)];
  w_encode_audio := fun f => Packets [];
  w_flush_video := Packets [];
  w_flush_audio := Packets [];
  w_cancel_after := None;
  w_video_decode_error := None;
  w_audio_decode_error := None;
  w_reformat_error := fun _ => None;
  w_close_input_error := None;
  w_close_output_error := None
|}.

(** A stream without a declared frame count, one tick long, at half a
    frame per tick. *)
Definition still : VideoStream := {|
  vs_frames := 0; vs_duration := Some 1;
  vs_average_rate := Some {| numerator := 1; denominator := 2 |};
  vs_base_rate := None;
  vs_width := 640; vs_height := 480
|}.

(** An input of that kind that decodes to no frame. *)
Definition empty : World := {|
  w_input_exists := true;
  w_open_input_error := None;
  w_video := Some still;
  w_audio := None;
  w_open_output_error := None;
  w_codecs_available := {["libx264"]};
  w_add_stream_error := fun _ => None;
  w_video_frames := [];
  w_audio_frames := [];
  w_encode_video := fun f => Packets [];
  w_encode_audio := fun f => Packets [];
  w_flush_video := Packets [];
  w_flush_audio := Packets [];
  w_cancel_after := None;
  w_video_decode_error := None;
  w_audio_decode_error := None;
  w_reformat_error := fun _ => None;
  w_close_input_error := None;
  w_close_output_error := None
|}.

(** Bitrate mode, with a bitrate that [parse_bitrate] rejects. *)
Definition unparsable_bitrate : CompressionSettings := {|
  input_file := ""; output_file := "";
  codec := "h264"; quality_mode := "bitrate"; crf_value := 23;
  bitrate := "fast"; resolution := "original"; fps := "original";
  gpu_acceleration := "auto"; preset := "medium";
  audio_codec := "aac"; audio_bitrate := "128k"; threads := 0
|}.

End Examples.

(** * Encoder resolution *)

Lemma first_available_None (available : gset string) (l : list string) :
  Forall (fun e => e ∉ available) l ->
  SystemDetector.first_available available l = None.
Proof.
  induction 1 as [|e l He _ IH]; simpl; [reflexivity|].
  destruct (decide (e ∈ available)); [contradiction|exact IH].
Qed.

Lemma first_available_Some (available : gset string) (l : list string) e :
  SystemDetector.first_available available l = Some e ->
  e ∈ available /\ e ∈ l.
Proof.
  induction l as [|x l IH]; simpl; [discriminate|].
  destruct (decide (x ∈ available)) as [Hx|Hx].
  - intros [= <-]. split; [exact Hx|apply list_elem_of_here].
  - intros H. destruct (IH H) as [? ?]. split; [assumption|].
    by apply list_elem_of_further.
Qed.

(** Every priority list starts with the family's software encoder, the
    one [fallback] names, and continues with hardware encoders only. *)
Lemma encoder_priority_software_first (c : string) (l : list string) :
  SystemDetector.encoder_priority !! c = Some l ->
  exists sw hw, l = sw :: hw
    /\ SystemDetector.fallback !! c = Some sw
    /\ is_hardware sw = false
    /\ forallb is_hardware hw = true.
Proof.
  unfold SystemDetector.encoder_priority, SystemDetector.fallback.
  intros H.
  repeat (apply lookup_insert_Some in H as [[<- <-]|[? H]];
          [do 2 eexists; split; [reflexivity|];
           split; [by simplify_map_eq|]; vm_compute; done |]).
  by rewrite lookup_empty in H.
Qed.

Lemma fallback_is_software (c : string) :
  is_hardware (default "libx264" (SystemDetector.fallback !! c)) = false.
Proof.
  destruct (SystemDetector.fallback !! c) as [sw|] eqn:H; simpl;
    [|vm_compute; reflexivity].
  unfold SystemDetector.fallback in H.
  repeat (apply lookup_insert_Some in H as [[<- <-]|[? H]];
          [vm_compute; reflexivity|]).
  by rewrite lookup_empty in H.
Qed.

Lemma fallback_lists_nonempty (c : string) :
  SystemDetector.get_fallback_encoders c <> [].
Proof.
  unfold SystemDetector.get_fallback_encoders.
  destruct (SystemDetector.fallback_lists !! c) as [l|] eqn:H; simpl;
    [|discriminate].
  unfold SystemDetector.fallback_lists in H.
  repeat (apply lookup_insert_Some in H as [[<- <-]|[? H]]; [discriminate|]).
  by rewrite lookup_empty in H.
Qed.

(** C6.  Encoder resolution is a total function of the codec family, for
    known and unknown families alike: the fallback list is never empty, so
    the attempt plan has at least two entries; a known family's priority
    list has its software encoder first and only hardware encoders after
    it; the primary candidate is a listed encoder that is available, or,
    when no listed encoder is available, the hardcoded software encoder of
    the family (libx264 for an unknown family). *)
Theorem C6_encoder_resolution_total
    (available : gset string) (s : CompressionSettings) :
  let c := codec s in
  let listed := default [] (SystemDetector.encoder_priority !! c) in
  let primary := SystemDetector.get_optimal_encoder available c in
  SystemDetector.get_fallback_encoders c <> []
  /\ (2 <= length (attempt_plan available s))%nat
  /\ head (attempt_plan available s) = Some primary
  /\ (forall l, SystemDetector.encoder_priority !! c = Some l ->
        exists sw hw, l = sw :: hw
          /\ SystemDetector.fallback !! c = Some sw
          /\ is_hardware sw = false
          /\ forallb is_hardware hw = true)
  /\ ((primary ∈ available /\ primary ∈ listed)
      \/ primary = default "libx264" (SystemDetector.fallback !! c))
  /\ (Forall (fun e => e ∉ available) listed ->
        primary = default "libx264" (SystemDetector.fallback !! c)
        /\ is_hardware primary = false).
Proof.
  intros c listed primary.
  split; [apply fallback_lists_nonempty|].
  split.
  { unfold attempt_plan. simpl.
    pose proof (fallback_lists_nonempty (codec s)) as Hne.
    destruct (SystemDetector.get_fallback_encoders (codec s));
      [congruence|simpl; lia]. }
  split; [reflexivity|].
  split; [apply encoder_priority_software_first|].
  split.
  - subst primary. unfold SystemDetector.get_optimal_encoder.
    fold c. fold listed.
    destruct (SystemDetector.first_available available listed) eqn:H.
    + left. by apply first_available_Some.
    + right. reflexivity.
  - intros Hnone. subst primary. unfold SystemDetector.get_optimal_encoder.
    fold c. fold listed.
    rewrite (first_available_None _ _ Hnone).
    split; [reflexivity|apply fallback_is_software].
Qed.

(** With no encoder available at all, h264 resolves to libx264. *)
Lemma C6_encoder_resolution_total_witness :
  SystemDetector.get_optimal_encoder ∅ (codec default_settings) = "libx264"
  /\ is_hardware (SystemDetector.get_optimal_encoder ∅ (codec default_settings)) = false.
Proof.
  pose proof (C6_encoder_resolution_total ∅ default_settings) as H.
  simpl in H. destruct H as (_ & _ & _ & _ & _ & H).
  apply H. repeat constructor; apply not_elem_of_empty.
Defined.

(** C7.  Two settings records that differ only in the acceleration
    preference get the same attempt plan, and the whole run on them is the
    same: no step of the worker reads the field. *)
Theorem C7_acceleration_preference_ignored
    (s : CompressionSettings) (g1 g2 : string)
    (available : gset string) (w : World) :
  attempt_plan available (set_gpu_acceleration g1 s)
    = attempt_plan available (set_gpu_acceleration g2 s)
  /\ run (set_gpu_acceleration g1 s) w = run (set_gpu_acceleration g2 s) w.
Proof. split; reflexivity. Qed.


(** * Reasoning about runs

    [wp c Q E st]: started in [st], the computation [c] ends in a state
    that satisfies [Q] when it returns and [E] when it raises. *)

Definition wp {A} (c : Run A) (Q : A -> RunState -> Prop)
    (E : exn -> RunState -> Prop) (st : RunState) : Prop :=
  match c st with
  | (Ok a, st') => Q a st'
  | (Raise e, st') => E e st'
  end.

Section Rules.

Context {A B : Type}.
Implicit Types (Q : A -> RunState -> Prop) (E : exn -> RunState -> Prop).

Lemma wp_bind (c : Run B) (k : B -> Run A) Q E st :
  wp c (fun b => wp (k b) Q E) E st -> wp (bindR c k) Q E st.
Proof. unfold wp, bindR. by destruct (c st) as [[a|e] st']. Qed.

Lemma wp_bind_inv (c : Run B) (k : B -> Run A) Q E st :
  wp (bindR c k) Q E st -> wp c (fun b => wp (k b) Q E) E st.
Proof. unfold wp, bindR. by destruct (c st) as [[a|e] st']. Qed.

Lemma wp_try_except (c : Run A) (h : exn -> Run A) Q E st :
  wp c Q (fun e => wp (h e) Q E) st -> wp (try_except c h) Q E st.
Proof. unfold wp, try_except. by destruct (c st) as [[a|e] st']. Qed.

Lemma wp_mono (c : Run A) Q Q' E E' st :
  wp c Q E st ->
  (forall a st', Q a st' -> Q' a st') ->
  (forall e st', E e st' -> E' e st') ->
  wp c Q' E' st.
Proof. unfold wp. destruct (c st) as [[a|e] st']; auto. Qed.

Lemma wp_ret (a : A) Q E st : Q a st -> wp (ret a) Q E st.
Proof. done. Qed.

Lemma wp_raise (e : exn) Q E st : E e st -> wp (raise e) Q E st.
Proof. done. Qed.

Lemma wp_lift (r : result A) Q E st :
  match r with Ok a => Q a st | Raise e => E e st end -> wp (lift r) Q E st.
Proof. unfold wp, lift. by destruct r. Qed.

Lemma wp_gets (f : RunState -> A) Q E st : Q (f st) st -> wp (gets f) Q E st.
Proof. done. Qed.

End Rules.

Lemma wp_modify (f : RunState -> RunState) Q E st :
  Q tt (f st) -> wp (modify f) Q E st.
Proof. done. Qed.

Lemma wp_emit (e : event) Q E st :
  Q tt (with_trace (trace st ++ [e]) st) -> wp (emit e) Q E st.
Proof. done. Qed.

Lemma wp_is_cancelled (w : World) Q E st :
  Q (flag_at w (length (trace st)))
    (with_trace (trace st ++ [ReadFlag (flag_at w (length (trace st)))]) st) ->
  wp (is_cancelled w) Q E st.
Proof. done. Qed.

(** Projections of updated states. *)
Ltac st_simpl :=
  cbn [trace with_trace with_input with_output with_video_stream
       with_audio_stream with_processed input_container output_container
       video_output_stream audio_output_stream processed_frames fst snd].

(** One step of symbolic execution, following the shape of the program. *)
Ltac wp_step :=
  lazymatch goal with
  | |- wp (bindR _ _) _ _ _ => apply wp_bind
  | |- wp (try_except _ _) _ _ _ => apply wp_try_except
  | |- wp (ret _) _ _ _ => apply wp_ret
  | |- wp (raise _) _ _ _ => apply wp_raise
  | |- wp (lift _) _ _ _ => apply wp_lift
  | |- wp (gets _) _ _ _ => apply wp_gets
  | |- wp (modify _) _ _ _ => apply wp_modify
  | |- wp (emit _) _ _ _ => apply wp_emit
  | |- wp (is_cancelled _) _ _ _ => apply wp_is_cancelled
  | |- wp (match ?x with _ => _ end) _ _ _ => destruct x eqn:?
  | |- wp (let '(_, _) := ?x in _) _ _ _ => destruct x eqn:?
  | |- match ?x with _ => _ end => destruct x eqn:?
  end; st_simpl.

Ltac wp_go := repeat wp_step.

(** ** Helpers that only emit

    [advance P st st']: [st'] is [st] with more events, all of them in the
    class [P]; nothing else changed. *)

Definition advance (P : event -> bool) (st st' : RunState) : Prop :=
  exists evs, st' = with_trace (trace st ++ evs) st
              /\ Forall (fun e => P e = true) evs.

Lemma advance_refl P st : advance P st st.
Proof. exists []. rewrite app_nil_r. by destruct st. Qed.

Lemma advance_emit P st e st' :
  P e = true -> advance P (with_trace (trace st ++ [e]) st) st' -> advance P st st'.
Proof.
  intros He (evs & -> & Hevs). exists (e :: evs). st_simpl.
  rewrite <- app_assoc. split; [reflexivity|by constructor].
Qed.

Lemma advance_trans P st1 st2 st3 :
  advance P st1 st2 -> advance P st2 st3 -> advance P st1 st3.
Proof.
  intros (e1 & -> & H1) (e2 & -> & H2). exists (e1 ++ e2). st_simpl.
  rewrite <- app_assoc. split; [reflexivity|by apply Forall_app].
Qed.

Lemma advance_weaken (P Q : event -> bool) st st' :
  (forall e, P e = true -> Q e = true) -> advance P st st' -> advance Q st st'.
Proof.
  intros HPQ (evs & -> & Hevs). exists evs. split; [reflexivity|].
  eapply Forall_impl; eauto.
Qed.

(** A computation that only emits events of the class [P]. *)
Definition emits {A} (P : event -> bool) (c : Run A) : Prop :=
  forall st, advance P st (c st).2.

Lemma emits_wp {A} P (c : Run A) (Q : A -> RunState -> Prop) E st :
  emits P c ->
  (forall a st', advance P st st' -> Q a st') ->
  (forall e st', advance P st st' -> E e st') ->
  wp c Q E st.
Proof.
  intros Hc HQ HE. unfold wp. specialize (Hc st).
  destruct (c st) as [[a|e] st']; simpl in Hc; auto.
Qed.

Lemma wp_emits {A} P (c : Run A) :
  (forall st, wp c (fun _ => advance P st) (fun _ => advance P st) st) ->
  emits P c.
Proof.
  intros H st. specialize (H st). unfold wp in H.
  by destruct (c st) as [[a|e] st'].
Qed.

(** Closes a goal [advance P st st'] where [st'] is [st] after some
    emissions. *)
Ltac advance_now :=
  eexists; split;
  [st_simpl; rewrite <- ?app_assoc; reflexivity
  |simpl; repeat constructor].

(** The same, when [H] says how a later state advances to [st']. *)
Ltac advance_via H :=
  eapply advance_trans; [|exact H]; advance_now.

Section Helpers.

Variable settings : CompressionSettings.
Variable w : World.

Lemma emits_mux_all P ph packets :
  (forall p, P (Mux ph p) = true) -> emits P (mux_all ph packets).
Proof.
  intros HP. apply wp_emits.
  induction packets as [|p rest IH]; intros st; simpl; wp_go.
  - apply advance_refl.
  - eapply advance_emit; [apply HP|apply advance_refl].
  - eapply wp_mono; [apply IH| |]; st_simpl; intros;
      (eapply advance_emit; [apply HP|eassumption]).
Qed.

Lemma emits_encode_and_mux P ph call r :
  P call = true -> (forall p, P (Mux ph p) = true) ->
  emits P (encode_and_mux ph call r).
Proof.
  intros Hc HP. apply wp_emits. intros st. unfold encode_and_mux. wp_go.
  - eapply emits_wp; [by apply emits_mux_all| |]; st_simpl; intros;
      (eapply advance_emit; [apply Hc|eassumption]).
  - eapply advance_emit; [apply Hc|apply advance_refl].
Qed.

Lemma emits_ret {A} P (a : A) : emits P (ret a).
Proof. intros st. apply advance_refl. Qed.

Lemma emits_resize_frame P frame :
  (forall f wd ht, P (Reformat f wd ht) = true) ->
  emits P (resize_frame settings w frame).
Proof.
  intros HP. apply wp_emits. intros st. unfold resize_frame. wp_go.
  - apply advance_refl.
  - eapply advance_emit; [apply HP|apply advance_refl].
Qed.

Lemma emits_maybe_resize P frame :
  (forall f wd ht, P (Reformat f wd ht) = true) ->
  emits P (if bool_decide (resolution settings ≠ "original")
           then resize_frame settings w frame else ret frame).
Proof.
  intros HP. destruct (bool_decide _);
    [by apply emits_resize_frame|apply emits_ret].
Qed.

End Helpers.

(** * The blocks before the first frame *)

Section Setup.

Variable settings : CompressionSettings.
Variable w : World.

Local Abbreviation setup tr := (Forall (fun e => setup_event e = true) tr).

Lemma setup_snoc tr e : setup tr -> setup_event e = true -> setup (tr ++ [e]).
Proof. intros. apply Forall_app. by repeat constructor. Qed.

Hint Resolve setup_snoc : core.

Lemma wp_open_input st :
  setup (trace st) ->
  wp (open_input settings w)
     (fun r st' => setup (trace st')
                   /\ w_video w = Some r.1
                   /\ estimate_total_frames r.1 = Ok r.2)
     (fun _ st' => setup (trace st')) st.
Proof.
  intros H. unfold open_input. wp_go; auto 10.
Qed.

Lemma wp_setup_video_encoder encoder_name input_stream st :
  setup (trace st) ->
  wp (setup_video_encoder settings w encoder_name input_stream)
     (fun _ st' => setup (trace st')) (fun _ st' => setup (trace st')) st.
Proof. intros H. unfold setup_video_encoder. wp_go; auto. Qed.

Lemma wp_negotiate video_stream plan st :
  setup (trace st) ->
  wp (negotiate settings w video_stream plan)
     (fun _ st' => setup (trace st')) (fun _ st' => setup (trace st')) st.
Proof.
  revert st. induction plan as [|a rest IH]; intros st H; simpl; wp_go; auto.
  eapply wp_mono; [apply wp_setup_video_encoder; auto| |];
    st_simpl; intros; wp_go; auto 10.
  apply IH; st_simpl; auto.
Qed.

Lemma wp_negotiate_video video_stream st :
  setup (trace st) ->
  wp (negotiate_video settings w video_stream)
     (fun _ st' => setup (trace st')) (fun _ st' => setup (trace st')) st.
Proof.
  intros H. unfold negotiate_video. wp_go; auto.
  eapply wp_mono; [apply wp_negotiate; st_simpl; auto| |];
    st_simpl; intros; wp_go; auto.
Qed.

Lemma wp_negotiate_audio st :
  setup (trace st) ->
  wp (negotiate_audio settings w)
     (fun _ st' => setup (trace st')) (fun _ st' => setup (trace st')) st.
Proof.
  intros H. unfold negotiate_audio, setup_audio_encoder. wp_go; auto.
Qed.

(** A property of every run follows from what happens from the first
    frame on, started after any setup, and from what the handler is
    given when the setup fails. *)
Lemma wp_run_body (Q : unit -> RunState -> Prop) (E : exn -> RunState -> Prop) :
  (forall e st, setup (trace st) -> E e st) ->
  (forall video_stream total_frames st,
      setup (trace st) ->
      w_video w = Some video_stream ->
      estimate_total_frames video_stream = Ok total_frames ->
      wp (encode_and_finish settings w total_frames) Q E st) ->
  wp (run_body settings w) Q E initial_state.
Proof.
  intros HE HQ. unfold run_body. wp_step.
  eapply wp_mono; [apply wp_open_input; constructor| |]; st_simpl;
    [|by auto].
  intros [vs T] st1 (H1 & Hv & HT). simpl in Hv, HT. wp_step.
  eapply wp_mono; [apply wp_negotiate_video; exact H1| |]; st_simpl;
    [|by auto].
  intros ? st2 H2. wp_step.
  eapply wp_mono; [apply wp_negotiate_audio; exact H2| |]; st_simpl;
    [|by auto].
  intros ? st3 H3. eauto.
Qed.

End Setup.

(** The state a run ends in, from the state [run_body] ends in. *)
Lemma run_of_body (s : CompressionSettings) (w : World) :
  run s w
  = match run_body s w initial_state with
    | (Ok _, st) => with_trace (trace st ++ [GcCollect]) st
    | (Raise e, st) =>
        with_trace (trace st ++ [Status (failure_prefix +:+ exn_str e);
                                 Finished false (failure_prefix +:+ exn_str e);
                                 GcCollect]) st
    end.
Proof.
  unfold run, run_monadic, bindR, try_except.
  destruct (run_body s w initial_state) as [[[]|e] st]; simpl; [reflexivity|].
  unfold with_trace. simpl. by rewrite <- !app_assoc.
Qed.

(** * From the first frame to the terminal event *)

Lemma Forall_snoc_true {A} (P : A -> bool) (l : list A) (a : A) :
  Forall (fun x => P x = true) l -> P a = true ->
  Forall (fun x => P x = true) (l ++ [a]).
Proof. intros. apply Forall_app. by repeat constructor. Qed.

Lemma advance_Forall (P : event -> bool) st st' :
  advance P st st' ->
  Forall (fun e => P e = true) (trace st) ->
  Forall (fun e => P e = true) (trace st').
Proof. intros (evs & -> & Hevs) H. st_simpl. by apply Forall_app. Qed.

Lemma early_calm e : early e = true -> calm e = true.
Proof. by destruct e. Qed.

Lemma setup_early e : setup_event e = true -> early e = true.
Proof. by destruct e. Qed.

(** Extends a [Forall] over a trace that grew by single events. *)
Ltac grow :=
  repeat (apply Forall_snoc_true; [|reflexivity]); try assumption.

Section Endings.

Variable settings : CompressionSettings.
Variable w : World.

Local Abbreviation all_early tr := (Forall (fun e => early e = true) tr).
Local Abbreviation all_sober tr := (Forall (fun e => sober e = true) tr).

(** What has been emitted when something raised: nothing but sober
    events, and after an observation of the flag only a late call
    raises. *)
Definition failing (tr : list event) : Prop :=
  all_sober tr /\ (ReadFlag true ∈ tr -> raises_late w).

Lemma early_sober e : early e = true -> sober e = true.
Proof. by destruct e. Qed.

Lemma calm_sober e : calm e = true -> sober e = true.
Proof. by destruct e. Qed.

Lemma quiet_sober e : quiet e = true -> sober e = true.
Proof.
  destruct e; try done. simpl. intros ->%bool_decide_eq_true. reflexivity.
Qed.

Lemma all_early_failing tr : all_early tr -> failing tr.
Proof.
  intros H. split; [eapply Forall_impl; [exact H|apply early_sober]|].
  intros Hin. rewrite Forall_forall in H. by specialize (H _ Hin).
Qed.

(** The flag has been observed: the trace up to the first observation
    is calm, and what follows is quiet, with at most [n] audio frames
    decoded. *)
Definition observed (n : nat) (tr : list event) : Prop :=
  flag_at w (length tr) = true /\
  exists pre post, tr = pre ++ ReadFlag true :: post
    /\ Forall (fun e => calm e = true) pre
    /\ Forall (fun e => quiet e = true) post
    /\ (length (audio_decodes post) <= n)%nat.

Lemma flag_at_mono n m :
  (n <= m)%nat -> flag_at w n = true -> flag_at w m = true.
Proof.
  unfold flag_at. destruct (w_cancel_after w); [|done].
  intros ? H%bool_decide_eq_true. apply bool_decide_eq_true. lia.
Qed.

Lemma flag_at_snoc (tr : list event) e :
  flag_at w (length tr) = true -> flag_at w (length (tr ++ [e])) = true.
Proof. apply flag_at_mono. rewrite length_app. lia. Qed.

Lemma observed_snoc n e tr :
  observed n tr -> quiet e = true -> (forall f, e <> DecodeAudio f) ->
  observed n (tr ++ [e]).
Proof.
  intros (Hf & pre & post & Ht & Hpre & Hpost & Hn) He Hd. split.
  - by apply flag_at_snoc.
  - exists pre, (post ++ [e]). rewrite Ht, <- app_assoc. split; [done|].
    split; [done|]. split; [by apply Forall_snoc_true|].
    unfold audio_decodes in *. rewrite omap_app, length_app. simpl.
    destruct e; simpl; try lia. by destruct (Hd f).
Qed.

Lemma observed_decode_audio f tr :
  observed 0 tr -> observed 1 (tr ++ [DecodeAudio f]).
Proof.
  intros (Hf & pre & post & Ht & Hpre & Hpost & Hn). split.
  - by apply flag_at_snoc.
  - exists pre, (post ++ [DecodeAudio f]). rewrite Ht, <- app_assoc.
    split; [done|]. split; [done|]. split; [by apply Forall_snoc_true|].
    unfold audio_decodes in *. rewrite omap_app, length_app. simpl. lia.
Qed.

Lemma observed_weaken n m tr : (n <= m)%nat -> observed n tr -> observed m tr.
Proof.
  intros Hnm (Hf & pre & post & Ht & Hpre & Hpost & Hn). split; [done|].
  exists pre, post. repeat split; try done. lia.
Qed.

Lemma observe tr :
  Forall (fun e => calm e = true) tr -> flag_at w (length tr) = true ->
  observed 0 (tr ++ [ReadFlag true]).
Proof.
  intros H Hf. split; [by apply flag_at_snoc|].
  exists tr, []. repeat split; try done.
Qed.

Lemma all_early_calm tr : all_early tr -> Forall (fun e => calm e = true) tr.
Proof. intros H. eapply Forall_impl; [exact H|apply early_calm]. Qed.

Lemma observed_failing n tr : observed n tr -> raises_late w -> failing tr.
Proof.
  intros (_ & pre & post & -> & Hpre & Hpost & _) Hlate. split; [|done].
  apply Forall_app. split; [eapply Forall_impl; [exact Hpre|apply calm_sober]|].
  constructor; [done|]. eapply Forall_impl; [exact Hpost|apply quiet_sober].
Qed.

Lemma failing_close_input tr :
  failing tr -> w_close_output_error w <> None -> failing (tr ++ [CloseInput]).
Proof.
  intros [H _] Hc. split; [by apply Forall_snoc_true|].
  intros _. right. by right.
Qed.

Lemma wp_video_loop_calm total_frames frames st :
  all_early (trace st) ->
  wp (video_loop settings w total_frames frames)
     (fun _ st' => all_early (trace st') \/ observed 0 (trace st'))
     (fun _ st' => all_early (trace st')) st.
Proof.
  revert st. induction frames as [|f rest IH]; intros st H; simpl.
  { wp_go; [done|by left]. }
  do 4 wp_step.
  destruct (flag_at w (length (trace st ++ [DecodeVideo f]))) eqn:Hflag.
  { wp_go. right. apply observe; [|done]. apply all_early_calm. grow. }
  wp_step.
  assert (forall f' st1, all_early (trace st1) ->
    wp (encode_and_mux MainVideo (EncodeVideo f') (w_encode_video w f');;
        n <- gets processed_frames;;
        modify (with_processed (n + 1));;
        progress <- lift (progress_value (n + 1) total_frames);;
        emit (Progress progress);;
        (if (n + 1) mod 30 =? 0
         then emit (Status ("Processed " +:+ str_of_int (n + 1) +:+ "/"
                            +:+ str_of_int total_frames +:+ " frames"))
         else ret tt);;
        video_loop settings w total_frames rest)
       (fun _ st' => all_early (trace st') \/ observed 0 (trace st'))
       (fun _ st' => all_early (trace st')) st1) as Hbody.
  { intros f' st1 H1. wp_step.
    eapply emits_wp;
      [apply emits_encode_and_mux with (P := early); done| |];
      intros ? st2 Hadv; apply (advance_Forall _ _ _ Hadv) in H1;
      [|exact H1].
    wp_go; try (apply IH; st_simpl); grow. }
  eapply emits_wp; [apply emits_maybe_resize with (P := early); done| |];
    intros ? st2 Hadv; [apply Hbody|];
    apply (advance_Forall _ _ _ Hadv); st_simpl; grow.
Qed.

Lemma wp_audio_loop_calm frames st :
  all_early (trace st) ->
  wp (audio_loop w frames)
     (fun _ st' => all_early (trace st') \/ observed 0 (trace st'))
     (fun _ st' => all_early (trace st')) st.
Proof.
  revert st. induction frames as [|f rest IH]; intros st H; simpl.
  { wp_go; [done|by left]. }
  do 4 wp_step.
  destruct (flag_at w (length (trace st ++ [DecodeAudio f]))) eqn:Hflag.
  { wp_go. right. apply observe; [|done]. apply all_early_calm. grow. }
  wp_step.
  eapply emits_wp;
    [apply emits_encode_and_mux with (P := early); done| |];
    intros ? st2 Hadv.
  - apply IH. apply (advance_Forall _ _ _ Hadv). st_simpl. grow.
  - apply (advance_Forall _ _ _ Hadv). st_simpl. grow.
Qed.

(** Once the flag has been observed the audio loop decodes at most one
    frame, and leaves at its first check. *)
Lemma wp_audio_loop_observed frames st :
  observed 0 (trace st) ->
  wp (audio_loop w frames)
     (fun _ st' => observed 1 (trace st'))
     (fun _ st' => failing (trace st')) st.
Proof.
  intros H. destruct frames as [|f rest]; simpl.
  { wp_go.
    - apply (observed_failing 0); [done|]. left. congruence.
    - apply (observed_weaken 0); [lia|done]. }
  do 4 wp_step.
  pose proof (observed_decode_audio f _ H) as H1.
  rewrite (proj1 H1). wp_go. by apply observed_snoc.
Qed.

Lemma ending_cancelled tr :
  observed 1 tr ->
  exists pre post,
    ((tr ++ [CloseInput]) ++ [CloseOutput]) ++ [ReadFlag true]
      = pre ++ ReadFlag true :: post
    /\ Forall (fun e => calm e = true) pre
    /\ Forall (fun e => quiet e = true) post
    /\ (length (audio_decodes post) <= 1)%nat.
Proof.
  intros H.
  assert (observed 1 (((tr ++ [CloseInput]) ++ [CloseOutput]) ++ [ReadFlag true]))
    as (_ & pre & post & Ht & Hpre & Hpost & Hn)
    by (repeat (apply observed_snoc; [|done|done]); exact H).
  by exists pre, post.
Qed.

(** What the worker has emitted when [run_body] returns. *)
Inductive body_ending (tr : list event) : Prop :=
| BodySuccess tr0 :
    tr = tr0 ++ [CloseInput; CloseOutput; ReadFlag false;
                 Status success_message; Progress 100;
                 Finished true success_message] ->
    all_early tr0 ->
    body_ending tr
| BodyCancelled pre post tr1 :
    tr = pre ++ ReadFlag true :: post ++ [Finished false cancelled_message] ->
    tr = tr1 ++ [CloseInput; CloseOutput; ReadFlag true;
                 Finished false cancelled_message] ->
    Forall (fun e => calm e = true) pre ->
    Forall (fun e => quiet e = true) post ->
    (length (audio_decodes post) <= 1)%nat ->
    body_ending tr.

(** [close_containers ;; report] after an observation. *)
Lemma wp_close_report_observed st :
  observed 1 (trace st) ->
  wp (close_containers w ;; report w)%run
     (fun _ st' => body_ending (trace st'))
     (fun _ st' => failing (trace st')) st.
Proof.
  intros H. unfold close_containers, report. wp_go.
  - apply (observed_failing 1); [done|]. right. left. congruence.
  - apply failing_close_input; [|congruence].
    apply (observed_failing 1); [done|]. right. right. congruence.
  - destruct (ending_cancelled _ H) as (pre & post & Ht & Hpre & Hpost & Hn).
    eapply (BodyCancelled _ pre post (trace st)); try done.
    + rewrite Ht, <- app_assoc. reflexivity.
    + rewrite <- !app_assoc. reflexivity.
  - assert (flag_at w (length ((trace st ++ [CloseInput]) ++ [CloseOutput]))
            = true) by (do 2 apply flag_at_snoc; apply H).
    congruence.
Qed.

(** [close_containers ;; report] when nothing was observed so far. *)
Lemma wp_close_report_early st :
  all_early (trace st) ->
  wp (close_containers w ;; report w)%run
     (fun _ st' => body_ending (trace st'))
     (fun _ st' => failing (trace st')) st.
Proof.
  intros H. unfold close_containers, report. wp_go.
  - by apply all_early_failing.
  - apply failing_close_input; [by apply all_early_failing|congruence].
  - eapply (BodyCancelled _ ((trace st ++ [CloseInput]) ++ [CloseOutput])
              [] (trace st)).
    + by rewrite <- (app_assoc _ [ReadFlag true]).
    + rewrite <- !app_assoc. reflexivity.
    + apply Forall_snoc_true; [apply Forall_snoc_true|];
        [by apply all_early_calm|done|done].
    + constructor.
    + simpl. lia.
  - eapply (BodySuccess _ (trace st)); [|done].
    rewrite <- !app_assoc. reflexivity.
Qed.

Lemma wp_process_audio_calm st :
  all_early (trace st) ->
  wp (process_audio w)
     (fun _ st' => all_early (trace st') \/ observed 0 (trace st'))
     (fun _ st' => all_early (trace st')) st.
Proof.
  intros H. unfold process_audio. wp_go; [|by left].
  apply wp_audio_loop_calm. st_simpl. grow.
Qed.

Lemma wp_process_audio_observed st :
  observed 0 (trace st) ->
  wp (process_audio w)
     (fun _ st' => observed 1 (trace st'))
     (fun _ st' => failing (trace st')) st.
Proof.
  intros H. unfold process_audio. wp_go.
  - apply wp_audio_loop_observed. st_simpl. by apply observed_snoc.
  - apply (observed_weaken 0); [lia|done].
Qed.

Definition finish : Run unit :=
  (flush_encoders w ;; close_containers w ;; report w)%run.

Lemma wp_finish_observed st :
  observed 1 (trace st) ->
  wp finish (fun _ st' => body_ending (trace st'))
     (fun _ st' => failing (trace st')) st.
Proof.
  intros H. unfold finish, flush_encoders. do 4 wp_step.
  - apply wp_close_report_observed. st_simpl. by apply observed_snoc.
  - destruct H as [H _]. congruence.
Qed.

Lemma wp_finish_early st :
  all_early (trace st) ->
  wp finish (fun _ st' => body_ending (trace st'))
     (fun _ st' => failing (trace st')) st.
Proof.
  intros H. unfold finish, flush_encoders. do 4 wp_step.
  - apply wp_close_report_observed. st_simpl.
    apply (observed_weaken 0); [lia|].
    apply observe; [by apply all_early_calm|done].
  - do 3 wp_step.
    eapply emits_wp;
      [apply emits_encode_and_mux with (P := early); done| |];
      intros ? st2 Hadv;
      assert (all_early (trace st2)) as H2
        by (apply (advance_Forall _ _ _ Hadv); st_simpl; grow);
      [|by apply all_early_failing].
    clear Hadv. wp_step. wp_step. wp_step.
    + eapply emits_wp;
        [apply emits_encode_and_mux with (P := early); done| |];
        intros ? st3 Hadv;
        assert (all_early (trace st3)) as H3
          by (apply (advance_Forall _ _ _ Hadv); exact H2);
        [|by apply all_early_failing].
      by apply wp_close_report_early.
    + by apply wp_close_report_early.
Qed.

Lemma wp_encode_and_finish_ending total_frames st :
  all_early (trace st) ->
  wp (encode_and_finish settings w total_frames)
     (fun _ st' => body_ending (trace st'))
     (fun _ st' => failing (trace st')) st.
Proof.
  intros H. unfold encode_and_finish, process_video. do 3 wp_step.
  eapply wp_mono; [by apply wp_video_loop_calm| |];
    [|intros; by apply all_early_failing].
  intros ? st1 [H1|H1]; wp_step.
  - eapply wp_mono; [by apply wp_process_audio_calm| |];
      [|intros; by apply all_early_failing].
    intros ? st2 [H2|H2].
    + by apply wp_finish_early.
    + apply wp_finish_observed. apply (observed_weaken 0); [lia|done].
  - eapply wp_mono; [by apply wp_process_audio_observed| |done].
    intros ? st2 H2. by apply wp_finish_observed.
Qed.

(** Every run ends in one of three ways. *)
Lemma run_ending : ending w (trace (run settings w)).
Proof.
  unfold run, run_monadic.
  assert (wp (run_body settings w)
            (fun _ st' => body_ending (trace st'))
            (fun _ st' => failing (trace st')) initial_state) as H.
  { apply wp_run_body.
    - intros ? st H. apply all_early_failing.
      eapply Forall_impl; [exact H|apply setup_early].
    - intros vs T st H _ _. apply wp_encode_and_finish_ending.
      eapply Forall_impl; [exact H|apply setup_early]. }
  unfold wp in H. unfold bindR, try_except.
  destruct (run_body settings w initial_state) as [[[]|e] st]; simpl.
  - destruct H as [tr0 Ht H0|pre post tr1 Ht Ht1 Hpre Hpost Hn].
    + eapply (EndSuccess _ _ tr0); [|done].
      rewrite Ht, <- app_assoc. reflexivity.
    + eapply (EndCancelled _ _ pre post tr1); try done.
      * rewrite Ht, <- !app_assoc. simpl. by rewrite <- app_assoc.
      * rewrite Ht1, <- app_assoc. reflexivity.
  - destruct H as [H Hlate].
    eapply (EndFailed _ _ (trace st) e); [|done|done].
    rewrite <- !app_assoc. reflexivity.
Qed.

End Endings.

(** * Cancellation *)

Lemma terminal_events_app tr1 tr2 :
  terminal_events (tr1 ++ tr2) = terminal_events tr1 ++ terminal_events tr2.
Proof. apply omap_app. Qed.

Lemma terminal_events_calm tr :
  Forall (fun e => calm e = true) tr -> terminal_events tr = [].
Proof.
  induction 1 as [|e tr He _ IH]; [reflexivity|].
  destruct e; simpl in *; try done.
Qed.

Lemma terminal_events_quiet tr :
  Forall (fun e => quiet e = true) tr -> terminal_events tr = [].
Proof.
  induction 1 as [|e tr He _ IH]; [reflexivity|].
  destruct e; simpl in *; try done.
Qed.

Lemma statuses_app tr1 tr2 : statuses (tr1 ++ tr2) = statuses tr1 ++ statuses tr2.
Proof. apply omap_app. Qed.

Lemma statuses_calm tr :
  Forall (fun e => calm e = true) tr ->
  Forall (fun m => is_failure_message m = false) (statuses tr).
Proof.
  induction 1 as [|e tr He _ IH]; [constructor|].
  destruct e; simpl in *; try done.
  constructor; [by apply negb_true_iff|done].
Qed.

Lemma statuses_quiet tr :
  Forall (fun e => quiet e = true) tr ->
  Forall (fun m => is_failure_message m = false) (statuses tr).
Proof.
  induction 1 as [|e tr He _ IH]; [constructor|].
  destruct e; simpl in *; try done.
  apply bool_decide_eq_true in He as ->. by constructor.
Qed.

Lemma calm_unobserved tr :
  Forall (fun e => calm e = true) tr -> ReadFlag true ∉ tr.
Proof.
  intros H Hin. rewrite Forall_forall in H. by specialize (H _ Hin).
Qed.

Lemma early_unobserved tr :
  Forall (fun e => early e = true) tr -> ReadFlag true ∉ tr.
Proof.
  intros H. apply calm_unobserved. eapply Forall_impl; [exact H|apply early_calm].
Qed.

Lemma terminal_events_observed pre post tail :
  Forall (fun e => calm e = true) pre ->
  Forall (fun e => quiet e = true) post ->
  terminal_events (pre ++ ReadFlag true :: post ++ tail) = terminal_events tail.
Proof.
  intros Hpre Hpost. rewrite terminal_events_app. simpl.
  rewrite terminal_events_app.
  by rewrite (terminal_events_calm _ Hpre), (terminal_events_quiet _ Hpost).
Qed.

Lemma terminal_events_early tr tail :
  Forall (fun e => early e = true) tr ->
  terminal_events (tr ++ tail) = terminal_events tail.
Proof.
  intros H. rewrite terminal_events_app, terminal_events_calm; [reflexivity|].
  eapply Forall_impl; [exact H|apply early_calm].
Qed.

Lemma unobserved_ending tr tail :
  Forall (fun e => early e = true) tr ->
  ReadFlag true ∉ tail ->
  ReadFlag true ∉ tr ++ tail.
Proof.
  intros H Ht Hin. apply elem_of_app in Hin as [Hin|Hin]; [|done].
  by apply early_unobserved in Hin.
Qed.

Lemma terminal_events_sober tr tail :
  Forall (fun e => sober e = true) tr ->
  terminal_events (tr ++ tail) = terminal_events tail.
Proof.
  intros H. rewrite terminal_events_app.
  replace (terminal_events tr) with (@nil (bool * string)); [reflexivity|].
  induction H as [|e tr He _ IH]; [reflexivity|].
  destruct e; simpl in *; try done.
Qed.

(** A run delivers exactly one terminal event. *)
Lemma run_terminal_event (s : CompressionSettings) (w : World) :
  exists b m, terminal_events (trace (run s w)) = [(b, m)].
Proof.
  destruct (run_ending s w)
    as [tr0 -> H0|pre post tr1 -> _ Hpre Hpost _|tr0 e -> H0 _].
  - exists true, success_message. by rewrite terminal_events_early.
  - exists false, cancelled_message. by rewrite terminal_events_observed.
  - exists false, (failure_prefix +:+ exn_str e).
    by rewrite terminal_events_sober.
Qed.

(** C2, as amended.  When the worker has observed the cancellation flag,
    the one terminal event of the run is [(False, "Compression cancelled
    by user")] and no status message of the run is a failure report,
    unless [decode(audio=0)] or one of the two [close()] raises: these
    calls still run after the flag was observed, inside the [try], and
    when one of them raises the run ends in the failed outcome.  The
    terminal event tells a cancelled run from every other run: only a run
    that observed the flag delivers it, and the message of a failed run,
    which starts with "Compression failed: ", is a different one. *)
Theorem C2_cancelled_unless_late_failure (s : CompressionSettings) (w : World) :
  let tr := trace (run s w) in
  ReadFlag true ∈ tr ->
  ((terminal_events tr = [(false, cancelled_message)]
    /\ Forall (fun m => is_failure_message m = false) (statuses tr))
   \/ (raises_late w
       /\ exists e, terminal_events tr
                    = [(false, failure_prefix +:+ exn_str e)]))
  /\ is_failure_message cancelled_message = false
  /\ (forall s' w',
        terminal_events (trace (run s' w')) = [(false, cancelled_message)] ->
        ReadFlag true ∈ trace (run s' w'))
  /\ (forall e, (false, failure_prefix +:+ exn_str e)
                <> (false, cancelled_message)).
Proof.
  intros tr Hobs. subst tr.
  split; [|split; [reflexivity|split]].
  - destruct (run_ending s w)
      as [tr0 Ht H0|pre post tr1 Ht _ Hpre Hpost _|tr0 e Ht H0 Hlate].
    + exfalso. rewrite Ht in Hobs. revert Hobs.
      apply unobserved_ending; [done|].
      repeat (apply not_elem_of_cons; split; [discriminate|]).
      apply not_elem_of_nil.
    + left. rewrite Ht. split; [by rewrite terminal_events_observed|].
      rewrite statuses_app. apply Forall_app. split;
        [by apply statuses_calm|]. simpl.
      rewrite statuses_app. apply Forall_app. split;
        [by apply statuses_quiet|constructor].
    + right. rewrite Ht in Hobs |- *. split.
      * apply Hlate. apply elem_of_app in Hobs as [Hin|Hin]; [done|].
        by repeat (apply elem_of_cons in Hin as [?|Hin]; [done|]);
          apply elem_of_nil in Hin.
      * exists e. by rewrite terminal_events_sober.
  - intros s' w' Hterm.
    destruct (run_ending s' w')
      as [tr0 Ht' H0|pre' post' tr1 Ht' _ _ _ _|tr0 e Ht' H0 _].
    + rewrite Ht', terminal_events_early in Hterm by done. discriminate.
    + rewrite Ht'. apply elem_of_app. right. apply list_elem_of_here.
    + rewrite Ht', terminal_events_sober in Hterm by done. discriminate.
  - intros e. discriminate.
Qed.

(** A run of the default settings that is cancelled during the second
    frame, on an input and an output that decode and close without an
    error, ends in the cancelled outcome. *)
Lemma C2_cancelled_unless_late_failure_witness :
  terminal_events (trace (run default_settings Examples.cancelled))
  = [(false, cancelled_message)].
Proof.
  destruct (C2_cancelled_unless_late_failure
              default_settings Examples.cancelled) as [[[H _]|[H _]] _].
  - vm_compute.
    repeat first [apply list_elem_of_here | apply list_elem_of_further].
  - exact H.
  - by destruct H as [H|[H|H]].
Defined.

(** The claim as stated fails when the output cannot be closed: the video
    loop of that run observes the flag at its second frame and leaves,
    [input_container.close()] returns, [output_container.close()] raises
    into the handler, and the run is reported as a failure. *)
Lemma C2_cancelled_run_reported_failed :
  let tr := trace (run default_settings Examples.cancelled_full_disk) in
  ReadFlag true ∈ tr
  /\ terminal_events tr
     = [(false, "Compression failed: [Errno 28] No space left on device")]
  /\ terminal_events tr <> [(false, cancelled_message)]
  /\ last (statuses tr)
     = Some "Compression failed: [Errno 28] No space left on device".
Proof.
  vm_compute. split; [|by repeat split].
  repeat first [apply list_elem_of_here | apply list_elem_of_further].
Qed.

(** * The blocks after the video loop only emit *)

Section Tail.

Variable settings : CompressionSettings.
Variable w : World.

Lemma emits_audio_loop frames : emits audio_event (audio_loop w frames).
Proof.
  apply wp_emits. induction frames as [|f rest IH]; intros st; simpl.
  { wp_go; apply advance_refl. }
  do 5 wp_step; [wp_go; advance_now|].
  wp_step.
  eapply emits_wp;
    [apply emits_encode_and_mux with (P := audio_event); done| |].
  - intros ? st1 Hadv.
    eapply wp_mono; [apply IH| |]; intros ? st2 Hadv2; st_simpl;
      (eapply advance_trans; [|exact Hadv2]); advance_via Hadv.
  - intros ? st1 Hadv. advance_via Hadv.
Qed.

Lemma emits_process_audio : emits audio_event (process_audio w).
Proof.
  apply wp_emits. intros st. unfold process_audio. wp_go;
    [|apply advance_refl].
  eapply emits_wp; [apply emits_audio_loop| |]; intros ? st1 Hadv;
    advance_via Hadv.
Qed.

Lemma emits_flush_encoders : emits flush_event (flush_encoders w).
Proof.
  apply wp_emits. intros st. unfold flush_encoders.
  do 3 wp_step; [wp_go; advance_now|].
  do 3 wp_step.
  eapply emits_wp;
    [apply emits_encode_and_mux with (P := flush_event); done| |];
    intros ? st1 Hadv; st_simpl.
  - wp_step. wp_step. wp_step.
    + eapply emits_wp;
        [apply emits_encode_and_mux with (P := flush_event); done| |];
        intros ? st2 Hadv2;
        (eapply advance_trans; [|exact Hadv2]); advance_via Hadv.
    + wp_step. advance_via Hadv.
  - advance_via Hadv.
Qed.

End Tail.

(** * Resolution *)

Lemma get_resolution_dimensions_default (r : string) :
  r <> "1080p" -> r <> "720p" -> r <> "480p" ->
  get_resolution_dimensions r = (1920, 1080).
Proof.
  intros H1 H2 H3. unfold get_resolution_dimensions, resolutions.
  by rewrite !lookup_insert_ne, lookup_empty by done.
Qed.

(** C9.  The presets are 1080p = (1920,1080), 720p = (1280,720) and
    480p = (854,480).  A stream that [setup_video_encoder] returns has the
    width and height of the requested preset, and for "original" the
    width and height of the input stream, whatever they are. *)
Theorem C9_resolution_mapping
    (s : CompressionSettings) (w : World) (encoder_name : string)
    (input_stream : VideoStream) (st st' : RunState) (os : OutputStream) :
  setup_video_encoder s w encoder_name input_stream st = (Ok os, st') ->
  get_resolution_dimensions "1080p" = (1920, 1080)
  /\ get_resolution_dimensions "720p" = (1280, 720)
  /\ get_resolution_dimensions "480p" = (854, 480)
  /\ (resolution s = "720p" -> (os_width os, os_height os) = (1280, 720))
  /\ (resolution s = "1080p" -> (os_width os, os_height os) = (1920, 1080))
  /\ (resolution s = "480p" -> (os_width os, os_height os) = (854, 480))
  /\ (resolution s = "original" ->
      (os_width os, os_height os)
      = (vs_width input_stream, vs_height input_stream)).
Proof.
  intros Hrun. do 3 (split; [reflexivity|]).
  unfold setup_video_encoder in Hrun.
  destruct (w_add_stream_error w encoder_name); [discriminate|].
  unfold bindR, emit, lift in Hrun. simpl in Hrun.
  unfold configure_video_stream, output_dimensions in Hrun.
  assert (forall wd ht,
    (if bool_decide (resolution s = "original")
     then (vs_width input_stream, vs_height input_stream)
     else get_resolution_dimensions (resolution s)) = (wd, ht) ->
    (os_width os, os_height os) = (wd, ht)) as Hdims.
  { intros wd ht Heq. rewrite Heq in Hrun.
    destruct (output_rate s input_stream); [|discriminate].
    destruct (quality_options s encoder_name) as [[o b]|]; [|discriminate].
    simpl in Hrun. by injection Hrun as <- _. }
  repeat split; intros Hres; apply Hdims; rewrite Hres; reflexivity.
Qed.

(** The default settings on a 4K input: the stream is 3840 by 2160. *)
Lemma C9_resolution_mapping_witness :
  match setup_video_encoder default_settings Examples.healthy "libx264"
          Examples.video initial_state with
  | (Ok os, _) => (os_width os, os_height os) = (3840, 2160)
  | (Raise _, _) => False
  end.
Proof.
  destruct (setup_video_encoder default_settings Examples.healthy "libx264"
              Examples.video initial_state) as [[os|e] st'] eqn:H.
  - by apply (C9_resolution_mapping _ _ _ _ _ _ _ H).
  - vm_compute in H. discriminate.
Defined.

Section FullHD.

Variable settings : CompressionSettings.
Variable w : World.

Hypothesis unknown :
  get_resolution_dimensions (resolution settings) = (1920, 1080).
Hypothesis not_original : resolution settings <> "original".

Local Abbreviation all_full_hd tr := (Forall (fun e => full_hd e = true) tr).

Lemma resize_frame_full_hd frame st :
  resize_frame settings w frame st
  = match w_reformat_error w frame with
    | Some msg => (Raise (AVError msg), st)
    | None =>
        (Ok {| fr_index := fr_index frame;
               fr_width := 1920; fr_height := 1080 |},
         with_trace (trace st ++ [Reformat frame 1920 1080]) st)
    end.
Proof.
  unfold resize_frame. rewrite unknown.
  by destruct (w_reformat_error w frame).
Qed.

Lemma wp_video_loop_full_hd total_frames frames st :
  all_full_hd (trace st) ->
  wp (video_loop settings w total_frames frames)
     (fun _ st' => all_full_hd (trace st'))
     (fun _ st' => all_full_hd (trace st')) st.
Proof.
  revert st. induction frames as [|f rest IH]; intros st H; simpl.
  { by wp_go. }
  do 5 wp_step; [wp_go; grow|].
  rewrite bool_decide_eq_true_2 by exact not_original.
  wp_step. unfold wp at 1. rewrite resize_frame_full_hd.
  destruct (w_reformat_error w f); [st_simpl; grow|].
  wp_step.
  eapply emits_wp;
    [apply emits_encode_and_mux with (P := full_hd); done| |];
    intros ? st1 Hadv;
    assert (all_full_hd (trace st1)) as H1
      by (apply (advance_Forall _ _ _ Hadv); st_simpl; grow);
    [|exact H1].
  wp_go; try (apply IH; st_simpl); grow.
Qed.

Lemma wp_encode_and_finish_full_hd total_frames st :
  all_full_hd (trace st) ->
  wp (encode_and_finish settings w total_frames)
     (fun _ st' => all_full_hd (trace st'))
     (fun _ st' => all_full_hd (trace st')) st.
Proof.
  intros H. unfold encode_and_finish, process_video. do 3 wp_step.
  eapply wp_mono; [by apply wp_video_loop_full_hd| |done].
  intros ? st1 H1. wp_step.
  eapply emits_wp; [apply emits_process_audio| |]; intros ? st2 Hadv;
    assert (all_full_hd (trace st2)) as H2
      by (apply (advance_Forall full_hd _ _
                   (advance_weaken audio_event full_hd _ _
                      ltac:(by intros []) Hadv)); exact H1);
    [|exact H2].
  wp_step.
  eapply emits_wp; [apply emits_flush_encoders| |]; intros ? st3 Hadv3;
    assert (all_full_hd (trace st3)) as H3
      by (apply (advance_Forall full_hd _ _
                   (advance_weaken flush_event full_hd _ _
                      ltac:(by intros [| | | | | | | | | | | | | | | |[]|])
                      Hadv3)); exact H2);
    [|exact H3].
  unfold close_containers, report. wp_go; grow.
Qed.

Lemma run_full_hd : all_full_hd (trace (run settings w)).
Proof.
  unfold run, run_monadic.
  assert (wp (run_body settings w)
            (fun _ st' => all_full_hd (trace st'))
            (fun _ st' => all_full_hd (trace st')) initial_state) as H.
  { apply wp_run_body.
    - intros ? st H. eapply Forall_impl; [exact H|by intros []].
    - intros vs T st H _ _. apply wp_encode_and_finish_full_hd.
      eapply Forall_impl; [exact H|by intros []]. }
  unfold wp in H. unfold bindR, try_except, report_failure.
  destruct (run_body settings w initial_state) as [[[]|e] st]; simpl; grow.
Qed.

End FullHD.

(** * Exhaustion of the attempt plan *)

(** The message with which the attempt at [encoder_name] fails, when it
    does: [add_stream] raises, or the configuration of the stream does. *)
Definition attempt_failure (s : CompressionSettings) (w : World)
    (input_stream : VideoStream) (encoder_name : string) : option string :=
  match w_add_stream_error w encoder_name with
  | Some msg =>
      Some ("Failed to create stream with encoder " +:+ encoder_name
            +:+ ": " +:+ msg)
  | None =>
      match configure_video_stream s encoder_name input_stream with
      | Raise e => Some (exn_str e)
      | Ok _ => None
      end
  end.

(** The two status messages of a failed attempt. *)
Definition failed_attempt_statuses (s : CompressionSettings) (w : World)
    (input_stream : VideoStream) (encoder_name : string) : list string :=
  [ "Attempting encoder: " +:+ encoder_name;
    "❌ Encoder " +:+ encoder_name +:+ " failed: "
      +:+ default "" (attempt_failure s w input_stream encoder_name) ].

Section Exhaustion.

Variable s : CompressionSettings.
Variable w : World.
Variable vs : VideoStream.

(** [add_stream(encoder_name)] returns a stream. *)
Definition adds_stream (encoder_name : string) : bool :=
  bool_decide (w_add_stream_error w encoder_name = None).

(** [st'] is [st] after the failed attempts at the encoders of [plan]:
    every candidate that [add_stream] accepted has left its stream in the
    output container. *)
Definition exhausted (plan : list string) (st st' : RunState) : Prop :=
  exists evs,
    st' = with_trace (trace st ++ evs) st
    /\ statuses evs = flat_map (failed_attempt_statuses s w vs) plan
    /\ terminal_events evs = []
    /\ Forall (fun e => is_decode e = false) evs
    /\ output_streams evs = List.filter adds_stream plan.

Lemma wp_negotiate_all_fail plan st :
  Forall (fun a => is_Some (attempt_failure s w vs a)) plan ->
  wp (negotiate s w vs plan) (fun _ => exhausted plan st)
     (fun _ _ => False) st.
Proof.
  intros H. revert st. induction H as [|a rest [msg Ha] _ IH]; intros st.
  { simpl. wp_go. exists []. rewrite app_nil_r. by destruct st. }
  simpl. unfold setup_video_encoder. unfold attempt_failure in Ha.
  wp_go; try discriminate;
    (eapply wp_mono; [apply IH| |done];
     intros ? st' (evs & -> & Hst & Hte & Hdec & Hos)).
  - eexists ([_; _] ++ evs).
    split; [st_simpl; rewrite <- !app_assoc; reflexivity|].
    rewrite statuses_app, terminal_events_app, Hst, Hte.
    split; [|split; [reflexivity|split; [by repeat constructor|]]].
    + simpl. unfold failed_attempt_statuses, attempt_failure.
      by rewrite Heqo.
    + unfold output_streams in *. rewrite omap_app, Hos. simpl.
      unfold adds_stream at 2. by rewrite Heqo.
  - eexists ([_; _; _] ++ evs).
    split; [st_simpl; rewrite <- !app_assoc; reflexivity|].
    rewrite statuses_app, terminal_events_app, Hst, Hte.
    split; [|split; [reflexivity|split; [by repeat constructor|]]].
    + simpl. unfold failed_attempt_statuses, attempt_failure.
      by rewrite Heqo, Heqr.
    + unfold output_streams in *. rewrite omap_app, Hos. simpl.
      unfold adds_stream at 2. by rewrite Heqo.
Qed.

End Exhaustion.

Lemma filter_adds_stream_nil (w : World) (plan : list string) :
  List.filter (adds_stream w) plan = []
  <-> Forall (fun a => w_add_stream_error w a <> None) plan.
Proof.
  induction plan as [|a plan IH]; simpl.
  - split; [constructor|reflexivity].
  - unfold adds_stream at 1. destruct (w_add_stream_error w a) eqn:Ha.
    + rewrite bool_decide_eq_false_2 by congruence. rewrite IH.
      split; [intros H; constructor; [congruence|done]|by inversion 1].
    + rewrite bool_decide_eq_true_2 by reflexivity.
      split; [discriminate|]. inversion 1 as [|? ? Hne]. by destruct Hne.
Qed.

(** C5, as amended.  When the input opens and has a video stream, the
    output opens, and every encoder of the attempt plan fails, the run
    reports, for each candidate in the order of the plan, the attempt and
    its failure, and goes on to the next one; it ends with the single
    terminal event [(False, "Compression failed: No working video encoder
    found")], with the variable [video_output_stream] still [None], and
    without having decoded a frame.  The output container is not left
    without a stream, though: every candidate that [add_stream] accepted
    and whose configuration then raised has left its stream there, and
    the container holds exactly these streams, in the order of the plan;
    it holds none when [add_stream] raised for every candidate. *)
Theorem C5_fallback_exhaustion_keeps_streams
    (s : CompressionSettings) (w : World) (vs : VideoStream) (total : Z) :
  w_input_exists w = true ->
  w_open_input_error w = None ->
  w_video w = Some vs ->
  estimate_total_frames vs = Ok total ->
  w_open_output_error w = None ->
  Forall (fun a => is_Some (attempt_failure s w vs a))
         (attempt_plan (w_codecs_available w) s) ->
  statuses (trace (run s w))
  = [ "Initializing compression...";
      "Processing " +:+ str_of_int total +:+ " frames...";
      "Trying encoder: "
        +:+ SystemDetector.get_optimal_encoder (w_codecs_available w) (codec s) ]
    ++ flat_map (failed_attempt_statuses s w vs)
                (attempt_plan (w_codecs_available w) s)
    ++ [ "Compression failed: No working video encoder found" ]
  /\ terminal_events (trace (run s w))
     = [(false, "Compression failed: No working video encoder found")]
  /\ video_output_stream (run s w) = None
  /\ Forall (fun e => is_decode e = false) (trace (run s w))
  /\ output_streams (trace (run s w))
     = List.filter (adds_stream w) (attempt_plan (w_codecs_available w) s)
  /\ (output_streams (trace (run s w)) = [] <->
      Forall (fun a => w_add_stream_error w a <> None)
             (attempt_plan (w_codecs_available w) s)).
Proof.
  intros Hex Hin Hv HT Hout Hall.
  set (plan := attempt_plan (w_codecs_available w) s) in *.
  assert (wp (run_body s w) (fun _ _ => False)
            (fun e st =>
               e = RuntimeError "No working video encoder found"
               /\ video_output_stream st = None
               /\ exists evs,
                    trace st
                    = [ Status "Initializing compression..."; OpenInput;
                        Status ("Processing " +:+ str_of_int total
                                +:+ " frames...");
                        Status ("Trying encoder: "
                                +:+ SystemDetector.get_optimal_encoder
                                      (w_codecs_available w) (codec s));
                        OpenOutput ] ++ evs
                    /\ statuses evs
                       = flat_map (failed_attempt_statuses s w vs) plan
                    /\ terminal_events evs = []
                    /\ Forall (fun e => is_decode e = false) evs
                    /\ output_streams evs = List.filter (adds_stream w) plan)
            initial_state) as Hbody.
  { unfold run_body, open_input, negotiate_video.
    rewrite Hex, Hin, Hv, Hout. do 11 wp_step. rewrite HT. do 13 wp_step.
    fold (attempt_plan (w_codecs_available w) s). fold plan.
    eapply wp_mono; [by apply wp_negotiate_all_fail| |done].
    intros ? st (evs & -> & Hst & Hte & Hdec & Hos). wp_go.
    split; [reflexivity|]. split; [reflexivity|]. by exists evs. }
  rewrite run_of_body. unfold wp in Hbody.
  destruct (run_body s w initial_state) as [[[]|e] st]; [done|].
  destruct Hbody as (-> & Hvos & evs & Ht & Hst & Hte & Hdec & Hos).
  st_simpl.
  assert (forall tail,
    output_streams tail = [] ->
    output_streams (trace st ++ tail) = List.filter (adds_stream w) plan)
    as Hstreams.
  { intros tail Htail. unfold output_streams in *.
    rewrite Ht, !omap_app, Hos, Htail. simpl. by rewrite app_nil_r. }
  rewrite !Hstreams by reflexivity. clearbody plan.
  rewrite Ht, <- !app_assoc. simpl.
  split; [|split; [|split; [|split; [|split]]]].
  - by rewrite statuses_app, Hst.
  - by rewrite terminal_events_app, Hte.
  - exact Hvos.
  - repeat (constructor; [reflexivity|]).
    apply Forall_app. split; [exact Hdec|by repeat constructor].
  - reflexivity.
  - apply filter_adds_stream_nil.
Qed.

(** * Counting submitted frames *)

Lemma submitted_app tr1 tr2 : submitted (tr1 ++ tr2) = submitted tr1 ++ submitted tr2.
Proof. apply omap_app. Qed.

Lemma submitted_nil tr :
  Forall (fun e => is_submit e = false) tr -> submitted tr = [].
Proof.
  induction 1 as [|e tr He _ IH]; [reflexivity|]. by destruct e.
Qed.

Lemma submitted_drop_le k tr :
  (length (submitted (drop k tr)) <= length (submitted tr))%nat.
Proof.
  revert k. induction tr as [|e tr IH]; intros [|k]; simpl; try lia.
  specialize (IH k). destruct e; simpl; lia.
Qed.

Lemma submitted_take_drop k tr :
  length (submitted tr)
  = (length (submitted (take k tr)) + length (submitted (drop k tr)))%nat.
Proof.
  rewrite <- (take_drop k tr) at 1. by rewrite submitted_app, length_app.
Qed.

Lemma mux_all_exact ph packets st :
  exists muxes,
    (mux_all ph packets st).2 = with_trace (trace st ++ muxes) st
    /\ Forall (fun e => exists p, e = Mux ph p) muxes.
Proof.
  revert st. induction packets as [|p rest IH]; intros st; simpl.
  - exists []. rewrite app_nil_r. by destruct st.
  - unfold bindR, emit. st_simpl. destruct (pkt_mux_error p).
    + exists [Mux ph p]. split; [reflexivity|]. repeat constructor. eauto.
    + destruct (IH (with_trace (trace st ++ [Mux ph p]) st))
        as (muxes & -> & Hm).
      exists (Mux ph p :: muxes). st_simpl. rewrite <- app_assoc.
      split; [reflexivity|]. constructor; eauto.
Qed.

Lemma encode_and_mux_exact ph call r st :
  exists muxes,
    (encode_and_mux ph call r st).2 = with_trace (trace st ++ call :: muxes) st
    /\ Forall (fun e => exists p, e = Mux ph p) muxes.
Proof.
  unfold encode_and_mux, bindR, emit. st_simpl.
  destruct r as [l|msg].
  - destruct (mux_all_exact ph l (with_trace (trace st ++ [call]) st))
      as (muxes & -> & Hm).
    exists muxes. st_simpl. by rewrite <- app_assoc.
  - exists []. split; [reflexivity|constructor].
Qed.

Lemma submitted_muxes ph muxes :
  Forall (fun e => exists p, e = Mux ph p) muxes -> submitted muxes = [].
Proof.
  intros H. apply submitted_nil. eapply Forall_impl; [exact H|].
  by intros ? [p ->].
Qed.


(** With every [add_stream] failing, the three attempts at libx264,
    libx264 and h264_nvenc are reported, the run fails, and the output
    container has no stream. *)
Lemma C5_fallback_exhaustion_keeps_streams_witness :
  terminal_events (trace (run default_settings Examples.no_encoder))
  = [(false, "Compression failed: No working video encoder found")]
  /\ video_output_stream (run default_settings Examples.no_encoder) = None
  /\ output_streams (trace (run default_settings Examples.no_encoder)) = [].
Proof.
  destruct (C5_fallback_exhaustion_keeps_streams
              default_settings Examples.no_encoder Examples.video 3)
    as (_ & H1 & H2 & _ & H3 & _); try reflexivity.
  - vm_compute. repeat constructor; by eexists.
  - by repeat split.
Defined.

(** The claim as stated fails when a candidate is accepted by
    [add_stream] and its configuration raises.  In bitrate mode with the
    bitrate "fast", on the healthy input, every attempt of the plan
    fails at [parse_bitrate], after the width, the height, the rate and
    the pixel format of the new stream have been assigned; the run ends
    with "No working video encoder found", and the output container is
    left with the three streams of the three attempts. *)
Lemma C5_failed_attempts_leave_streams :
  let s := Examples.unparsable_bitrate in
  let w := Examples.healthy in
  let tr := trace (run s w) in
  Forall (fun a => is_Some (attempt_failure s w Examples.video a))
         (attempt_plan (w_codecs_available w) s)
  /\ terminal_events tr
     = [(false, "Compression failed: No working video encoder found")]
  /\ output_streams tr
     = attempt_plan (w_codecs_available w) s
  /\ output_streams tr <> [].
Proof.
  split; [vm_compute; repeat constructor; by eexists|].
  vm_compute. by repeat split.
Qed.

(** * Containers on the failure paths *)

(** C1.  The claim fails on the code: [input_container.close()] and
    [output_container.close()] stand at the end of the [try] block only,
    and neither the [except] handler nor [finally] closes anything.  On
    the input whose encoders all fail, both containers are open when the
    terminal event is emitted and at the end of the run; on the input
    without a video stream the input container is. *)
Theorem C1_failure_leaves_containers_open :
  let exhausted := run default_settings Examples.no_encoder in
  let no_video := run default_settings Examples.no_video in
  List.filter is_lifecycle (trace exhausted)
  = [OpenInput; OpenOutput;
     Finished false "Compression failed: No working video encoder found"]
  /\ input_container exhausted = Opened
  /\ output_container exhausted = Opened
  /\ List.filter is_lifecycle (trace no_video)
     = [OpenInput;
        Finished false "Compression failed: tuple index out of range"]
  /\ input_container no_video = Opened.
Proof. vm_compute. repeat split. Qed.

(** * More on the three endings of a run *)

Lemma not_lifecycle_close tr :
  Forall (fun e => early e = true) tr ->
  (CloseInput ∉ tr) /\ (CloseOutput ∉ tr).
Proof.
  intros H. rewrite Forall_forall in H.
  split; intros Hin; by specialize (H _ Hin).
Qed.

(** X1.  Whatever the settings and whatever the framework does, a run
    emits [finished] exactly once, as the last signal of the worker: only
    the [gc.collect()] of the [finally] block follows it. *)
Theorem X1_exactly_one_terminal_event (s : CompressionSettings) (w : World) :
  exists b m tr0,
    trace (run s w) = tr0 ++ [Finished b m; GcCollect]
    /\ terminal_events tr0 = []
    /\ terminal_events (trace (run s w)) = [(b, m)].
Proof.
  destruct (run_ending s w)
    as [tr0 Ht H0|pre post tr1 Ht _ Hpre Hpost _|tr0 e Ht H0 _].
  - exists true, success_message,
      (tr0 ++ [CloseInput; CloseOutput; ReadFlag false;
               Status success_message; Progress 100]).
    rewrite Ht, <- !app_assoc. split; [reflexivity|].
    by rewrite !terminal_events_early.
  - exists false, cancelled_message, (pre ++ ReadFlag true :: post).
    rewrite Ht, <- !app_assoc. split; [reflexivity|].
    split; [|by rewrite terminal_events_observed].
    rewrite <- (app_nil_r post). by rewrite terminal_events_observed.
  - exists false, (failure_prefix +:+ exn_str e),
      (tr0 ++ [Status (failure_prefix +:+ exn_str e)]).
    rewrite Ht, <- !app_assoc. split; [reflexivity|].
    by rewrite !terminal_events_sober.
Qed.

Lemma prefix_app (p x : string) : String.prefix p (p +:+ x) = true.
Proof.
  induction p as [|c p IH]; simpl; [by destruct x|].
  by destruct (ascii_dec c c).
Qed.

Lemma failure_message_is_failure (x : string) :
  is_failure_message (failure_prefix +:+ x) = true.
Proof. apply prefix_app. Qed.

(** X2.  A run that does not end in a failure report, that is a
    successful or a cancelled run, closes the input container and then the
    output container, reads the flag once more, and only then emits its
    terminal event. *)
Theorem X2_orderly_endings_close_first
    (s : CompressionSettings) (w : World) (b : bool) (m : string) :
  terminal_events (trace (run s w)) = [(b, m)] ->
  is_failure_message m = false ->
  exists tr1 tail,
    trace (run s w)
    = tr1 ++ [CloseInput; CloseOutput; ReadFlag (negb b)] ++ tail
    /\ terminal_events tr1 = []
    /\ last tail = Some GcCollect
    /\ Finished b m ∈ tail.
Proof.
  intros Hterm Hmsg.
  destruct (run_ending s w)
    as [tr0 Ht H0|pre post tr1 Ht Ht1 Hpre Hpost _|tr0 e Ht H0 _].
  - rewrite Ht, terminal_events_early in Hterm by done.
    injection Hterm as <- <-.
    exists tr0, [Status success_message; Progress 100;
                 Finished true success_message; GcCollect].
    repeat split; try done.
    + apply terminal_events_calm. by apply all_early_calm.
    + do 2 apply list_elem_of_further. apply list_elem_of_here.
  - rewrite Ht, terminal_events_observed in Hterm by done.
    injection Hterm as <- <-.
    exists tr1, [Finished false cancelled_message; GcCollect].
    split; [exact Ht1|].
    repeat split; try done; [|apply list_elem_of_here].
    pose proof (run_terminal_event s w) as (b' & m' & Hone).
    rewrite Ht1, terminal_events_app in Hone. simpl in Hone.
    destruct (terminal_events tr1) as [|x [|y l]]; [done| |];
      simpl in Hone; discriminate.
  - rewrite Ht, terminal_events_sober in Hterm by done.
    injection Hterm as <- <-.
    by rewrite failure_message_is_failure in Hmsg.
Qed.

(** A healthy run ends with its containers closed. *)
Lemma X2_orderly_endings_close_first_witness :
  exists tr1 tail,
    trace (run default_settings Examples.healthy)
    = tr1 ++ [CloseInput; CloseOutput; ReadFlag false] ++ tail
    /\ terminal_events tr1 = []
    /\ last tail = Some GcCollect
    /\ Finished true success_message ∈ tail.
Proof.
  apply (X2_orderly_endings_close_first default_settings Examples.healthy
           true success_message); reflexivity.
Defined.

(** * Cancellation during the loops *)

Ltac event_cases :=
  let e := fresh "e" in
  let H := fresh "H" in
  intros e H; destruct e; try done;
  repeat match goal with ph : phase |- _ => destruct ph; try done end.

Section Counting.

Variable settings : CompressionSettings.
Variable w : World.
Variable t : nat.
Hypothesis cancel_time : w_cancel_after w = Some t.

Lemma flag_at_false n : flag_at w n = false -> (n < t)%nat.
Proof.
  unfold flag_at. rewrite cancel_time. intros H%bool_decide_eq_false. lia.
Qed.

Lemma flag_at_true n : flag_at w n = true -> (t <= n)%nat.
Proof.
  unfold flag_at. rewrite cancel_time. by intros H%bool_decide_eq_true.
Qed.

Lemma submitted_drop_app tr evs :
  (length (submitted (drop t (tr ++ evs)))
   <= length (submitted (drop t tr)) + length (submitted evs))%nat.
Proof.
  rewrite drop_app, submitted_app, length_app.
  pose proof (submitted_drop_le (t - length tr) evs). lia.
Qed.

(** The state after the video loop: the processed-frame counter counts
    the submitted frames, at most one frame was submitted after the
    call of [cancel()], and a loop that ends with the flag still unset
    has submitted every frame. *)
Definition video_counted (frames : list Frame) (st st' : RunState) : Prop :=
  exists evs,
    trace st' = trace st ++ evs
    /\ Forall (fun e => video_event e = true) evs
    /\ audio_output_stream st' = audio_output_stream st
    /\ processed_frames st' = Z.of_nat (length (submitted (trace st')))
    /\ (length (submitted (drop t (trace st'))) <= 1)%nat
    /\ (flag_at w (length (trace st')) = false ->
        length (submitted evs) = length frames).

Lemma wp_video_loop_count total_frames frames st :
  processed_frames st = Z.of_nat (length (submitted (trace st))) ->
  (length (submitted (drop t (trace st))) <= 1)%nat ->
  wp (video_loop settings w total_frames frames)
     (fun _ st' => video_counted frames st st') (fun _ _ => True) st.
Proof.
  revert st. induction frames as [|f rest IH]; intros st Hp Hd; simpl.
  { wp_go; [done|]. exists []. rewrite app_nil_r. repeat split; try done. }
  do 5 wp_step.
  { (* the check observes the flag *)
    wp_go. exists [DecodeVideo f; ReadFlag true].
    rewrite <- !app_assoc. simpl.
    split; [reflexivity|]. split; [by repeat constructor|].
    split; [reflexivity|].
    rewrite submitted_app. simpl. rewrite app_nil_r.
    split; [exact Hp|]. split.
    - pose proof (submitted_drop_app (trace st) [DecodeVideo f; ReadFlag true]).
      simpl in *. lia.
    - intros Hfalse. exfalso.
      apply flag_at_true in Heqb. apply flag_at_false in Hfalse.
      rewrite !length_app in *. simpl in *. lia. }
  apply flag_at_false in Heqb. rewrite length_app in Heqb. simpl in Heqb.
  wp_step.
  eapply emits_wp;
    [apply emits_maybe_resize
       with (P := fun e => negb (is_submit e) && video_event e); done
    | |done].
  intros f' st1 (evs1 & -> & Hevs1). st_simpl. wp_step.
  assert (submitted evs1 = []) as Hs1.
  { apply submitted_nil. eapply Forall_impl; [exact Hevs1|].
    intros e He. by destruct e. }
  assert (Forall (fun e => video_event e = true) evs1) as Hv1.
  { eapply Forall_impl; [exact Hevs1|]. intros e He. by destruct e. }
  unfold wp at 1.
  match goal with |- context [encode_and_mux ?ph ?c ?r ?s0] =>
    destruct (encode_and_mux_exact ph c r s0) as (muxes & Hst2 & Hmux);
    destruct (encode_and_mux ph c r s0) as [[[]|e] st2]; [|done]
  end.
  simpl in Hst2. subst st2. st_simpl.
  pose proof (submitted_muxes _ _ Hmux) as Hsm.
  assert (Forall (fun e => video_event e = true) muxes) as Hvm.
  { eapply Forall_impl; [exact Hmux|]. by intros ? [p ->]. }
  set (it := [DecodeVideo f; ReadFlag false] ++ evs1
               ++ EncodeVideo f' :: muxes).
  assert (submitted it = [f']) as Hsit.
  { unfold it. rewrite !submitted_app, Hs1. simpl. by rewrite Hsm. }
  assert (Forall (fun e => video_event e = true) it) as Hvit.
  { unfold it. apply Forall_app. split; [by repeat constructor|].
    apply Forall_app. split; [done|]. by constructor. }
  assert (forall st3 tail,
    trace st3 = (trace st ++ it) ++ tail ->
    Forall (fun e => is_submit e = false) tail ->
    Forall (fun e => video_event e = true) tail ->
    audio_output_stream st3 = audio_output_stream st ->
    processed_frames st3 = processed_frames st + 1 ->
    wp (video_loop settings w total_frames rest)
       (fun _ st' => video_counted (f :: rest) st st') (fun _ _ => True) st3)
    as Hrec.
  { intros st3 tail Ht3 Htail Hvt Haos Hp3.
    pose proof (submitted_nil _ Htail) as Hst.
    assert (submitted (trace st3) = submitted (trace st) ++ [f']) as Hs3.
    { by rewrite Ht3, !submitted_app, Hsit, Hst, app_nil_r. }
    eapply wp_mono; [apply IH| |done].
    - rewrite Hp3, Hs3, Hp, length_app. simpl. lia.
    - rewrite Ht3, <- app_assoc.
      rewrite drop_app_ge by lia.
      etrans; [apply submitted_drop_le|].
      rewrite !submitted_app, Hsit, Hst. simpl. lia.
    - intros ? st' (evs & Ht' & Hev & Haos' & Hp' & Hd' & Hall).
      exists ((it ++ tail) ++ evs).
      split; [by rewrite Ht', Ht3, <- !app_assoc|].
      split; [apply Forall_app; split; [apply Forall_app; split|]; assumption|].
      split; [congruence|]. split; [exact Hp'|]. split; [exact Hd'|].
      intros Hfalse. specialize (Hall Hfalse).
      rewrite !submitted_app, !length_app, Hall, Hsit, Hst. simpl. lia. }
  assert (((trace st ++ [DecodeVideo f]) ++ [ReadFlag false]) ++ evs1
          = trace st ++ [DecodeVideo f; ReadFlag false] ++ evs1) as Hpre
    by (by rewrite <- !app_assoc).
  do 7 wp_step; [|done].
  do 4 wp_step.
  - wp_step. eapply (Hrec _ [Progress a; Status _]); st_simpl;
      [|by repeat constructor| |done|done].
    + unfold it. by rewrite <- !app_assoc.
    + constructor; [done|]. constructor; [|done]. apply prefix_app.
  - wp_step. apply (Hrec _ [Progress a]); st_simpl;
      [|by repeat constructor|by repeat constructor|done|done].
    unfold it. by rewrite <- !app_assoc.
Qed.

Lemma flush_when_cancelled st :
  flag_at w (length (trace st)) = true ->
  flush_encoders w st = (Ok tt, with_trace (trace st ++ [ReadFlag true]) st).
Proof. intros H. unfold flush_encoders, bindR, is_cancelled. by rewrite H. Qed.

(** What [encode_and_finish] has done when it returns: [evs] are the
    events of the video loop, [rest] the events after it. *)
Definition counted (st st' : RunState) : Prop :=
  exists evs rest,
    trace st' = (trace st ++ evs) ++ rest
    /\ Forall (fun e => video_event e = true) evs
    /\ Forall (fun e => is_submit e = false) rest
    /\ processed_frames st' = Z.of_nat (length (submitted evs))
    /\ (length (submitted (drop t (trace st ++ evs))) <= 1)%nat
    /\ (flag_at w (length (trace st ++ evs)) = false ->
        length (submitted evs) = length (w_video_frames w))
    /\ (flag_at w (length (trace st ++ evs)) = true ->
        Forall (fun e => is_flush e = false) rest /\ ReadFlag true ∈ rest).

Lemma wp_encode_and_finish_count total_frames st :
  submitted (trace st) = [] ->
  wp (encode_and_finish settings w total_frames)
     (fun _ st' => counted st st') (fun _ _ => True) st.
Proof.
  intros Hs. unfold encode_and_finish, process_video. do 3 wp_step.
  eapply wp_mono; [apply wp_video_loop_count| |done]; st_simpl.
  { by rewrite Hs. }
  { pose proof (submitted_drop_le t (trace st)). rewrite Hs in *.
    simpl in *. lia. }
  intros ? st1 (evs & Ht1 & Hev & Haos & Hp & Hd & Hall). cbn [trace with_processed processed_frames] in *.
  wp_step.
  eapply emits_wp; [apply emits_process_audio| |done].
  intros ? st2 (evsA & -> & HevA). wp_step.
  assert (Forall (fun e => is_submit e = false) evsA) as HsA.
  { eapply Forall_impl; [exact HevA|]. event_cases. }
  assert (processed_frames st1 = Z.of_nat (length (submitted evs))) as Hp1.
  { by rewrite Hp, Ht1, submitted_app, Hs. }
  destruct (flag_at w (length (trace st1))) eqn:Hflag.
  - (* the flag is set when the video loop ends *)
    unfold wp at 1. rewrite flush_when_cancelled; st_simpl;
      [|eapply flag_at_mono; [|exact Hflag]; rewrite length_app; lia].
    unfold close_containers, report. wp_go; [done|done|..].
    + exists evs, (evsA ++ [ReadFlag true; CloseInput; CloseOutput;
                             ReadFlag true; Finished false cancelled_message]).
      st_simpl. rewrite <- Ht1. split; [by rewrite <- !app_assoc|].
      split; [done|]. split; [apply Forall_app; split; [done|by repeat constructor]|].
      split; [done|]. split; [done|]. split; [congruence|]. intros _. split.
      * apply Forall_app. split; [|by repeat constructor].
        eapply Forall_impl; [exact HevA|]. event_cases.
      * apply elem_of_app. right. apply list_elem_of_here.
    + exfalso.
      assert (flag_at w (length ((((trace st1 ++ evsA) ++ [ReadFlag true])
                                    ++ [CloseInput]) ++ [CloseOutput])) = true)
        as Hc by (eapply flag_at_mono; [|exact Hflag]; rewrite !length_app; lia).
      congruence.
  - eapply emits_wp; [apply emits_flush_encoders| |done].
    intros ? st3 (evsF & -> & HevF). st_simpl.
    assert (Forall (fun e => is_submit e = false) evsF) as HsF.
    { eapply Forall_impl; [exact HevF|]. event_cases. }
    unfold close_containers, report. wp_go; [done|done|..].
    + exists evs, ((evsA ++ evsF) ++ [CloseInput; CloseOutput;
                             ReadFlag true; Finished false cancelled_message]).
      st_simpl. rewrite <- Ht1. split; [by rewrite <- !app_assoc|].
      split; [done|].
      split; [repeat (apply Forall_app; split); try done; by repeat constructor|].
      split; [done|]. split; [done|]. split; [by intros _; apply Hall|].
      intros ?; congruence.
    + exists evs, ((evsA ++ evsF) ++ [CloseInput; CloseOutput;
                             ReadFlag false; Status success_message;
                             Progress 100; Finished true success_message]).
      st_simpl. rewrite <- Ht1. split; [by rewrite <- !app_assoc|].
      split; [done|].
      split; [repeat (apply Forall_app; split); try done; by repeat constructor|].
      split; [done|]. split; [done|]. split; [by intros _; apply Hall|].
      intros ?; congruence.
Qed.

End Counting.

(** * The flag is checked at every iteration *)

Lemma checked_app_quiet tr evs :
  checked_each_iteration tr ->
  Forall (fun e => is_decode e = false) evs ->
  checked_each_iteration (tr ++ evs).
Proof.
  intros Htr Hevs i e Hi Hd.
  destruct (decide (i < length tr)%nat) as [Hlt|Hge].
  - rewrite lookup_app_l in Hi by done.
    destruct (Htr i e Hi Hd) as [b Hb]. exists b.
    by apply lookup_app_l_Some.
  - rewrite lookup_app_r in Hi by lia.
    rewrite Forall_forall in Hevs.
    apply list_elem_of_lookup_2 in Hi. specialize (Hevs _ Hi). congruence.
Qed.

Lemma checked_iteration tr e b :
  checked_each_iteration tr ->
  checked_each_iteration ((tr ++ [e]) ++ [ReadFlag b]).
Proof.
  intros Htr i e' Hi Hd. rewrite <- app_assoc in *. simpl in *.
  destruct (decide (i < length tr)%nat) as [Hlt|Hge].
  - rewrite lookup_app_l in Hi by done.
    destruct (Htr i e' Hi Hd) as [b' Hb]. exists b'.
    by apply lookup_app_l_Some.
  - rewrite lookup_app_r in Hi by lia.
    destruct (i - length tr)%nat as [|[|k]] eqn:Hk; simpl in Hi.
    + exists b. rewrite lookup_app_r by lia.
      by replace (S i - length tr)%nat with 1%nat by lia.
    + injection Hi as <-. discriminate.
    + by rewrite lookup_nil in Hi.
Qed.

Lemma advance_checked st st' :
  advance (fun e => negb (is_decode e)) st st' ->
  checked_each_iteration (trace st) ->
  checked_each_iteration (trace st').
Proof.
  intros (evs & -> & Hevs) H. st_simpl. apply checked_app_quiet; [done|].
  eapply Forall_impl; [exact Hevs|]. intros e He. simpl in He.
  by destruct (is_decode e).
Qed.

Lemma checked_snoc tr e :
  checked_each_iteration tr -> is_decode e = false ->
  checked_each_iteration (tr ++ [e]).
Proof. intros. apply checked_app_quiet; [done|by repeat constructor]. Qed.

Section Checked.

Variable settings : CompressionSettings.
Variable w : World.

Local Abbreviation undecoding := (fun e => negb (is_decode e)).

Lemma wp_video_loop_checked total_frames frames st :
  checked_each_iteration (trace st) ->
  wp (video_loop settings w total_frames frames)
     (fun _ st' => checked_each_iteration (trace st'))
     (fun _ st' => checked_each_iteration (trace st')) st.
Proof.
  revert st. induction frames as [|f rest IH]; intros st H; simpl.
  { by wp_go. }
  do 4 wp_step.
  pose proof (checked_iteration _ (DecodeVideo f)
                (flag_at w (length (trace st ++ [DecodeVideo f]))) H) as H1.
  wp_step; [by wp_go|]. wp_step.
  eapply emits_wp; [apply emits_maybe_resize with (P := undecoding); done| |];
    intros ? st1 Hadv;
    assert (checked_each_iteration (trace st1)) as H2
      by (apply (advance_checked _ _ Hadv); exact H1);
    [|exact H2].
  wp_step.
  eapply emits_wp;
    [apply emits_encode_and_mux with (P := undecoding); done| |];
    intros ? st2 Hadv2;
    assert (checked_each_iteration (trace st2)) as H3
      by (apply (advance_checked _ _ Hadv2); exact H2);
    [|exact H3].
  wp_go; try (apply IH; st_simpl); repeat (apply checked_snoc; [|done]);
    assumption.
Qed.

Lemma wp_audio_loop_checked frames st :
  checked_each_iteration (trace st) ->
  wp (audio_loop w frames)
     (fun _ st' => checked_each_iteration (trace st'))
     (fun _ st' => checked_each_iteration (trace st')) st.
Proof.
  revert st. induction frames as [|f rest IH]; intros st H; simpl.
  { by wp_go. }
  do 4 wp_step.
  pose proof (checked_iteration _ (DecodeAudio f)
                (flag_at w (length (trace st ++ [DecodeAudio f]))) H) as H1.
  wp_step; [by wp_go|]. wp_step.
  eapply emits_wp;
    [apply emits_encode_and_mux with (P := undecoding); done| |];
    intros ? st2 Hadv2;
    assert (checked_each_iteration (trace st2)) as H3
      by (apply (advance_checked _ _ Hadv2); exact H1);
    [|exact H3].
  by apply IH.
Qed.

Lemma wp_encode_and_finish_checked total_frames st :
  checked_each_iteration (trace st) ->
  wp (encode_and_finish settings w total_frames)
     (fun _ st' => checked_each_iteration (trace st'))
     (fun _ st' => checked_each_iteration (trace st')) st.
Proof.
  intros H. unfold encode_and_finish, process_video. do 3 wp_step.
  eapply wp_mono; [by apply wp_video_loop_checked| |done].
  intros ? st1 H1. wp_step.
  assert (wp (process_audio w)
             (fun _ st' => checked_each_iteration (trace st'))
             (fun _ st' => checked_each_iteration (trace st')) st1) as Haudio.
  { unfold process_audio. wp_go; [|done].
    apply wp_audio_loop_checked. st_simpl. by apply checked_snoc. }
  eapply wp_mono; [exact Haudio| |done].
  intros ? st2 H2. wp_step.
  eapply emits_wp; [apply emits_flush_encoders| |]; intros ? st3 Hadv;
    assert (checked_each_iteration (trace st3)) as H3
      by (apply (advance_checked st2); [|exact H2];
          eapply advance_weaken; [|exact Hadv]; event_cases);
    [|exact H3].
  unfold close_containers, report.
  wp_go; repeat (apply checked_snoc; [|done]); assumption.
Qed.

Lemma run_checked : checked_each_iteration (trace (run settings w)).
Proof.
  assert (forall tr, Forall (fun e => setup_event e = true) tr ->
                     checked_each_iteration tr) as Hsetup.
  { intros tr Htr. apply (checked_app_quiet [] tr).
    - intros i e Hi. by rewrite lookup_nil in Hi.
    - eapply Forall_impl; [exact Htr|]. event_cases. }
  assert (wp (run_body settings w)
            (fun _ st' => checked_each_iteration (trace st'))
            (fun _ st' => checked_each_iteration (trace st')) initial_state) as H.
  { apply wp_run_body.
    - intros _ st H. by apply Hsetup.
    - intros vs T st H _ _. apply wp_encode_and_finish_checked.
      by apply Hsetup. }
  rewrite run_of_body. unfold wp in H.
  destruct (run_body settings w initial_state) as [[[]|e] st]; st_simpl.
  - by apply checked_snoc.
  - apply checked_app_quiet; [done|by repeat constructor].
Qed.

End Checked.

(** * A cancelled run *)

Lemma quiet_no_more_work e : quiet e = true -> no_more_work e = true.
Proof. by destruct e. Qed.

Lemma run_body_counted s w t st' :
  w_cancel_after w = Some t ->
  run_body s w initial_state = (Ok tt, st') ->
  exists st, Forall (fun e => setup_event e = true) (trace st)
             /\ counted w t st st'.
Proof.
  intros Ht Hrun.
  assert (wp (run_body s w)
            (fun _ st' => exists st,
                 Forall (fun e => setup_event e = true) (trace st)
                 /\ counted w t st st')
            (fun _ _ => True) initial_state) as H.
  { apply wp_run_body; [done|].
    intros vs T st H _ _.
    eapply wp_mono; [apply (wp_encode_and_finish_count s w t Ht)| |done].
    - apply submitted_nil. eapply Forall_impl; [exact H|]. event_cases.
    - intros ? st2 Hc. by exists st. }
  unfold wp in H. by rewrite Hrun in H.
Qed.

(** C3, as amended.  Let [cancel()] be called when the trace has [t]
    events, [N] video frames having been handed to the encoder by then,
    fewer than the stream has, and let the run not end in a failure
    report.  Then the run ends in the cancelled outcome; at most [N + 1]
    frames are handed to the video encoder in all, and the processed-frame
    counter equals their number; no encoder is flushed and no flushed
    packet is muxed; after the first check that observes the flag no video
    frame is decoded, no frame is encoded, nothing is muxed and no
    progress is emitted, and at most one audio frame is still pulled from
    the decoder; and every decoded frame, video or audio, is followed at
    once by a check of the flag. *)
Theorem C3_cancellation_stops_encoding
    (s : CompressionSettings) (w : World) (t N : nat) :
  let tr := trace (run s w) in
  w_cancel_after w = Some t ->
  length (submitted (take t tr)) = N ->
  (N < length (w_video_frames w))%nat ->
  Forall (fun r => is_failure_message r.2 = false) (terminal_events tr) ->
  terminal_events tr = [(false, cancelled_message)]
  /\ (length (submitted tr) <= N + 1)%nat
  /\ processed_frames (run s w) = Z.of_nat (length (submitted tr))
  /\ Forall (fun e => is_flush e = false) tr
  /\ (exists pre post,
        tr = pre ++ ReadFlag true :: post
        /\ (ReadFlag true ∉ pre)
        /\ Forall (fun e => no_more_work e = true) post
        /\ (length (audio_decodes post) <= 1)%nat)
  /\ checked_each_iteration tr.
Proof.
  intros tr Ht HN Hlt Hok. subst tr.
  pose proof (run_ending s w) as Hend.
  pose proof (run_checked s w) as Hchk.
  rewrite run_of_body in *.
  destruct (run_body s w initial_state) as [[[]|e] st'] eqn:Hrun;
    cbn [trace with_trace processed_frames] in *.
  2: { exfalso. rewrite terminal_events_app in Hok.
       apply Forall_app in Hok as [_ Hok]. simpl in Hok.
       apply Forall_cons in Hok as [Hok _]. simpl in Hok.
       by rewrite failure_message_is_failure in Hok. }
  destruct (run_body_counted s w t st' Ht Hrun)
    as (st & Hsetup & evs & rest & Htr & Hev & Hrest & Hp & Hd & Hall & Hobs).
  assert (submitted (trace st) = []) as Hs0.
  { apply submitted_nil. eapply Forall_impl; [exact Hsetup|]. event_cases. }
  pose proof (submitted_nil _ Hrest) as Hsr.
  assert (submitted (trace st' ++ [GcCollect]) = submitted evs) as Hsub.
  { rewrite Htr, !submitted_app, Hs0, Hsr. simpl. by rewrite !app_nil_r. }
  assert (flag_at w (length (trace st ++ evs)) = true) as Hflag.
  { destruct (flag_at w (length (trace st ++ evs))) eqn:Hf; [done|exfalso].
    specialize (Hall eq_refl).
    apply (flag_at_false w t Ht) in Hf.
    rewrite Htr, <- (app_assoc (trace st ++ evs)), take_app in HN.
    rewrite take_ge in HN by lia.
    rewrite !submitted_app, Hs0, !length_app in HN. simpl in HN. lia. }
  destruct (Hobs Hflag) as [Hnf Hin].
  assert (length (submitted (trace st' ++ [GcCollect])) <= N + 1)%nat as Hle.
  { rewrite (submitted_take_drop t), HN.
    rewrite Htr, <- (app_assoc (trace st ++ evs)), drop_app, submitted_app,
      length_app.
    pose proof (submitted_drop_le (t - length (trace st ++ evs))
                  (rest ++ [GcCollect])) as Hdr.
    rewrite submitted_app, Hsr in Hdr. simpl in Hdr. lia. }
  assert (ReadFlag true ∈ trace st' ++ [GcCollect]) as Hseen.
  { rewrite Htr. apply elem_of_app. left. apply elem_of_app. by right. }
  split; [|split; [exact Hle|split; [by rewrite Hsub|split; [|split; [|exact Hchk]]]]].
  - destruct Hend as [tr0 Ht0 H0|pre post tr1 Htp _ Hpre Hpost _|tr0 e Ht0 H0 _].
    + exfalso. rewrite Ht0 in Hseen. revert Hseen.
      apply unobserved_ending; [done|].
      intros Hx. by repeat (apply elem_of_cons in Hx as [?|Hx]; [done|]);
        apply elem_of_nil in Hx.
    + rewrite Htp. by rewrite terminal_events_observed.
    + exfalso. rewrite Ht0, terminal_events_sober in Hok by done.
      apply Forall_cons in Hok as [Hok _]. simpl in Hok.
      by rewrite failure_message_is_failure in Hok.
  - rewrite Htr. apply Forall_app. split; [|by repeat constructor].
    apply Forall_app. split; [|done]. apply Forall_app. split.
    + eapply Forall_impl; [exact Hsetup|]. event_cases.
    + eapply Forall_impl; [exact Hev|]. event_cases.
  - destruct Hend as [tr0 Ht0 H0|pre post tr1 Htp _ Hpre Hpost Hn|tr0 e Ht0 H0 _].
    + exfalso. rewrite Ht0 in Hseen. revert Hseen.
      apply unobserved_ending; [done|].
      intros Hx. by repeat (apply elem_of_cons in Hx as [?|Hx]; [done|]);
        apply elem_of_nil in Hx.
    + exists pre, (post ++ [Finished false cancelled_message; GcCollect]).
      split; [exact Htp|]. split; [by apply calm_unobserved|]. split.
      * apply Forall_app. split; [|by repeat constructor].
        eapply Forall_impl; [exact Hpost|apply quiet_no_more_work].
      * unfold audio_decodes in *. rewrite omap_app, length_app. simpl. lia.
    + exfalso. rewrite Ht0, terminal_events_sober in Hok by done.
      apply Forall_cons in Hok as [Hok _]. simpl in Hok.
      by rewrite failure_message_is_failure in Hok.
Qed.

(** The input with three video frames and one audio stream, cancelled
    when the trace has 14 events: one frame has been encoded by then. *)
Lemma C3_cancellation_stops_encoding_witness :
  let tr := trace (run default_settings Examples.cancelled) in
  terminal_events tr = [(false, cancelled_message)]
  /\ (length (submitted tr) <= 2)%nat
  /\ Forall (fun e => is_flush e = false) tr.
Proof.
  destruct (C3_cancellation_stops_encoding
              default_settings Examples.cancelled 14 1)
    as (H1 & H2 & _ & H3 & _).
  - reflexivity.
  - reflexivity.
  - vm_compute. lia.
  - vm_compute. by repeat constructor.
  - by repeat split.
Defined.

(** The claim as stated fails on that input: the video loop observes the
    flag at its second frame, and the audio loop then still pulls its
    first frame from the decoder before its own check. *)
Lemma C3_decodes_after_observation :
  let tr := trace (run default_settings Examples.cancelled) in
  w_cancel_after Examples.cancelled = Some 14%nat
  /\ length (submitted (take 14 tr)) = 1%nat
  /\ (1 < length (w_video_frames Examples.cancelled))%nat
  /\ ~ no_frames_after_observation tr.
Proof.
  split; [reflexivity|]. split; [reflexivity|]. split; [vm_compute; lia|].
  intros H.
  specialize (H (take 15 (trace (run default_settings Examples.cancelled)))
                (drop 16 (trace (run default_settings Examples.cancelled)))
                eq_refl).
  rewrite Forall_forall in H.
  specialize (H (DecodeAudio {| af_index := 0 |})).
  discriminate H.
  vm_compute. apply list_elem_of_further, list_elem_of_here.
Qed.

(** * Doubles that hold integers *)

Lemma pow2_pos e : 0 < 2 ^ e \/ e < 0.
Proof. destruct (Z_lt_le_dec e 0); [by right|left; by apply Z.pow_pos_nonneg]. Qed.

(** [ge_pow2 n d e] compares [n/d] with [2^e]: both sides scaled by a
    common power of two. *)
Lemma ge_pow2_scaled n d e K :
  0 <= K -> 0 <= e + K ->
  ge_pow2 n d e = true <-> d * 2 ^ (e + K) <= n * 2 ^ K.
Proof.
  intros HK HeK. unfold ge_pow2. destruct (Z.leb_spec 0 e) as [He|He].
  - rewrite Z.leb_le, Z.pow_add_r by lia.
    assert (0 < 2 ^ K) by (apply Z.pow_pos_nonneg; lia). nia.
  - rewrite Z.leb_le.
    replace K with ((e + K) + - e) at 2 by lia.
    rewrite (Z.pow_add_r 2 (e + K) (- e)) by lia.
    assert (0 < 2 ^ (e + K)) by (apply Z.pow_pos_nonneg; lia). nia.
Qed.

Lemma ge_pow2_mono n d e e' :
  0 < n -> 0 < d -> e' <= e -> ge_pow2 n d e = true -> ge_pow2 n d e' = true.
Proof.
  intros Hn Hd Hle H.
  set (K := Z.max 0 (- e')).
  apply (ge_pow2_scaled n d e K) in H; [|lia|lia].
  apply (ge_pow2_scaled n d e' K); [lia|lia|].
  replace (e + K) with ((e' + K) + (e - e')) in H by lia.
  rewrite Z.pow_add_r in H by lia.
  assert (0 < 2 ^ (e - e')) by (apply Z.pow_pos_nonneg; lia).
  assert (0 < 2 ^ (e' + K)) by (apply Z.pow_pos_nonneg; lia).
  nia.
Qed.

Lemma ilog2_ratio_spec n d :
  0 < n -> 0 < d ->
  ge_pow2 n d (ilog2_ratio n d) = true
  /\ ge_pow2 n d (ilog2_ratio n d + 1) = false.
Proof.
  intros Hn Hd.
  pose proof (Z.log2_spec n Hn) as [Hn1 Hn2].
  pose proof (Z.log2_spec d Hd) as [Hd1 Hd2].
  pose proof (Z.log2_nonneg n) as Ha. pose proof (Z.log2_nonneg d) as Hb.
  set (a := Z.log2 n) in *. set (b := Z.log2 d) in *.
  assert (ge_pow2 n d (a - b - 1) = true) as Hlow.
  { apply (ge_pow2_scaled n d _ (b + 2)); [lia|lia|].
    replace (a - b - 1 + (b + 2)) with (a + 1) by lia.
    replace (b + 2) with (Z.succ b + 1) by lia.
    rewrite (Z.pow_add_r 2 (Z.succ b) 1), (Z.pow_add_r 2 a 1) by lia.
    assert (0 < 2 ^ a) by (apply Z.pow_pos_nonneg; lia).
    assert (0 < 2 ^ Z.succ b) by (apply Z.pow_pos_nonneg; lia).
    nia. }
  assert (ge_pow2 n d (a - b + 1) = false) as Hhigh.
  { apply not_true_is_false. intros H.
    apply (ge_pow2_scaled n d _ (b + 2)) in H; [|lia|lia].
    replace (a - b + 1 + (b + 2)) with (Z.succ a + 2) in H by lia.
    replace (b + 2) with (b + 2) in H by lia.
    rewrite (Z.pow_add_r 2 (Z.succ a) 2), (Z.pow_add_r 2 b 2) in H by lia.
    assert (0 < 2 ^ b) by (apply Z.pow_pos_nonneg; lia).
    assert (0 < 2 ^ Z.succ a) by (apply Z.pow_pos_nonneg; lia).
    change (2 ^ 2) with 4 in H. nia. }
  unfold ilog2_ratio. fold a b.
  destruct (ge_pow2 n d (a - b)) eqn:Hmid.
  - by split.
  - split; [exact Hlow|]. by replace (a - b - 1 + 1) with (a - b) by lia.
Qed.

Lemma ilog2_ratio_unique n d e :
  0 < n -> 0 < d ->
  ge_pow2 n d e = true -> ge_pow2 n d (e + 1) = false ->
  ilog2_ratio n d = e.
Proof.
  intros Hn Hd H1 H2.
  destruct (ilog2_ratio_spec n d Hn Hd) as [H3 H4].
  destruct (Z.lt_trichotomy (ilog2_ratio n d) e) as [Hlt|[Heq|Hgt]]; [|done|].
  - rewrite (ge_pow2_mono n d e (ilog2_ratio n d + 1)) in H4; [done|lia..|done].
  - rewrite (ge_pow2_mono n d (ilog2_ratio n d) (e + 1)) in H2; [done|lia..|done].
Qed.

Lemma rne_multiple k d : 0 < d -> rne (k * d) d = k.
Proof.
  intros Hd. unfold rne. rewrite Z.div_mul, Z.mod_mul by lia.
  simpl. destruct d; try done.
Qed.

(** The double that holds an integer below [2^53]. *)
Definition exact (v : Z) : pyfloat :=
  match v with
  | 0 => Finite 0 0
  | _ => Finite (v * 2 ^ (52 - Z.log2 v)) (Z.log2 v - 52)
  end.

Lemma ilog2_ratio_multiple v d :
  0 < v -> 0 < d -> ilog2_ratio (v * d) d = Z.log2 v.
Proof.
  intros Hv Hd. pose proof (Z.log2_spec v Hv) as [H1 H2].
  pose proof (Z.log2_nonneg v).
  apply ilog2_ratio_unique; [nia|done| |].
  - apply (ge_pow2_scaled _ _ _ 0); [lia|lia|].
    rewrite Z.add_0_r. change (2 ^ 0) with 1. nia.
  - apply not_true_is_false. intros H3.
    apply (ge_pow2_scaled _ _ _ 0) in H3; [|lia|lia].
    rewrite Z.add_0_r in H3. change (2 ^ 0) with 1 in H3.
    replace (Z.log2 v + 1) with (Z.succ (Z.log2 v)) in H3 by lia. nia.
Qed.

Lemma round_ratio_multiple v d :
  0 <= v < 2 ^ 53 -> 0 < d -> round_ratio (v * d) d = exact v.
Proof.
  intros [Hv Hlt] Hd.
  destruct (Z.eq_dec v 0) as [->|Hne]; [reflexivity|].
  assert (0 < v) as Hpos by lia.
  assert (0 < v * d) as Hvd by nia.
  assert (round_ratio (v * d) d = round_pos false (v * d) d) as ->.
  { unfold round_ratio. destruct (v * d); done. }
  assert (exact v = Finite (v * 2 ^ (52 - Z.log2 v)) (Z.log2 v - 52)) as ->.
  { unfold exact. destruct v; done. }
  pose proof (Z.log2_nonneg v) as H0.
  assert (Z.log2 v < 53) as H53 by (by apply Z.log2_lt_pow2).
  unfold round_pos, quantum. rewrite ilog2_ratio_multiple by done.
  unfold emin. rewrite Z.max_l by lia.
  assert (scaled_rne (v * d) d (Z.log2 v - 52) = v * 2 ^ (52 - Z.log2 v)) as ->.
  { unfold scaled_rne. destruct (Z.leb_spec 0 (Z.log2 v - 52)) as [He|He].
    - replace (Z.log2 v - 52) with 0 by lia.
      replace (52 - Z.log2 v) with 0 by lia. change (2 ^ 0) with 1.
      rewrite !Z.mul_1_r. by apply rne_multiple.
    - replace (- (Z.log2 v - 52)) with (52 - Z.log2 v) by lia.
      replace (v * d * 2 ^ (52 - Z.log2 v))
        with (v * 2 ^ (52 - Z.log2 v) * d) by ring.
      by apply rne_multiple. }
  destruct (Z.leb_spec (2 ^ 2098)
              (v * 2 ^ (52 - Z.log2 v) * 2 ^ (Z.log2 v - 52 - -1074)))
    as [Hover|_]; [exfalso|reflexivity].
  rewrite <- Z.mul_assoc, <- Z.pow_add_r in Hover by lia.
  replace (52 - Z.log2 v + (Z.log2 v - 52 - -1074)) with 1074 in Hover by lia.
  change (2 ^ 2098) with (2 ^ 1024 * 2 ^ 1074) in Hover.
  assert (0 < 2 ^ 1074) by (by apply Z.pow_pos_nonneg).
  assert (2 ^ 53 < 2 ^ 1024) by (apply Z.pow_lt_mono_r; lia).
  nia.
Qed.

Lemma float_of_int_exact v : 0 <= v < 2 ^ 53 -> float_of_int v = Ok (exact v).
Proof.
  intros Hv. unfold float_of_int.
  pose proof (round_ratio_multiple v 1) as Hr.
  rewrite Z.mul_1_r in Hr. rewrite Hr by lia. unfold exact. by destruct v.
Qed.

Lemma mul_exact a b :
  0 <= a -> 0 <= b -> a * b < 2 ^ 53 -> mul (exact a) (exact b) = exact (a * b).
Proof.
  intros Ha Hb Hab.
  destruct (Z.eq_dec a 0) as [->|Hane].
  { simpl. destruct b; simpl; try done.
    unfold round_dyadic. by destruct (0 <=? 0 + _). }
  destruct (Z.eq_dec b 0) as [->|Hbne].
  { rewrite Z.mul_0_r. destruct a; try done. simpl.
    unfold round_dyadic. rewrite Z.mul_0_r. by destruct (0 <=? _). }
  assert (a < 2 ^ 53 /\ b < 2 ^ 53) as [Ha53 Hb53] by nia.
  assert (Z.log2 a < 53) by (apply Z.log2_lt_pow2; lia).
  assert (Z.log2 b < 53) by (apply Z.log2_lt_pow2; lia).
  pose proof (Z.log2_nonneg a). pose proof (Z.log2_nonneg b).
  assert (exact a = Finite (a * 2 ^ (52 - Z.log2 a)) (Z.log2 a - 52)) as ->
    by (unfold exact; destruct a; done).
  assert (exact b = Finite (b * 2 ^ (52 - Z.log2 b)) (Z.log2 b - 52)) as ->
    by (unfold exact; destruct b; done).
  unfold mul, round_dyadic.
  set (j := (52 - Z.log2 a) + (52 - Z.log2 b)).
  replace (Z.log2 a - 52 + (Z.log2 b - 52)) with (- j) by lia.
  replace (a * 2 ^ (52 - Z.log2 a) * (b * 2 ^ (52 - Z.log2 b)))
    with (a * b * 2 ^ j)
    by (unfold j; rewrite Z.pow_add_r by lia; ring).
  destruct (Z.leb_spec 0 (- j)) as [Hj|Hj].
  - replace j with 0 by lia. change (- 0) with 0. change (2 ^ 0) with 1.
    rewrite !Z.mul_1_r.
    pose proof (round_ratio_multiple (a * b) 1) as Hr.
    rewrite Z.mul_1_r in Hr. apply Hr; lia.
  - rewrite Z.opp_involutive. apply round_ratio_multiple; [lia|].
    apply Z.pow_pos_nonneg; lia.
Qed.

Lemma int_of_float_exact v : 0 <= v < 2 ^ 53 -> int_of_float (exact v) = Ok v.
Proof.
  intros [Hv Hlt]. destruct (Z.eq_dec v 0) as [->|Hne]; [reflexivity|].
  assert (exact v = Finite (v * 2 ^ (52 - Z.log2 v)) (Z.log2 v - 52)) as ->
    by (unfold exact; destruct v; done).
  assert (Z.log2 v < 53) by (apply Z.log2_lt_pow2; lia).
  simpl. unfold trunc. f_equal.
  destruct (Z.leb_spec 0 (Z.log2 v - 52)).
  - replace (Z.log2 v - 52) with 0 by lia.
    replace (52 - Z.log2 v) with 0 by lia. change (2 ^ 0) with 1. lia.
  - replace (- (Z.log2 v - 52)) with (52 - Z.log2 v) by lia.
    apply Z.quot_mul. apply Z.pow_nonzero; lia.
Qed.

(** * Bitrate strings *)

Import PyStr.

Lemma append_cons c a b : String c a +:+ b = String c (a +:+ b).
Proof. reflexivity. Qed.

Lemma append_nil b : "" +:+ b = b.
Proof. reflexivity. Qed.

Lemma upper_app a b : upper (a +:+ b) = upper a +:+ upper b.
Proof.
  induction a as [|c a IH]; [reflexivity|].
  rewrite append_cons. simpl. by rewrite IH.
Qed.

Lemma rev_app_append a b acc :
  String.rev_app (a +:+ b) acc = String.rev_app b (String.rev_app a acc).
Proof.
  revert acc. induction a as [|c a IH]; intros acc; [reflexivity|].
  rewrite append_cons. simpl. apply IH.
Qed.

Lemma rev_app_rev_app a b c :
  String.rev_app (String.rev_app a b) c = String.rev_app b (a +:+ c).
Proof.
  revert b. induction a as [|x a IH]; intros b; simpl; [reflexivity|].
  by rewrite IH.
Qed.

Lemma rev_snoc a c : String.rev (a +:+ String c "") = String c (String.rev a).
Proof. unfold String.rev. by rewrite rev_app_append. Qed.

Lemma append_empty a : a +:+ "" = a.
Proof.
  induction a as [|c a IH]; [reflexivity|]. by rewrite append_cons, IH.
Qed.

Lemma rev_involutive a : String.rev (String.rev a) = a.
Proof. unfold String.rev. rewrite rev_app_rev_app. simpl. apply append_empty. Qed.

Lemma endswith_snoc a c d :
  endswith (a +:+ String c "") (String d "") = bool_decide (d = c).
Proof.
  unfold endswith. rewrite rev_snoc. unfold String.rev. simpl.
  destruct (ascii_dec d c) as [->|Hne].
  - rewrite bool_decide_eq_true_2 by done. by destruct (String.rev_app a "").
  - by rewrite bool_decide_eq_false_2.
Qed.

Lemma but_last_snoc a c : but_last (a +:+ String c "") = a.
Proof. unfold but_last. rewrite rev_snoc. apply rev_involutive. Qed.

(** How [parse_bitrate] takes a string with a suffix apart. *)
Lemma parse_bitrate_K p c :
  upper_char c = "K"%char ->
  parse_bitrate (p +:+ String c "")
  = bind (float_of_str (upper p)) (fun f =>
    bind (float_mul_int f 1000) int_of_float).
Proof.
  intros Hc. unfold parse_bitrate. rewrite upper_app. simpl. rewrite Hc.
  by rewrite endswith_snoc, but_last_snoc.
Qed.

Lemma parse_bitrate_M p c :
  upper_char c = "M"%char ->
  parse_bitrate (p +:+ String c "")
  = bind (float_of_str (upper p)) (fun f =>
    bind (float_mul_int f 1000000) int_of_float).
Proof.
  intros Hc. unfold parse_bitrate. rewrite upper_app. simpl. rewrite Hc.
  by rewrite !endswith_snoc, but_last_snoc.
Qed.

(** ** Strings of digits *)

Definition all_digits (s : string) : bool :=
  forallb is_digit (list_ascii_of_string s).

Lemma is_digit_cases c :
  is_digit c = true ->
  upper_char c = c /\ Ascii.is_space c = false /\ c <> "_"%char
  /\ c <> "-"%char /\ c <> "+"%char /\ c <> "I"%char /\ c <> "N"%char
  /\ 0 <= digit_value c <= 9.
Proof.
  destruct c as [[] [] [] [] [] [] [] []]; try discriminate;
    intros _; vm_compute; repeat split; congruence.
Qed.

Lemma upper_digits s : all_digits s = true -> upper s = s.
Proof.
  unfold all_digits. induction s as [|c s IH]; simpl; [done|].
  intros [Hc Hs]%andb_true_iff. rewrite IH by done.
  by destruct (is_digit_cases c Hc) as [-> _].
Qed.

Lemma underscores_ok_digits prev l :
  prev <> Some "_"%char ->
  forallb is_digit l = true -> underscores_ok prev l = true.
Proof.
  revert prev. induction l as [|c l IH]; intros prev Hp; simpl.
  - intros _. by rewrite bool_decide_eq_false_2.
  - intros [Hc Hl]%andb_true_iff.
    destruct (is_digit_cases c Hc) as (_ & _ & Hu & _).
    rewrite (bool_decide_eq_false_2 (c = "_"%char)) by done.
    rewrite Hc, orb_true_r. simpl. apply IH; [congruence|done].
Qed.

Lemma remove_underscores_digits l :
  forallb is_digit l = true -> remove_underscores l = l.
Proof.
  unfold remove_underscores. induction l as [|c l IH]; simpl; [done|].
  intros [Hc Hl]%andb_true_iff.
  destruct (is_digit_cases c Hc) as (_ & _ & Hu & _).
  rewrite filter_cons_True by done. by rewrite IH.
Qed.

Lemma lstrip_digits l : forallb is_digit l = true -> lstrip l = l.
Proof.
  destruct l as [|c l]; simpl; [done|].
  intros [Hc Hl]%andb_true_iff.
  by destruct (is_digit_cases c Hc) as (_ & -> & _).
Qed.

Lemma forallb_reverse {A} (f : A -> bool) l :
  forallb f l = true -> forallb f (reverse l) = true.
Proof.
  induction l as [|x l IH]; simpl; [done|].
  intros [Hx Hl]%andb_true_iff.
  rewrite reverse_cons, forallb_app, IH by done. simpl. by rewrite Hx.
Qed.

Lemma strip_digits l : forallb is_digit l = true -> strip l = l.
Proof.
  intros H. unfold strip. rewrite (lstrip_digits l H).
  rewrite lstrip_digits by (by apply forallb_reverse).
  apply reverse_involutive.
Qed.

Lemma take_sign_digits l :
  forallb is_digit l = true -> take_sign l = (false, l).
Proof.
  destruct l as [|c l]; simpl; [done|].
  intros [Hc Hl]%andb_true_iff.
  destruct c as [[] [] [] [] [] [] [] []]; try discriminate; reflexivity.
Qed.

Lemma span_digits_digits l :
  forallb is_digit l = true -> span_digits l = (l, []).
Proof.
  induction l as [|c l IH]; simpl; [done|].
  intros [Hc Hl]%andb_true_iff. by rewrite Hc, IH.
Qed.

Lemma decimal_nonneg_from l acc :
  0 <= acc ->
  0 <= fold_left (fun acc c => 10 * acc + digit_value c) l acc.
Proof.
  revert acc. induction l as [|c l IH]; intros acc Hacc; simpl; [done|].
  apply IH. unfold digit_value. destruct (Ascii.is_nat c); lia.
Qed.

Lemma decimal_nonneg l : 0 <= decimal l.
Proof. by apply decimal_nonneg_from. Qed.

Lemma scan_digits_digits prev l :
  prev <> "_"%char -> forallb is_digit l = true ->
  scan_digits prev l = Some (l, []).
Proof.
  revert prev. induction l as [|c l IH]; intros prev Hp; simpl.
  - intros _. by rewrite bool_decide_eq_false_2.
  - intros [Hc Hl]%andb_true_iff.
    destruct (is_digit_cases c Hc) as (_ & _ & Hu & _).
    rewrite (bool_decide_eq_false_2 (c = "_"%char)) by done.
    by rewrite Hc, IH.
Qed.

Lemma length_list_ascii_of_string s :
  length (list_ascii_of_string s) = String.length s.
Proof. induction s as [|c s IH]; simpl; congruence. Qed.

(** A string of digits is read as the number it writes, unless it has
    more digits than [int()] accepts. *)
Lemma int_literal_digits s :
  s <> "" -> all_digits s = true ->
  int_literal s
  = if int_max_str_digits <? Z.of_nat (String.length s)
    then IntTooLong (String.length s)
    else IntValue (decimal (list_ascii_of_string s)).
Proof.
  unfold all_digits, int_literal. intros Hne H.
  rewrite lstrip_digits, take_sign_digits by done.
  rewrite scan_digits_digits by done.
  rewrite length_list_ascii_of_string.
  destruct s as [|c s]; [done|].
  simpl in H. apply andb_true_iff in H as [Hc Hs].
  destruct (is_digit_cases c Hc) as (_ & _ & Hu & _).
  change (list_ascii_of_string (String c s))
    with (c :: list_ascii_of_string s).
  destruct c as [[] [] [] [] [] [] [] []]; try done;
    by destruct (int_max_str_digits <? _).
Qed.

Lemma float_literal_digits s :
  s <> "" -> all_digits s = true ->
  float_literal s = Some (LitNumber false (decimal (list_ascii_of_string s)) 0).
Proof.
  unfold all_digits, float_literal. intros Hne H.
  rewrite underscores_ok_digits by done. simpl.
  rewrite remove_underscores_digits, strip_digits, take_sign_digits by done.
  rewrite string_of_list_ascii_of_string, upper_digits by done.
  rewrite span_digits_digits by done.
  destruct s as [|c s]; [done|]. simpl in H.
  apply andb_true_iff in H as [Hc Hs].
  destruct (is_digit_cases c Hc) as (_ & _ & _ & _ & _ & HI & HN & _).
  rewrite !bool_decide_eq_false_2 by congruence.
  simpl. by rewrite app_nil_r.
Qed.

Lemma float_of_str_digits s :
  s <> "" -> all_digits s = true ->
  decimal (list_ascii_of_string s) < 2 ^ 53 ->
  float_of_str s = Ok (exact (decimal (list_ascii_of_string s))).
Proof.
  intros Hne H Hlt. unfold float_of_str.
  rewrite float_literal_digits by done. simpl.
  change (10 ^ 0) with 1.
  rewrite round_ratio_multiple; [done| |lia].
  split; [apply decimal_nonneg|done].
Qed.

Lemma scale_exact k mult :
  0 <= k -> 0 < mult < 2 ^ 53 -> k * mult < 2 ^ 53 ->
  bind (float_mul_int (exact k) mult) int_of_float = Ok (k * mult).
Proof.
  intros Hk Hm Hlt. unfold float_mul_int.
  rewrite float_of_int_exact by lia. simpl.
  rewrite mul_exact by lia. apply int_of_float_exact. nia.
Qed.

Lemma rev_app_digits s acc :
  all_digits s = true -> all_digits acc = true ->
  all_digits (String.rev_app s acc) = true.
Proof.
  unfold all_digits. revert acc.
  induction s as [|c s IH]; intros acc; simpl; [done|].
  intros [Hc Hs]%andb_true_iff Hacc. apply IH; [done|]. simpl.
  by rewrite Hc.
Qed.

Lemma endswith_digits s d :
  all_digits s = true -> is_digit d = false ->
  endswith s (String d "") = false.
Proof.
  intros Hs Hd. unfold endswith.
  pose proof (rev_app_digits s "" Hs eq_refl) as Hr.
  change (String.rev_app s "") with (String.rev s) in Hr.
  change (String.rev (String d "")) with (String d "").
  destruct (String.rev s) as [|c r]; [reflexivity|]. simpl.
  destruct (ascii_dec d c) as [->|]; [|reflexivity].
  unfold all_digits in Hr. simpl in Hr. by rewrite Hd in Hr.
Qed.

Lemma parse_bitrate_digits p :
  p <> "" -> all_digits p = true -> parse_bitrate p = int_of_str p.
Proof.
  intros Hne Hp. unfold parse_bitrate. rewrite upper_digits by done.
  by rewrite !endswith_digits by done.
Qed.

Lemma parse_bitrate_scaled p mult :
  p <> "" -> all_digits p = true ->
  0 < mult < 2 ^ 53 ->
  decimal (list_ascii_of_string p) * mult < 2 ^ 53 ->
  bind (float_of_str (upper p)) (fun f =>
    bind (float_mul_int f mult) int_of_float)
  = Ok (decimal (list_ascii_of_string p) * mult).
Proof.
  intros Hne Hp Hm Hlt. pose proof (decimal_nonneg (list_ascii_of_string p)).
  rewrite upper_digits, float_of_str_digits by (done || nia). simpl.
  by apply scale_exact.
Qed.

(** The specification's reading of a suffix: the decimal number written
    before it, times the multiplier, when that is an integer. *)
Definition scaled_literal (lit : literal) (multiplier : Z) : option Z :=
  match lit with
  | LitNumber negative digits exp10 =>
      let n := if negative then - digits else digits in
      if 0 <=? exp10 then Some (n * 10 ^ exp10 * multiplier)
      else if (n * multiplier) mod 10 ^ (- exp10) =? 0
           then Some (n * multiplier / 10 ^ (- exp10))
           else None
  | _ => None
  end.

Definition multiplies_prefix
    (prefix : string) (multiplier : Z) (r : result Z) : Prop :=
  exists lit v, float_literal prefix = Some lit
                /\ scaled_literal lit multiplier = Some v
                /\ r = Ok v.

(** C8, as amended.  [parse_bitrate] maps "500K" to 500000, "1M" to
    1000000, "2.5M" to 2500000 and "128000" to 128000.  A string of at
    most 4300 decimal digits is read as the integer it writes; on a
    longer one [int()] raises [ValueError], its limit being exceeded.
    With a suffix K or M, in either case, the text before the suffix is
    read by [float()], multiplied by 1000 or 1000000 in double precision
    and truncated to an integer; when that text is a string of decimal
    digits and the product is below [2^53], the result is exactly the
    product. *)
Theorem C8_parse_bitrate (p : string) :
  p <> "" -> all_digits p = true ->
  let k := decimal (list_ascii_of_string p) in
  (parse_bitrate "500K" = Ok 500000
   /\ parse_bitrate "1M" = Ok 1000000
   /\ parse_bitrate "2.5M" = Ok 2500000
   /\ parse_bitrate "128000" = Ok 128000)
  /\ ((String.length p <= 4300)%nat -> parse_bitrate p = Ok k)
  /\ ((4300 < String.length p)%nat ->
      parse_bitrate p = Raise (exceeds_int_limit (String.length p)))
  /\ (k * 1000 < 2 ^ 53 ->
      parse_bitrate (p +:+ "K") = Ok (k * 1000)
      /\ parse_bitrate (p +:+ "k") = Ok (k * 1000))
  /\ (k * 1000000 < 2 ^ 53 ->
      parse_bitrate (p +:+ "M") = Ok (k * 1000000)
      /\ parse_bitrate (p +:+ "m") = Ok (k * 1000000))
  /\ (forall q c, upper_char c = "K"%char ->
        parse_bitrate (q +:+ String c "")
        = bind (float_of_str (upper q)) (fun f =>
          bind (float_mul_int f 1000) int_of_float))
  /\ (forall q c, upper_char c = "M"%char ->
        parse_bitrate (q +:+ String c "")
        = bind (float_of_str (upper q)) (fun f =>
          bind (float_mul_int f 1000000) int_of_float)).
Proof.
  intros Hne Hp k.
  split; [by vm_compute|].
  split; [|split].
  - intros Hlen. rewrite parse_bitrate_digits by done. unfold int_of_str.
    rewrite int_literal_digits by done.
    destruct (int_max_str_digits <? _) eqn:Hlim; [|reflexivity].
    apply Z.ltb_lt in Hlim. unfold int_max_str_digits in Hlim. lia.
  - intros Hlen. rewrite parse_bitrate_digits by done. unfold int_of_str.
    rewrite int_literal_digits by done.
    destruct (int_max_str_digits <? _) eqn:Hlim; [reflexivity|].
    apply Z.ltb_ge in Hlim. unfold int_max_str_digits in Hlim. lia.
  - split; [|split; [|split; [apply parse_bitrate_K|apply parse_bitrate_M]]].
    + intros Hk. split;
        (rewrite parse_bitrate_K by done;
         apply parse_bitrate_scaled; [done|done|by vm_compute|done]).
    + intros Hk. split;
        (rewrite parse_bitrate_M by done;
         apply parse_bitrate_scaled; [done|done|by vm_compute|done]).
Qed.

(** The prefix "128", alone and with both suffixes. *)
Lemma C8_parse_bitrate_witness :
  parse_bitrate "128" = Ok 128
  /\ parse_bitrate "128k" = Ok 128000
  /\ parse_bitrate "128M" = Ok 128000000.
Proof.
  destruct (C8_parse_bitrate "128") as (_ & H1 & _ & H2 & H3 & _);
    [done|reflexivity|].
  split; [apply H1; simpl; lia|]. split.
  - apply H2. by vm_compute.
  - apply H3. by vm_compute.
Defined.

(** The claim as stated fails on a prefix with a fraction: 4.1 is not a
    double, the double nearest to it times 1000000 rounds to
    4099999.9999999995, and [int()] truncates. *)
Lemma C8_fractional_prefix_truncated :
  parse_bitrate "4.1M" = Ok 4099999
  /\ ~ multiplies_prefix "4.1" 1000000 (parse_bitrate "4.1M").
Proof.
  split; [by vm_compute|].
  intros (lit & v & H1 & H2 & H3).
  vm_compute in H1. injection H1 as <-.
  vm_compute in H2. injection H2 as <-.
  vm_compute in H3. discriminate H3.
Qed.

(** * Rounding is monotone *)

Lemma rne_spec n d :
  0 <= n -> 0 < d ->
  0 <= rne n d
  /\ 2 * rne n d * d - d <= 2 * n <= 2 * rne n d * d + d
  /\ (2 * n = 2 * rne n d * d + d -> Z.even (rne n d) = true)
  /\ (2 * n = 2 * rne n d * d - d -> Z.even (rne n d) = true).
Proof.
  intros Hn Hd. unfold rne.
  pose proof (Z.div_mod n d ltac:(lia)) as Hdm.
  pose proof (Z.mod_pos_bound n d Hd) as Hm.
  assert (0 <= n / d) as Hq by (apply Z.div_pos; lia).
  set (q := n / d) in *. set (m := n mod d) in *.
  destruct (Z.compare_spec (2 * m) d) as [Heq|Hlt|Hgt].
  - destruct (Z.even q) eqn:He.
    + repeat split; try nia. intros _. exact He.
    + repeat split; try nia. intros _.
      rewrite Z.even_add, He. reflexivity.
  - repeat split; nia.
  - repeat split; nia.
Qed.

Lemma rne_mono n d n' d' :
  0 <= n -> 0 < d -> 0 <= n' -> 0 < d' ->
  n * d' <= n' * d -> rne n d <= rne n' d'.
Proof.
  intros Hn Hd Hn' Hd' Hle.
  destruct (rne_spec n d Hn Hd) as (_ & [Hlo _] & _ & Hup).
  destruct (rne_spec n' d' Hn' Hd') as (_ & [_ Hhi] & Hdown & _).
  set (r := rne n d) in *. set (r' := rne n' d') in *.
  destruct (Z_le_gt_dec r r') as [|Hgt]; [done|exfalso].
  assert ((2 * r - 1) * (d * d') <= 2 * (n * d')) as H1 by nia.
  assert (2 * (n' * d) <= (2 * r' + 1) * (d * d')) as H2 by nia.
  assert (0 < d * d') as Hdd by nia.
  assert (2 * r - 1 <= 2 * r' + 1) as H3 by nia.
  assert (r = r' + 1) as Hr by lia.
  assert (2 * n = 2 * r * d - d) as E1 by nia.
  assert (2 * n' = 2 * r' * d' + d') as E2 by nia.
  specialize (Hup E1). specialize (Hdown E2).
  rewrite Hr, Z.even_add, Hdown in Hup. discriminate.
Qed.

Lemma ge_pow2_ratio_mono n d n' d' e :
  0 < d -> 0 < d' -> n * d' <= n' * d ->
  ge_pow2 n d e = true -> ge_pow2 n' d' e = true.
Proof.
  intros Hd Hd' Hle H.
  set (K := Z.max 0 (- e)).
  apply (ge_pow2_scaled n d e K) in H; [|lia|lia].
  apply (ge_pow2_scaled n' d' e K); [lia|lia|].
  assert (0 < 2 ^ K) by (apply Z.pow_pos_nonneg; lia).
  assert (0 < 2 ^ (e + K)) by (apply Z.pow_pos_nonneg; lia).
  assert (d * (d' * 2 ^ (e + K)) <= d * (n' * 2 ^ K)) by nia.
  nia.
Qed.

Lemma ilog2_ratio_mono n d n' d' :
  0 < n -> 0 < d -> 0 < n' -> 0 < d' -> n * d' <= n' * d ->
  ilog2_ratio n d <= ilog2_ratio n' d'.
Proof.
  intros Hn Hd Hn' Hd' Hle.
  destruct (ilog2_ratio_spec n d Hn Hd) as [H1 _].
  destruct (ilog2_ratio_spec n' d' Hn' Hd') as [_ H2].
  apply (ge_pow2_ratio_mono n d n' d') in H1; [|done..].
  destruct (Z_le_gt_dec (ilog2_ratio n d) (ilog2_ratio n' d')); [done|].
  rewrite (ge_pow2_mono n' d' (ilog2_ratio n d) (ilog2_ratio n' d' + 1)) in H2;
    [done|done|done|lia|done].
Qed.

Lemma scaled_rne_mono n d n' d' e :
  0 <= n -> 0 < d -> 0 <= n' -> 0 < d' -> n * d' <= n' * d ->
  scaled_rne n d e <= scaled_rne n' d' e.
Proof.
  intros Hn Hd Hn' Hd' Hle. unfold scaled_rne.
  destruct (Z.leb_spec 0 e).
  - assert (0 < 2 ^ e) by (apply Z.pow_pos_nonneg; lia).
    apply rne_mono; nia.
  - assert (0 < 2 ^ (- e)) by (apply Z.pow_pos_nonneg; lia).
    apply rne_mono; nia.
Qed.

Lemma scaled_rne_nonneg n d e : 0 <= n -> 0 < d -> 0 <= scaled_rne n d e.
Proof.
  intros Hn Hd. unfold scaled_rne. destruct (Z.leb_spec 0 e).
  - assert (0 < 2 ^ e) by (apply Z.pow_pos_nonneg; lia).
    apply rne_spec; nia.
  - assert (0 < 2 ^ (- e)) by (apply Z.pow_pos_nonneg; lia).
    apply rne_spec; nia.
Qed.

(** [scaled_rne n d e] compared with a power of two. *)
Lemma scaled_rne_ge n d e j :
  0 <= n -> 0 < d -> 0 <= j ->
  ge_pow2 n d (e + j) = true -> 2 ^ j <= scaled_rne n d e.
Proof.
  intros Hn Hd Hj H.
  set (K := Z.max 0 (- e)).
  apply (ge_pow2_scaled n d (e + j) K) in H; [|lia|lia].
  replace (e + j + K) with (j + (e + K)) in H by lia.
  rewrite Z.pow_add_r in H by lia.
  assert (0 < 2 ^ j) by (apply Z.pow_pos_nonneg; lia).
  assert (0 < 2 ^ K) by (apply Z.pow_pos_nonneg; lia).
  assert (0 < 2 ^ (e + K)) by (apply Z.pow_pos_nonneg; lia).
  unfold scaled_rne. destruct (Z.leb_spec 0 e) as [He|He].
  - assert (K = 0) as HK by lia. rewrite HK, Z.add_0_r in *.
    change (2 ^ 0) with 1 in H.
    rewrite <- (rne_multiple (2 ^ j) (d * 2 ^ e)) at 1 by nia.
    apply rne_mono; nia.
  - assert (K = - e) as HK by lia. rewrite HK in *.
    replace (e + - e) with 0 in H by lia. change (2 ^ 0) with 1 in H.
    rewrite <- (rne_multiple (2 ^ j) d) at 1 by nia.
    apply rne_mono; nia.
Qed.

Lemma scaled_rne_le n d e j :
  0 <= n -> 0 < d -> 0 <= j ->
  ge_pow2 n d (e + j) = false -> scaled_rne n d e <= 2 ^ j.
Proof.
  intros Hn Hd Hj H.
  set (K := Z.max 0 (- e)).
  assert (~ d * 2 ^ (e + j + K) <= n * 2 ^ K) as Hlt.
  { intros Hc. apply (ge_pow2_scaled n d (e + j) K) in Hc; [|lia|lia].
    congruence. }
  replace (e + j + K) with (j + (e + K)) in Hlt by lia.
  rewrite Z.pow_add_r in Hlt by lia.
  assert (0 < 2 ^ j) by (apply Z.pow_pos_nonneg; lia).
  assert (0 < 2 ^ K) by (apply Z.pow_pos_nonneg; lia).
  assert (0 < 2 ^ (e + K)) by (apply Z.pow_pos_nonneg; lia).
  unfold scaled_rne. destruct (Z.leb_spec 0 e) as [He|He].
  - assert (K = 0) as HK by lia. rewrite HK, Z.add_0_r in *.
    change (2 ^ 0) with 1 in Hlt.
    rewrite <- (rne_multiple (2 ^ j) (d * 2 ^ e)) by nia.
    apply rne_mono; nia.
  - assert (K = - e) as HK by lia. rewrite HK in *.
    replace (e + - e) with 0 in Hlt by lia. change (2 ^ 0) with 1 in Hlt.
    rewrite <- (rne_multiple (2 ^ j) d) by nia.
    apply rne_mono; nia.
Qed.

(** The value of a finite double, in units of [2^emin]. *)
Definition ulps (x : pyfloat) : Z :=
  match x with
  | Finite m e => m * 2 ^ (e - emin)
  | _ => 0
  end.

(** A finite double that is not negative, with an exponent in range. *)
Definition regular (x : pyfloat) : Prop :=
  match x with
  | Finite m e => 0 <= m /\ emin <= e
  | _ => False
  end.

Lemma round_pos_regular n d m e :
  0 < n -> 0 < d -> round_pos false n d = Finite m e -> 0 <= m /\ emin <= e.
Proof.
  intros Hn Hd. unfold round_pos.
  destruct (_ <=? _); [discriminate|]. intros [= <- <-].
  split; [apply scaled_rne_nonneg; lia|unfold quantum; lia].
Qed.

Lemma round_pos_mono n d n' d' m e m' e' :
  0 < n -> 0 < d -> 0 < n' -> 0 < d' -> n * d' <= n' * d ->
  round_pos false n d = Finite m e ->
  round_pos false n' d' = Finite m' e' ->
  m * 2 ^ (e - emin) <= m' * 2 ^ (e' - emin).
Proof.
  intros Hn Hd Hn' Hd' Hle. unfold round_pos.
  destruct (_ <=? _); [discriminate|].
  destruct (_ <=? _); [discriminate|].
  intros [= <- <-] [= <- <-].
  pose proof (ilog2_ratio_mono n d n' d' Hn Hd Hn' Hd' Hle) as Hlog.
  destruct (ilog2_ratio_spec n d Hn Hd) as [_ Hhi].
  destruct (ilog2_ratio_spec n' d' Hn' Hd') as [Hlo' _].
  unfold quantum in *.
  set (l := ilog2_ratio n d) in *. set (l' := ilog2_ratio n' d') in *.
  set (e := Z.max (l - 52) emin). set (e' := Z.max (l' - 52) emin).
  assert (emin <= e <= e') as [He0 He] by lia.
  destruct (Z.eq_dec e e') as [Heq|Hne].
  - rewrite <- Heq.
    assert (0 < 2 ^ (e - emin)) by (apply Z.pow_pos_nonneg; lia).
    pose proof (scaled_rne_mono n d n' d' e ltac:(lia) Hd ltac:(lia) Hd' Hle).
    nia.
  - assert (e' = l' - 52) as He' by lia.
    assert (2 ^ 52 <= scaled_rne n' d' e') as Hm'.
    { apply scaled_rne_ge; [lia|done|lia|].
      by replace (e' + 52) with l' by lia. }
    assert (scaled_rne n d e <= 2 ^ 53) as Hm.
    { apply scaled_rne_le; [lia|done|lia|].
      apply not_true_is_false. intros Hc.
      rewrite (ge_pow2_mono n d (e + 53) (l + 1)) in Hhi; [done|done|done|lia|done]. }
    pose proof (scaled_rne_nonneg n d e ltac:(lia) Hd).
    replace (e' - emin) with ((e' - e - 1) + (1 + (e - emin))) by lia.
    rewrite (Z.pow_add_r 2 (e' - e - 1)), (Z.pow_add_r 2 1) by lia.
    change (2 ^ 53) with (2 * 2 ^ 52) in Hm. change (2 ^ 1) with 2.
    assert (0 < 2 ^ (e - emin)) by (apply Z.pow_pos_nonneg; lia).
    assert (0 < 2 ^ (e' - e - 1)) by (apply Z.pow_pos_nonneg; lia).
    assert (0 < 2 ^ 52) by (by apply Z.pow_pos_nonneg).
    set (a := 2 ^ (e - emin)) in *. set (b := 2 ^ (e' - e - 1)) in *.
    set (c := 2 ^ 52) in *.
    set (x := scaled_rne n d e) in *. set (y := scaled_rne n' d' e') in *.
    assert (x * a <= 2 * c * a) by nia.
    assert (c * (b * (2 * a)) <= y * (b * (2 * a))) by nia.
    assert (2 * c * a <= c * (b * (2 * a))) by nia.
    lia.
Qed.

Lemma round_ratio_regular n d x :
  0 <= n -> 0 < d -> round_ratio n d = x -> regular x \/ x = Infinity false.
Proof.
  intros Hn Hd <-. unfold round_ratio. destruct n as [|p|p]; [|..].
  - left. simpl. unfold emin. lia.
  - destruct (round_pos false (Z.pos p) d) as [m e|[]|] eqn:Hr.
    + left. simpl. by apply (round_pos_regular (Z.pos p) d).
    + unfold round_pos in Hr. by destruct (_ <=? _).
    + by right.
    + unfold round_pos in Hr. by destruct (_ <=? _).
  - lia.
Qed.

Lemma round_ratio_mono n d n' d' x x' :
  0 <= n -> 0 < d -> 0 <= n' -> 0 < d' -> n * d' <= n' * d ->
  round_ratio n d = x -> round_ratio n' d' = x' ->
  regular x -> regular x' -> ulps x <= ulps x'.
Proof.
  intros Hn Hd Hn' Hd' Hle <- <- Hx Hx'.
  destruct n as [|p|p]; [| |lia].
  { simpl. destruct (round_ratio n' d') as [m' e'| |]; try done. simpl in *.
    assert (0 < 2 ^ (e' - emin)) by (apply Z.pow_pos_nonneg; lia). nia. }
  destruct n' as [|p'|p']; [nia| |lia].
  unfold round_ratio in *.
  destruct (round_pos false (Z.pos p) d) as [m e| |] eqn:H1; try done.
  destruct (round_pos false (Z.pos p') d') as [m' e'| |] eqn:H2; try done.
  simpl. eapply (round_pos_mono (Z.pos p) d (Z.pos p') d'); eauto; lia.
Qed.

Lemma round_dyadic_mono M E M' E' K x x' :
  0 <= M -> 0 <= M' -> 0 <= K -> 0 <= E + K -> 0 <= E' + K ->
  M * 2 ^ (E + K) <= M' * 2 ^ (E' + K) ->
  round_dyadic M E = x -> round_dyadic M' E' = x' ->
  regular x -> regular x' -> ulps x <= ulps x'.
Proof.
  intros HM HM' HK HE HE' Hle.
  assert (forall M E, 0 <= M -> 0 <= E + K ->
            exists n d, 0 <= n /\ 0 < d /\ round_dyadic M E = round_ratio n d
                        /\ n * 2 ^ K = M * 2 ^ (E + K) * d) as Hfrac.
  { clear -HK. intros M E HM HE. unfold round_dyadic.
    destruct (Z.leb_spec 0 E) as [H|H].
    - exists (M * 2 ^ E), 1.
      assert (0 < 2 ^ E) by (apply Z.pow_pos_nonneg; lia).
      rewrite Z.pow_add_r by lia. repeat split; nia.
    - exists M, (2 ^ (- E)).
      assert (0 < 2 ^ (- E)) by (apply Z.pow_pos_nonneg; lia).
      repeat split; try lia.
      rewrite <- Z.mul_assoc, <- Z.pow_add_r by lia. f_equal. f_equal. lia. }
  destruct (Hfrac M E HM HE) as (n & d & Hn & Hd & -> & Hnd).
  destruct (Hfrac M' E' HM' HE') as (n' & d' & Hn' & Hd' & -> & Hnd').
  apply round_ratio_mono; try done.
  assert (0 < 2 ^ K) by (apply Z.pow_pos_nonneg; lia).
  assert (0 < d * d') as Hdd by nia.
  assert (n * 2 ^ K * d' <= n' * 2 ^ K * d) as Hs.
  { rewrite Hnd, Hnd'.
    replace (M * 2 ^ (E + K) * d * d') with (M * 2 ^ (E + K) * (d * d')) by ring.
    replace (M' * 2 ^ (E' + K) * d' * d) with (M' * 2 ^ (E' + K) * (d * d')) by ring.
    apply Z.mul_le_mono_nonneg_r; lia. }
  nia.
Qed.

Lemma round_dyadic_regular M E x :
  0 <= M -> round_dyadic M E = x -> regular x \/ x = Infinity false.
Proof.
  intros HM. unfold round_dyadic. destruct (0 <=? E) eqn:HE.
  - apply round_ratio_regular; [|lia].
    apply Z.leb_le in HE.
    assert (0 < 2 ^ E) by (apply Z.pow_pos_nonneg; lia). nia.
  - apply round_ratio_regular; [done|].
    apply Z.leb_gt in HE. apply Z.pow_pos_nonneg; lia.
Qed.

Lemma trunc_ulps m e :
  0 <= m -> emin <= e -> trunc m e = m * 2 ^ (e - emin) / 2 ^ 1074.
Proof.
  intros Hm He. unfold trunc, emin in *. destruct (Z.leb_spec 0 e) as [H|H].
  - replace (e - -1074) with (e + 1074) by lia.
    rewrite Z.pow_add_r, Z.mul_assoc, Z.div_mul by lia. reflexivity.
  - rewrite Z.quot_div_nonneg by (try apply Z.pow_pos_nonneg; lia).
    assert (2 ^ 1074 = 2 ^ (- e) * 2 ^ (e - -1074)) as ->
      by (rewrite <- Z.pow_add_r by lia; f_equal; lia).
    rewrite Z.div_mul_cancel_r; [reflexivity|apply Z.pow_nonzero; lia..].
Qed.

(** ** The progress value *)

(** On a positive estimate the value emitted after a frame does not
    decrease from one frame to a later one, and lies between 0 and 100. *)
Lemma progress_value_mono total n n' p p' :
  0 < total -> 0 <= n <= n' ->
  progress_value n total = Ok p -> progress_value n' total = Ok p' ->
  0 <= p <= p' /\ p' <= 100.
Proof.
  intros HT [Hn Hle]. unfold progress_value, int_truediv.
  destruct (Z.eqb_spec total 0) as [|_]; [lia|].
  destruct (Z.ltb_spec 0 total) as [_|]; [|lia].
  destruct (round_ratio n total) as [m e| |] eqn:Hq; try discriminate.
  destruct (round_ratio n' total) as [m' e'| |] eqn:Hq'; try discriminate.
  cbn [bind]. unfold float_mul_int.
  rewrite (float_of_int_exact 100) by (by vm_compute).
  change (exact 100) with (Finite (100 * 2 ^ 46) (-46)). cbn [bind].
  destruct (round_ratio_regular n total _ Hn HT Hq) as [[Hm He]|]; [|done].
  destruct (round_ratio_regular n' total _ ltac:(lia) HT Hq')
    as [[Hm' He']|]; [|done].
  pose proof (round_ratio_mono n total n' total _ _ Hn HT ltac:(lia) HT
                ltac:(nia) Hq Hq' (conj Hm He) (conj Hm' He')) as Hqq.
  simpl in Hqq.
  unfold mul.
  assert (0 < 100 * 2 ^ 46) as Hc by (by vm_compute).
  set (c := 100 * 2 ^ 46) in *.
  assert (0 <= m * c) as Hmc by nia.
  assert (0 <= m' * c) as Hmc' by nia.
  destruct (round_dyadic (m * c) (e + -46)) as [a ea| |] eqn:Hx;
    try discriminate.
  destruct (round_dyadic (m' * c) (e' + -46)) as [a' ea'| |] eqn:Hx';
    try discriminate.
  cbn [bind int_of_float]. intros [= <-] [= <-].
  destruct (round_dyadic_regular _ _ _ Hmc Hx) as [[Ha Hea]|]; [|done].
  destruct (round_dyadic_regular _ _ _ Hmc' Hx') as [[Ha' Hea']|]; [|done].
  assert (0 < 2 ^ (e - emin)) by (apply Z.pow_pos_nonneg; lia).
  assert (0 < 2 ^ (e' - emin)) by (apply Z.pow_pos_nonneg; lia).
  assert (ulps (Finite a ea) <= ulps (Finite a' ea')) as Hmono.
  { apply (round_dyadic_mono (m * c) (e + -46) (m' * c) (e' + -46)
             (46 - emin)); try done; try (unfold emin in *; lia).
    replace (e + -46 + (46 - emin)) with (e - emin) by lia.
    replace (e' + -46 + (46 - emin)) with (e' - emin) by lia.
    nia. }
  simpl in Hmono.
  rewrite !trunc_ulps by done.
  assert (0 <= a * 2 ^ (ea - emin) / 2 ^ 1074).
  { apply Z.div_pos; [|done].
    assert (0 < 2 ^ (ea - emin)) by (apply Z.pow_pos_nonneg; lia). nia. }
  assert (a * 2 ^ (ea - emin) / 2 ^ 1074 <= a' * 2 ^ (ea' - emin) / 2 ^ 1074)
    by (by apply Z.div_le_mono).
  lia.
Qed.

(** * The progress values of a run *)

(** Neither a progress value nor a terminal event. *)
Definition unprogressive (e : event) : bool :=
  match e with Progress _ | Finished _ _ => false | _ => true end.

(** [ps] are the values the video loop computes for the frames
    [base + 1], [base + 2], ... *)
Definition per_frame (total base : Z) (ps : list Z) : Prop :=
  forall i p, ps !! i = Some p ->
              progress_value (base + Z.of_nat (S i)) total = Ok p.

Lemma progress_values_app tr1 tr2 :
  progress_values (tr1 ++ tr2) = progress_values tr1 ++ progress_values tr2.
Proof. apply omap_app. Qed.

Lemma progress_values_unprogressive tr :
  Forall (fun e => unprogressive e = true) tr -> progress_values tr = [].
Proof. induction 1 as [|e tr He _ IH]; [reflexivity|]. by destruct e. Qed.

Lemma terminal_events_unprogressive tr :
  Forall (fun e => unprogressive e = true) tr -> terminal_events tr = [].
Proof. induction 1 as [|e tr He _ IH]; [reflexivity|]. by destruct e. Qed.

Lemma per_frame_snoc total ps p :
  per_frame total 0 ps ->
  progress_value (Z.of_nat (length ps) + 1) total = Ok p ->
  per_frame total 0 (ps ++ [p]).
Proof.
  intros Hps Hp i q Hi.
  destruct (decide (i < length ps)%nat) as [Hlt|Hge].
  - rewrite lookup_app_l in Hi by done. by apply Hps.
  - rewrite lookup_app_r in Hi by lia.
    destruct (i - length ps)%nat as [|k] eqn:Hk; simpl in Hi; [|by destruct k].
    injection Hi as <-. rewrite <- Hp. f_equal. lia.
Qed.

Section Progress.

Variable settings : CompressionSettings.
Variable w : World.
Variable total : Z.
Variable tr0 : list event.

(** The state of the run seen from the trace [tr0] the video loop started
    with: what was emitted since, split into the events of the loop and
    the events after it. *)
Definition finished_with
    (final : list Z) (term : list (bool * string)) (st : RunState) : Prop :=
  exists evs rest,
    trace st = (tr0 ++ evs) ++ rest
    /\ terminal_events evs = []
    /\ per_frame total 0 (progress_values evs)
    /\ progress_values rest = final
    /\ terminal_events rest = term.

(** The state at the head of the video loop. *)
Definition at_head (st : RunState) : Prop :=
  exists evs,
    trace st = tr0 ++ evs
    /\ terminal_events evs = []
    /\ per_frame total 0 (progress_values evs)
    /\ processed_frames st = Z.of_nat (length (progress_values evs)).

Definition during (st : RunState) : Prop :=
  exists evs,
    trace st = tr0 ++ evs
    /\ terminal_events evs = []
    /\ per_frame total 0 (progress_values evs).

Lemma at_head_during st : at_head st -> during st.
Proof. intros (evs & H1 & H2 & H3 & _). by exists evs. Qed.

Lemma at_head_advance st st' :
  at_head st -> advance unprogressive st st' -> at_head st'.
Proof.
  intros (evs & H1 & H2 & H3 & H4) (evs' & -> & Hevs'). st_simpl.
  exists (evs ++ evs').
  rewrite H1, <- app_assoc, terminal_events_app, progress_values_app.
  rewrite (terminal_events_unprogressive evs'),
    (progress_values_unprogressive evs'), !app_nil_r by done.
  by rewrite H2.
Qed.

Lemma during_advance st st' :
  during st -> advance unprogressive st st' -> during st'.
Proof.
  intros (evs & H1 & H2 & H3) (evs' & -> & Hevs'). st_simpl.
  exists (evs ++ evs').
  rewrite H1, <- app_assoc, terminal_events_app, progress_values_app.
  rewrite (terminal_events_unprogressive evs'),
    (progress_values_unprogressive evs'), !app_nil_r by done.
  by rewrite H2.
Qed.

Lemma at_head_step st st' p tail :
  at_head st ->
  progress_value (processed_frames st + 1) total = Ok p ->
  trace st' = trace st ++ Progress p :: tail ->
  Forall (fun e => unprogressive e = true) tail ->
  processed_frames st' = processed_frames st + 1 ->
  at_head st'.
Proof.
  intros (evs & H1 & H2 & H3 & H4) Hp Ht Htail Hn.
  exists (evs ++ Progress p :: tail).
  rewrite Ht, H1, <- app_assoc. split; [reflexivity|].
  rewrite terminal_events_app, progress_values_app. simpl.
  rewrite (terminal_events_unprogressive tail),
    (progress_values_unprogressive tail), H2 by done.
  split; [reflexivity|]. split.
  - apply per_frame_snoc; [done|]. by rewrite <- H4.
  - rewrite Hn, H4, length_app. simpl. lia.
Qed.

Lemma wp_video_loop_progress frames st :
  at_head st ->
  wp (video_loop settings w total frames)
     (fun _ st' => during st') (fun _ st' => during st') st.
Proof.
  revert st. induction frames as [|f rest IH]; intros st H; simpl.
  { wp_go; by apply at_head_during. }
  do 4 wp_step.
  assert (at_head (with_trace
            ((trace st ++ [DecodeVideo f])
               ++ [ReadFlag (flag_at w (length (trace st ++ [DecodeVideo f])))])
            (with_trace (trace st ++ [DecodeVideo f]) st))) as H1.
  { apply (at_head_advance st); [done|]. advance_now. }
  wp_step; [wp_go; by apply at_head_during|]. wp_step.
  eapply emits_wp;
    [apply emits_maybe_resize with (P := unprogressive); done| |];
    intros ? st1 Hadv; pose proof (at_head_advance _ _ H1 Hadv) as H2;
    [|by apply at_head_during].
  wp_step.
  eapply emits_wp;
    [apply emits_encode_and_mux with (P := unprogressive); done| |];
    intros ? st2 Hadv2; pose proof (at_head_advance _ _ H2 Hadv2) as H3;
    [|by apply at_head_during].
  do 4 wp_step.
  destruct (progress_value (processed_frames st2 + 1) total) as [p|e] eqn:Hp.
  2: { wp_go. destruct H3 as (evs & ? & ? & ? & _). by exists evs. }
  wp_go; apply IH; st_simpl.
  - eapply (at_head_step st2 _ p [Status _]); st_simpl;
      [done|done|by rewrite <- app_assoc|by repeat constructor|done].
  - apply (at_head_step st2 _ p []); st_simpl;
      [done|done|done|done|done].
Qed.

Lemma finished_tail final term st st' tail :
  finished_with final term st ->
  trace st' = trace st ++ tail ->
  finished_with (final ++ progress_values tail)
    (term ++ terminal_events tail) st'.
Proof.
  intros (evs & rest & H1 & H2 & H3 & H4 & H5) Ht.
  exists evs, (rest ++ tail).
  rewrite Ht, H1, <- (app_assoc (tr0 ++ evs)).
  rewrite progress_values_app, terminal_events_app, H4, H5. done.
Qed.

Lemma finished_advance st st' :
  finished_with [] [] st -> advance unprogressive st st' ->
  finished_with [] [] st'.
Proof.
  intros H (evs & -> & Hevs).
  pose proof (finished_tail [] [] st (with_trace (trace st ++ evs) st) evs H
                eq_refl) as H'.
  by rewrite (progress_values_unprogressive evs),
    (terminal_events_unprogressive evs) in H'.
Qed.

Lemma during_finished st : during st -> finished_with [] [] st.
Proof.
  intros (evs & H1 & H2 & H3). exists evs, [].
  by rewrite app_nil_r.
Qed.

Lemma wp_encode_and_finish_progress st :
  trace st = tr0 ->
  wp (encode_and_finish settings w total)
     (fun _ st' =>
        finished_with [] [(false, cancelled_message)] st'
        \/ finished_with [100] [(true, success_message)] st')
     (fun _ st' => finished_with [] [] st') st.
Proof.
  intros Ht. unfold encode_and_finish, process_video. do 3 wp_step.
  eapply wp_mono; [apply wp_video_loop_progress| |]; st_simpl.
  { exists []. rewrite app_nil_r. by repeat split. }
  2: { intros ? st1 H1. by apply during_finished. }
  intros ? st1 H1%during_finished. wp_step.
  eapply emits_wp; [apply emits_process_audio| |]; intros ? st2 Hadv2;
    assert (finished_with [] [] st2) as H2
      by (apply (finished_advance st1); [done|];
          eapply advance_weaken; [|exact Hadv2]; event_cases);
    [|exact H2].
  wp_step.
  eapply emits_wp; [apply emits_flush_encoders| |]; intros ? st3 Hadv3;
    assert (finished_with [] [] st3) as H3
      by (apply (finished_advance st2); [done|];
          eapply advance_weaken; [|exact Hadv3]; event_cases);
    [|exact H3].
  unfold close_containers, report. wp_go.
  - exact H3.
  - apply (finished_tail [] [] st3 _ [CloseInput]); [done|done].
  - left.
    apply (finished_tail [] [] st3 _
             [CloseInput; CloseOutput; ReadFlag true;
              Finished false cancelled_message]); [done|].
    st_simpl. by rewrite <- !app_assoc.
  - right.
    apply (finished_tail [] [] st3 _
             [CloseInput; CloseOutput; ReadFlag false;
              Status success_message; Progress 100;
              Finished true success_message]); [done|].
    st_simpl. by rewrite <- !app_assoc.
Qed.

End Progress.

Lemma setup_unprogressive tr :
  Forall (fun e => setup_event e = true) tr ->
  Forall (fun e => unprogressive e = true) tr.
Proof. intros H. eapply Forall_impl; [exact H|]. event_cases. Qed.

(** The progress values of a run: the values of the video loop, one for
    each frame it got through, and the final 100 of a successful run. *)
Lemma run_progress (s : CompressionSettings) (w : World) :
  exists ps final,
    progress_values (trace (run s w)) = ps ++ final
    /\ (forall i p, ps !! i = Some p ->
          exists vs total,
            w_video w = Some vs
            /\ estimate_total_frames vs = Ok total
            /\ progress_value (Z.of_nat (S i)) total = Ok p)
    /\ (final = [100]
        /\ terminal_events (trace (run s w)) = [(true, success_message)]
        \/ final = []
           /\ exists m, terminal_events (trace (run s w)) = [(false, m)]).
Proof.
  set (known (ps : list Z) :=
         forall i p, ps !! i = Some p ->
           exists vs total,
             w_video w = Some vs
             /\ estimate_total_frames vs = Ok total
             /\ progress_value (Z.of_nat (S i)) total = Ok p).
  assert (wp (run_body s w)
            (fun _ st' => exists ps final,
               progress_values (trace st') = ps ++ final /\ known ps
               /\ (final = [100]
                   /\ terminal_events (trace st') = [(true, success_message)]
                   \/ final = []
                      /\ terminal_events (trace st')
                         = [(false, cancelled_message)]))
            (fun _ st' => exists ps,
               progress_values (trace st') = ps /\ known ps
               /\ terminal_events (trace st') = [])
            initial_state) as H.
  { apply wp_run_body.
    - intros e st Hs%setup_unprogressive. exists [].
      rewrite progress_values_unprogressive, terminal_events_unprogressive
        by done.
      repeat split. intros i p Hi. by rewrite lookup_nil in Hi.
    - intros vs T st Hs%setup_unprogressive Hvs HT.
      pose proof (progress_values_unprogressive _ Hs) as Hp0.
      pose proof (terminal_events_unprogressive _ Hs) as Ht0.
      assert (forall final term st',
                finished_with T (trace st) final term st' ->
                exists ps, progress_values (trace st') = ps ++ final
                           /\ known ps
                           /\ terminal_events (trace st') = term) as Hfin.
      { intros final term st' (evs & rest & H1 & H2 & H3 & H4 & H5).
        exists (progress_values evs).
        rewrite H1, !progress_values_app, !terminal_events_app.
        rewrite Hp0, Ht0, H2, H4, H5. repeat split.
        intros i p Hi. exists vs, T. repeat split; try done.
        specialize (H3 i p Hi). by rewrite Z.add_0_l in H3. }
      eapply wp_mono; [by apply wp_encode_and_finish_progress| |].
      + intros ? st' [Hf|Hf]; destruct (Hfin _ _ _ Hf) as (ps & ? & ? & ?).
        * exists ps, []. repeat split; try done. by right.
        * exists ps, [100]. repeat split; try done. by left.
      + intros ? st' Hf. destruct (Hfin _ _ _ Hf) as (ps & Hps & ? & ?).
        exists ps. by rewrite app_nil_r in Hps. }
  rewrite run_of_body. unfold wp in H.
  destruct (run_body s w initial_state) as [[[]|e] st]; st_simpl.
  - destruct H as (ps & final & H1 & H2 & H3). exists ps, final.
    rewrite progress_values_app, terminal_events_app. simpl.
    rewrite app_nil_r, H1. split; [done|]. split; [done|].
    destruct H3 as [[-> ->]|[-> ->]]; [by left|right].
    split; [done|]. by eexists.
  - destruct H as (ps & H1 & H2 & H3). exists ps, [].
    rewrite progress_values_app, terminal_events_app. simpl.
    rewrite !app_nil_r, H1, H3. split; [done|]. split; [done|].
    right. split; [done|]. by eexists.
Qed.

Lemma progress_value_zero_total n :
  progress_value n 0 = Raise (ZeroDivisionError "division by zero").
Proof. reflexivity. Qed.

(** The specification's formula for the value after a frame. *)
Definition floor_progress (processed total : Z) : Z :=
  Z.min 100 (processed * 100 / total).

(** C4, as amended.  When the frame-count estimate of the input is not
    negative, the progress values of a run do not decrease and lie
    between 0 and 100.  They are the values the video loop computes, one
    for each frame it got through: the value after frame [i + 1] is
    [min(100, int((processed / total) * 100))], the quotient and the
    product being taken in double precision and the result truncated;
    followed, in a successful run and only there, by a final 100. *)
Theorem C4_progress_monotone (s : CompressionSettings) (w : World) :
  let tr := trace (run s w) in
  let ps := progress_values tr in
  (forall vs total,
      w_video w = Some vs -> estimate_total_frames vs = Ok total ->
      0 <= total) ->
  (forall i j p q, (i <= j)%nat -> ps !! i = Some p -> ps !! j = Some q ->
                   p <= q)
  /\ Forall (fun p => 0 <= p <= 100) ps
  /\ (exists per_frame final,
        ps = per_frame ++ final
        /\ (forall i p, per_frame !! i = Some p ->
              exists vs total,
                w_video w = Some vs
                /\ estimate_total_frames vs = Ok total
                /\ progress_value (Z.of_nat (S i)) total = Ok p)
        /\ (final = [100] /\ terminal_events tr = [(true, success_message)]
            \/ final = [] /\ exists m, terminal_events tr = [(false, m)]))
  /\ (terminal_events tr = [(true, success_message)] -> last ps = Some 100).
Proof.
  intros tr ps Hest. subst tr ps.
  destruct (run_progress s w) as (pf & final & Hps & Hpf & Hfinal).
  rewrite Hps.
  assert (forall i j p q, (i <= j)%nat -> pf !! i = Some p -> pf !! j = Some q ->
                          0 <= p <= q /\ q <= 100) as Hmono.
  { intros i j p q Hij Hi Hj.
    destruct (Hpf i p Hi) as (vs & T & Hvs & HT & Hp).
    destruct (Hpf j q Hj) as (vs' & T' & Hvs' & HT' & Hq).
    assert (vs' = vs) as -> by congruence.
    assert (T' = T) as -> by congruence.
    pose proof (Hest vs T Hvs HT) as H0.
    destruct (Z.eq_dec T 0) as [->|Hne];
      [by rewrite progress_value_zero_total in Hp|].
    apply (progress_value_mono T (Z.of_nat (S i)) (Z.of_nat (S j)));
      [lia|lia|done|done]. }
  assert (Forall (fun p => 0 <= p <= 100) pf) as Hrange.
  { apply Forall_lookup. intros i p Hi.
    destruct (Hmono i i p p ltac:(lia) Hi Hi). lia. }
  assert (Forall (fun p => 0 <= p <= 100) final /\ Forall (fun q => q = 100) final)
    as [Hrf Hf100].
  { destruct Hfinal as [[-> _]|[-> _]]; split; by repeat constructor. }
  split; [|split; [by apply Forall_app|split]].
  - intros i j p q Hij Hi Hj.
    destruct (decide (j < length pf)%nat) as [Hlt|Hge].
    + rewrite lookup_app_l in Hi, Hj by lia.
      by destruct (Hmono i j p q Hij Hi Hj) as [[_ ?] _].
    + rewrite (lookup_app_r pf final j) in Hj by lia.
      rewrite Forall_lookup in Hf100. rewrite (Hf100 _ _ Hj).
      assert (Forall (fun p => 0 <= p <= 100) (pf ++ final)) as Hall
        by (by apply Forall_app).
      rewrite Forall_lookup in Hall. specialize (Hall _ _ Hi). lia.
  - by exists pf, final.
  - intros Hs. destruct Hfinal as [[-> _]|[_ [m Hm]]].
    + by rewrite last_snoc.
    + congruence.
Qed.

(** The healthy input declares three frames. *)
Lemma C4_progress_monotone_witness :
  progress_values (trace (run default_settings Examples.healthy))
  = [33; 66; 100; 100]
  /\ Forall (fun p => 0 <= p <= 100)
        (progress_values (trace (run default_settings Examples.healthy))).
Proof.
  split; [reflexivity|].
  apply (C4_progress_monotone default_settings Examples.healthy).
  intros vs total [= <-] [= <-]. done.
Defined.

(** The claim as stated fails on an input that declares 100 frames:
    29/100 rounds to a double below 0.29, the product with 100 to
    28.999999999999996, and [int()] truncates, so the value after the
    29th frame is 28 where the formula of the specification gives 29. *)
Lemma C4_progress_below_floor :
  progress_values (trace (run default_settings Examples.long)) !! 28%nat
  = Some 28
  /\ floor_progress 29 100 = 29.
Proof. split; reflexivity. Qed.

(** * The frames a run hands to the encoder *)

(** The frame the video loop encodes for a decoded frame: the frame
    itself, or the frame reformatted to the target resolution. *)
Definition output_frame (s : CompressionSettings) (f : Frame) : Frame :=
  if bool_decide (resolution s ≠ "original")
  then {| fr_index := fr_index f;
          fr_width := (get_resolution_dimensions (resolution s)).1;
          fr_height := (get_resolution_dimensions (resolution s)).2 |}
  else f.

(** Neither a frame handed to the video encoder nor a progress value. *)
Definition idle (e : event) : bool :=
  match e with EncodeVideo _ | Progress _ => false | _ => true end.

Lemma submitted_idle tr :
  Forall (fun e => idle e = true) tr -> submitted tr = [].
Proof. induction 1 as [|e tr He _ IH]; [reflexivity|]. by destruct e. Qed.

Lemma progress_values_idle tr :
  Forall (fun e => idle e = true) tr -> progress_values tr = [].
Proof. induction 1 as [|e tr He _ IH]; [reflexivity|]. by destruct e. Qed.

Section Submitted.

Variable settings : CompressionSettings.
Variable w : World.
Variable total : Z.
Variable tr0 : list event.

(** Since [tr0], the frames [done] have been handed to the encoder. *)
Definition sent (done : list Frame) (st : RunState) : Prop :=
  exists evs,
    trace st = tr0 ++ evs
    /\ submitted evs = map (output_frame settings) done.

(** The same at the head of the video loop: each of them has had its
    progress value. *)
Definition sent_head (done : list Frame) (st : RunState) : Prop :=
  exists evs,
    trace st = tr0 ++ evs
    /\ submitted evs = map (output_frame settings) done
    /\ length (progress_values evs) = length done.

Lemma sent_head_sent done st : sent_head done st -> sent done st.
Proof. intros (evs & ? & ? & _). by exists evs. Qed.

Lemma sent_grow done st st' tail :
  sent done st -> trace st' = trace st ++ tail ->
  Forall (fun e => is_submit e = false) tail -> sent done st'.
Proof.
  intros (evs & H1 & H2) Ht Htail. exists (evs ++ tail).
  rewrite Ht, H1, <- app_assoc, submitted_app, (submitted_nil tail Htail).
  by rewrite app_nil_r.
Qed.

Lemma sent_head_advance done st st' :
  sent_head done st -> advance idle st st' -> sent_head done st'.
Proof.
  intros (evs & H1 & H2 & H3) (tail & -> & Htail). st_simpl.
  exists (evs ++ tail).
  rewrite H1, <- app_assoc, submitted_app, progress_values_app.
  rewrite (submitted_idle tail), (progress_values_idle tail) by done.
  by rewrite !app_nil_r.
Qed.

Lemma wp_maybe_resize frame st :
  wp (if bool_decide (resolution settings ≠ "original")
      then resize_frame settings w frame else ret frame)
     (fun f st' => f = output_frame settings frame /\ advance idle st st')
     (fun _ st' => st' = st) st.
Proof.
  unfold output_frame, resize_frame.
  destruct (bool_decide _); [|wp_go; split; [done|apply advance_refl]].
  destruct (get_resolution_dimensions (resolution settings)) as [wd ht].
  wp_go; [done|]. split; [done|]. advance_now.
Qed.

Lemma wp_video_loop_sent done frames st :
  sent_head done st ->
  wp (video_loop settings w total frames)
     (fun _ st' =>
        exists done',
          sent_head done' st'
          /\ (done' = done ++ frames
              \/ flag_at w (length (trace st')) = true
                 /\ done' `prefix_of` done ++ frames))
     (fun _ st' =>
        exists done', sent done' st' /\ done' `prefix_of` done ++ frames) st.
Proof.
  revert done st. induction frames as [|f rest IH]; intros done st H; simpl.
  { wp_go.
    - exists done. split; [by apply sent_head_sent|].
      rewrite app_nil_r. reflexivity.
    - exists done. split; [done|]. left. by rewrite app_nil_r. }
  do 4 wp_step.
  assert (sent_head done (with_trace
            ((trace st ++ [DecodeVideo f])
               ++ [ReadFlag (flag_at w (length (trace st ++ [DecodeVideo f])))])
            (with_trace (trace st ++ [DecodeVideo f]) st))) as H1.
  { apply (sent_head_advance done st); [done|]. advance_now. }
  wp_step.
  { wp_go. exists done. split; [done|]. right. split.
    - st_simpl. by apply flag_at_snoc.
    - by apply prefix_app_r. }
  wp_step.
  eapply wp_mono; [apply wp_maybe_resize| |]; st_simpl.
  2: { intros ? st1 ->. exists done. split; [by apply sent_head_sent|].
       by apply prefix_app_r. }
  intros f' st1 [-> Hadv]. pose proof (sent_head_advance _ _ _ H1 Hadv) as H2.
  wp_step.
  assert (done ++ [f] `prefix_of` done ++ f :: rest) as Hpre.
  { exists rest. by rewrite <- app_assoc. }
  destruct H2 as (evs & Ht & Hs & Hn).
  unfold wp at 1.
  match goal with |- context [encode_and_mux ?ph ?c ?r ?s0] =>
    destruct (encode_and_mux_exact ph c r s0) as (muxes & Hst2 & Hmux);
    destruct (encode_and_mux ph c r s0) as [[[]|e] st2]
  end; simpl in Hst2; subst st2.
  2: { exists (done ++ [f]). split; [|done].
       exists (evs ++ EncodeVideo (output_frame settings f) :: muxes).
       st_simpl. rewrite Ht, <- app_assoc. split; [done|].
       rewrite submitted_app, Hs, map_app. simpl.
       by rewrite (submitted_muxes _ _ Hmux). }
  pose proof (submitted_muxes _ _ Hmux) as Hsm.
  assert (forall st3 tail p,
    trace st3 = (trace st1 ++ EncodeVideo (output_frame settings f) :: muxes)
                  ++ Progress p :: tail ->
    Forall (fun e => idle e = true) tail ->
    sent_head (done ++ [f]) st3) as Hnext.
  { intros st3 tail p Ht3 Htail.
    set (it := EncodeVideo (output_frame settings f) :: muxes
                 ++ Progress p :: tail).
    assert (progress_values muxes = []) as Hpm.
    { apply progress_values_idle. eapply Forall_impl; [exact Hmux|].
      by intros ? [p' ->]. }
    assert (submitted it = [output_frame settings f]) as Hsit.
    { unfold it. change (submitted (EncodeVideo ?x :: ?l))
        with (x :: submitted l).
      rewrite submitted_app, Hsm.
      change (submitted (Progress p :: tail)) with (submitted tail).
      by rewrite (submitted_idle tail). }
    assert (progress_values it = [p]) as Hpit.
    { unfold it. change (progress_values (EncodeVideo ?x :: ?l))
        with (progress_values l).
      rewrite progress_values_app, Hpm.
      change (progress_values (Progress p :: tail))
        with (p :: progress_values tail).
      by rewrite (progress_values_idle tail). }
    exists (evs ++ it).
    rewrite Ht3, Ht. split; [unfold it; by rewrite <- !app_assoc|].
    rewrite submitted_app, progress_values_app, Hsit, Hpit, Hs, map_app.
    split; [done|]. rewrite !length_app, Hn. done. }
  do 4 wp_step.
  destruct (progress_value _ total) as [p|e] eqn:Hp.
  2: { wp_go. exists (done ++ [f]). split; [|done].
       exists (evs ++ EncodeVideo (output_frame settings f) :: muxes).
       st_simpl. rewrite Ht, <- app_assoc. split; [done|].
       rewrite submitted_app, Hs, map_app. simpl. by rewrite Hsm. }
  wp_go;
    (eapply wp_mono; [eapply (IH (done ++ [f]))| |];
     [|intros ? st' (done' & ? & Hd); exists done';
       rewrite <- app_assoc in Hd; by split
      |intros ? st' (done' & ? & Hd); exists done';
       rewrite <- app_assoc in Hd; by split]).
  - eapply (Hnext _ [Status _]); st_simpl;
      [by rewrite <- !app_assoc|by repeat constructor].
  - eapply (Hnext _ []); st_simpl; [done|done].
Qed.

Lemma advance_flag (P : event -> bool) st st' :
  advance P st st' -> flag_at w (length (trace st)) = true ->
  flag_at w (length (trace st')) = true.
Proof.
  intros (evs & -> & _). st_simpl. apply flag_at_mono.
  rewrite length_app. lia.
Qed.

Lemma sent_advance (P : event -> bool) done st st' :
  (forall e, P e = true -> is_submit e = false) ->
  sent done st -> advance P st st' -> sent done st'.
Proof.
  intros HP H (evs & -> & Hevs).
  apply (sent_grow done st _ evs); [done|done|].
  eapply Forall_impl; [exact Hevs|done].
Qed.

(** What [encode_and_finish] has handed to the encoder when it returns:
    every frame, unless the run ends cancelled. *)
Definition all_sent (st' : RunState) : Prop :=
  exists done evs,
    trace st' = tr0 ++ evs
    /\ submitted evs = map (output_frame settings) done
    /\ done `prefix_of` w_video_frames w
    /\ (done = w_video_frames w
        /\ length (progress_values evs) = S (length (w_video_frames w))
        \/ exists evs0, evs = evs0 ++ [Finished false cancelled_message]).

Definition some_sent (st' : RunState) : Prop :=
  exists done, sent done st' /\ done `prefix_of` w_video_frames w.

Lemma wp_encode_and_finish_sent st :
  trace st = tr0 ->
  wp (encode_and_finish settings w total)
     (fun _ st' => all_sent st') (fun _ st' => some_sent st') st.
Proof.
  intros Ht. unfold encode_and_finish, process_video. do 3 wp_step.
  eapply wp_mono; [apply (wp_video_loop_sent [])| |]; st_simpl.
  { exists []. rewrite app_nil_r. by repeat split. }
  2: { intros ? st1 H1. exact H1. }
  intros ? st1 (done & H1 & Hd). simpl in Hd. wp_step.
  eapply emits_wp; [apply emits_process_audio| |]; intros ? st2 Hadv2.
  2: { exists done. split; [|by destruct Hd as [->|[_ ?]]].
       apply (sent_advance audio_event done st1);
         [event_cases|by apply sent_head_sent|done]. }
  assert (sent_head done st2) as H2.
  { apply (sent_head_advance done st1); [done|].
    eapply advance_weaken; [|exact Hadv2]. event_cases. }
  wp_step.
  eapply emits_wp; [apply emits_flush_encoders| |]; intros ? st3 Hadv3.
  2: { exists done. split; [|by destruct Hd as [->|[_ ?]]].
       apply (sent_advance flush_event done st2);
         [event_cases|by apply sent_head_sent|done]. }
  assert (sent_head done st3) as H3.
  { apply (sent_head_advance done st2); [done|].
    eapply advance_weaken; [|exact Hadv3]. event_cases. }
  assert (done `prefix_of` w_video_frames w) as Hpre
    by (by destruct Hd as [->|[_ ?]]).
  destruct H3 as (evs & Ht3 & Hs3 & Hn3).
  unfold close_containers, report. wp_go.
  - exists done. split; [by exists evs|done].
  - exists done. split; [|done]. exists (evs ++ [CloseInput]). st_simpl.
    rewrite Ht3, <- app_assoc, submitted_app, Hs3. simpl.
    by rewrite app_nil_r.
  - exists done, (evs ++ [CloseInput; CloseOutput; ReadFlag true;
                          Finished false cancelled_message]).
    st_simpl. rewrite Ht3, <- !app_assoc. split; [done|].
    rewrite submitted_app, Hs3. simpl. rewrite app_nil_r.
    split; [done|]. split; [done|]. right.
    exists (evs ++ [CloseInput; CloseOutput; ReadFlag true]).
    by rewrite <- !app_assoc.
  - exists done, (evs ++ [CloseInput; CloseOutput; ReadFlag false;
                          Status success_message; Progress 100;
                          Finished true success_message]).
    st_simpl. rewrite Ht3, <- !app_assoc. split; [done|].
    rewrite submitted_app, Hs3. simpl. rewrite app_nil_r.
    split; [done|]. split; [done|]. left.
    destruct Hd as [->|[Hflag _]].
    + split; [done|]. rewrite progress_values_app, length_app, Hn3.
      simpl. lia.
    + exfalso.
      apply (advance_flag _ _ _ Hadv2) in Hflag.
      apply (advance_flag _ _ _ Hadv3) in Hflag.
      apply (flag_at_snoc w _ CloseInput) in Hflag.
      apply (flag_at_snoc w _ CloseOutput) in Hflag.
      congruence.
Qed.

End Submitted.

Lemma not_success_snoc l (m : string) :
  l ++ [(false, m)] <> [(true, success_message)].
Proof.
  intros H. apply (f_equal last) in H. rewrite last_snoc in H. discriminate.
Qed.

(** The frames a run has handed to the encoder. *)
Lemma run_sent (s : CompressionSettings) (w : World) :
  exists done,
    submitted (trace (run s w)) = map (output_frame s) done
    /\ done `prefix_of` w_video_frames w
    /\ (terminal_events (trace (run s w)) = [(true, success_message)] ->
        done = w_video_frames w
        /\ length (progress_values (trace (run s w)))
           = S (length (w_video_frames w))).
Proof.
  assert (forall tr, Forall (fun e => setup_event e = true) tr ->
                     submitted tr = [] /\ progress_values tr = []) as Hsetup.
  { intros tr Htr. split.
    - apply submitted_nil. eapply Forall_impl; [exact Htr|]. event_cases.
    - apply progress_values_idle. eapply Forall_impl; [exact Htr|].
      event_cases. }
  assert (wp (run_body s w)
            (fun _ st' => exists tr0,
               Forall (fun e => setup_event e = true) tr0
               /\ all_sent s w tr0 st')
            (fun _ st' => exists done,
               submitted (trace st') = map (output_frame s) done
               /\ done `prefix_of` w_video_frames w)
            initial_state) as H.
  { apply wp_run_body.
    - intros e st Hs. exists []. destruct (Hsetup _ Hs) as [-> _].
      split; [done|]. apply prefix_nil.
    - intros vs T st Hs _ _.
      eapply wp_mono; [by apply (wp_encode_and_finish_sent s w T (trace st))| |].
      + intros ? st' Hall. by exists (trace st).
      + intros ? st' (done & (evs & Ht & Hsub) & Hpre). exists done.
        destruct (Hsetup _ Hs) as [Hs0 _].
        by rewrite Ht, submitted_app, Hs0. }
  rewrite run_of_body. unfold wp in H.
  destruct (run_body s w initial_state) as [[[]|e] st]; st_simpl.
  - destruct H as (tr0 & Hs & done & evs & Ht & Hsub & Hpre & Hend).
    destruct (Hsetup _ Hs) as [Hs0 Hp0].
    exists done. rewrite Ht, !submitted_app, Hs0, Hsub. simpl.
    rewrite app_nil_r. split; [done|]. split; [done|].
    intros Hsucc. destruct Hend as [[-> Hn]|[evs0 ->]].
    + split; [done|].
      rewrite !progress_values_app, Hp0. simpl. by rewrite app_nil_r.
    + exfalso. rewrite !terminal_events_app in Hsucc. simpl in Hsucc.
      rewrite app_nil_r, app_assoc in Hsucc.
      by apply not_success_snoc in Hsucc.
  - destruct H as (done & Hsub & Hpre). exists done.
    rewrite submitted_app, Hsub. simpl. rewrite app_nil_r.
    split; [done|]. split; [done|].
    intros Hsucc. exfalso. rewrite terminal_events_app in Hsucc.
    simpl in Hsucc. by apply not_success_snoc in Hsucc.
Qed.

(** X4.  Every run hands to the video encoder a prefix of the frames the
    input decodes to, in their order, each at the output resolution; a
    successful run hands over all of them, and emits one progress value
    for each and the final one. *)
Theorem X4_frames_encoded_in_order (s : CompressionSettings) (w : World) :
  let tr := trace (run s w) in
  submitted tr `prefix_of` map (output_frame s) (w_video_frames w)
  /\ (terminal_events tr = [(true, success_message)] ->
      submitted tr = map (output_frame s) (w_video_frames w)
      /\ length (progress_values tr) = S (length (w_video_frames w))).
Proof.
  intros tr. subst tr.
  destruct (run_sent s w) as (done & Hsub & [k Hk] & Hsucc).
  split.
  - rewrite Hsub, Hk, map_app. by apply prefix_app_r.
  - intros H. destruct (Hsucc H) as [-> Hn]. by split.
Qed.

(** X5.  An input whose frame-count estimate is zero and that has a frame
    never compresses successfully: the first progress value divides by
    the estimate. *)
Theorem X5_zero_estimate_never_succeeds
    (s : CompressionSettings) (w : World) (vs : VideoStream) :
  w_video w = Some vs ->
  estimate_total_frames vs = Ok 0 ->
  terminal_events (trace (run s w)) = [(true, success_message)] ->
  w_video_frames w = [].
Proof.
  intros Hvs Hest Hsucc.
  destruct (run_sent s w) as (done & _ & _ & Hall).
  destruct (Hall Hsucc) as [_ Hn].
  destruct (run_progress s w) as (ps & final & Hps & Hpf & Hfinal).
  destruct Hfinal as [[-> _]|[_ [m Hm]]]; [|congruence].
  destruct ps as [|p ps].
  - rewrite Hps in Hn. simpl in Hn.
    destruct (w_video_frames w); [done|simpl in Hn; lia].
  - destruct (Hpf 0%nat p eq_refl) as (vs' & T & Hvs' & HT & Hp).
    assert (vs' = vs) as -> by congruence.
    assert (T = 0) as -> by congruence.
    by rewrite progress_value_zero_total in Hp.
Qed.

(** The healthy run encodes its three frames. *)
Lemma X4_frames_encoded_in_order_witness :
  submitted (trace (run default_settings Examples.healthy))
  = map (output_frame default_settings) (w_video_frames Examples.healthy).
Proof.
  destruct (X4_frames_encoded_in_order default_settings Examples.healthy)
    as [_ H].
  by destruct (H eq_refl).
Defined.

(** Half a frame per second over one tick of duration: the estimate is
    zero, and the run succeeds on no frame at all. *)
Lemma X5_zero_estimate_never_succeeds_witness :
  estimate_total_frames Examples.still = Ok 0
  /\ w_video_frames Examples.empty = [].
Proof.
  split; [reflexivity|].
  apply (X5_zero_estimate_never_succeeds default_settings Examples.empty
           Examples.still); reflexivity.
Defined.

(** * An unknown resolution *)

Lemma reformats_app tr1 tr2 :
  reformats (tr1 ++ tr2) = reformats tr1 ++ reformats tr2.
Proof. apply omap_app. Qed.

Lemma reformats_untouched tr :
  Forall (fun e => untouched e = true) tr -> reformats tr = [].
Proof. induction 1 as [|e tr He _ IH]; [reflexivity|]. by destruct e. Qed.

Lemma submitted_untouched tr :
  Forall (fun e => untouched e = true) tr -> submitted tr = [].
Proof. induction 1 as [|e tr He _ IH]; [reflexivity|]. by destruct e. Qed.

Lemma run_unknown_resolution (s : CompressionSettings) (w : World) :
  get_resolution_dimensions (resolution s) = (1920, 1080) ->
  resolution s <> "original" ->
  run s w = run (set_resolution "1080p" s) w.
Proof.
  intros Hd Hne.
  unfold run, run_monadic, run_body, negotiate_video, negotiate,
    setup_video_encoder, configure_video_stream, output_dimensions,
    encode_and_finish, process_video, video_loop, resize_frame.
  cbn [resolution set_resolution].
  rewrite Hd, (bool_decide_eq_false_2 _ Hne), (bool_decide_eq_true_2 _ Hne).
  reflexivity.
Qed.

Section Resized.

Variable settings : CompressionSettings.
Variable w : World.
Variable total : Z.

Hypothesis unknown :
  get_resolution_dimensions (resolution settings) = (1920, 1080).
Hypothesis not_original : resolution settings <> "original".

Variable tr0 : list event.

(** Since [tr0], the frames [done] have each been reformatted to 1920 by
    1080 and then handed to the encoder. *)
Definition resized (done : list Frame) (st : RunState) : Prop :=
  exists evs,
    trace st = tr0 ++ evs
    /\ reformats evs = map (fun f => (f, 1920, 1080)) done
    /\ submitted evs = map full_hd_frame done.

Lemma resized_grow done st st' tail :
  resized done st -> trace st' = trace st ++ tail ->
  Forall (fun e => untouched e = true) tail -> resized done st'.
Proof.
  intros (evs & H1 & H2 & H3) Ht Htail. exists (evs ++ tail).
  rewrite Ht, H1, <- app_assoc, reformats_app, submitted_app.
  rewrite (reformats_untouched tail), (submitted_untouched tail) by done.
  by rewrite !app_nil_r.
Qed.

Lemma resized_advance (P : event -> bool) done st st' :
  (forall e, P e = true -> untouched e = true) ->
  resized done st -> advance P st st' -> resized done st'.
Proof.
  intros HP H (evs & -> & Hevs).
  apply (resized_grow done st _ evs); [done|done|].
  eapply Forall_impl; [exact Hevs|done].
Qed.

Lemma wp_video_loop_resized done frames st :
  resized done st ->
  wp (video_loop settings w total frames)
     (fun _ st' =>
        exists done',
          resized done' st'
          /\ (done' = done ++ frames
              \/ flag_at w (length (trace st')) = true
                 /\ done' `prefix_of` done ++ frames))
     (fun _ st' =>
        exists done', resized done' st' /\ done' `prefix_of` done ++ frames)
     st.
Proof.
  revert done st. induction frames as [|f rest IH]; intros done st H; simpl.
  { wp_go.
    - exists done. by rewrite app_nil_r.
    - exists done. split; [done|]. left. by rewrite app_nil_r. }
  do 4 wp_step.
  assert (resized done (with_trace
            ((trace st ++ [DecodeVideo f])
               ++ [ReadFlag (flag_at w (length (trace st ++ [DecodeVideo f])))])
            (with_trace (trace st ++ [DecodeVideo f]) st))) as H1.
  { eapply (resized_grow done st _ [DecodeVideo f; ReadFlag _]);
      [done|st_simpl; by rewrite <- app_assoc|by repeat constructor]. }
  wp_step.
  { wp_go. exists done. split; [done|]. right. split.
    - st_simpl. by apply flag_at_snoc.
    - by apply prefix_app_r. }
  rewrite bool_decide_eq_true_2 by exact not_original.
  wp_step. unfold wp at 1.
  rewrite (resize_frame_full_hd settings w unknown).
  destruct (w_reformat_error w f).
  { exists done. split; [done|]. by apply prefix_app_r. }
  wp_step.
  assert (done ++ [f] `prefix_of` done ++ f :: rest) as Hpre.
  { exists rest. by rewrite <- app_assoc. }
  unfold wp at 1.
  match goal with |- context [encode_and_mux ?ph ?c ?r ?s0] =>
    destruct (encode_and_mux_exact ph c r s0) as (muxes & Hst2 & Hmux);
    destruct (encode_and_mux ph c r s0) as [[[]|e] st2]
  end; simpl in Hst2; subst st2.
  all: assert (resized (done ++ [f])
         (with_trace
            ((((trace st ++ [DecodeVideo f]) ++ [ReadFlag false])
                ++ [Reformat f 1920 1080])
               ++ EncodeVideo (full_hd_frame f) :: muxes)
            (with_trace
               (((trace st ++ [DecodeVideo f]) ++ [ReadFlag false])
                  ++ [Reformat f 1920 1080])
               (with_trace ((trace st ++ [DecodeVideo f]) ++ [ReadFlag false])
                  (with_trace (trace st ++ [DecodeVideo f]) st))))) as H2
    by (destruct H1 as (evs & Ht & Hr & Hs);
        exists (evs ++ Reformat f 1920 1080
                      :: EncodeVideo (full_hd_frame f) :: muxes);
        st_simpl; cbn [trace with_trace] in Ht;
        rewrite Ht, <- !app_assoc; split; [done|];
        rewrite reformats_app, submitted_app, Hr, Hs, !map_app; simpl;
        rewrite (reformats_untouched muxes), (submitted_untouched muxes)
          by (eapply Forall_impl; [exact Hmux|]; by intros ? [p ->]);
        done).
  2: { exists (done ++ [f]). by split. }
  wp_go; try (exists (done ++ [f]); by split);
    (eapply wp_mono; [eapply (IH (done ++ [f]))| |];
     [|intros ? st' (done' & ? & Hd); exists done';
       rewrite <- app_assoc in Hd; by split
      |intros ? st' (done' & ? & Hd); exists done';
       rewrite <- app_assoc in Hd; by split]).
  - eapply (resized_grow _ _ _ [Progress _; Status _]); [exact H2| |];
      [st_simpl; by rewrite <- !app_assoc|by repeat constructor].
  - eapply (resized_grow _ _ _ [Progress _]); [exact H2| |];
      [st_simpl; by rewrite <- !app_assoc|by repeat constructor].
Qed.

(** What [encode_and_finish] has reformatted and handed to the encoder
    when it ends: a prefix of the frames of the input, and every frame
    unless the flag was observed or something raised. *)
Definition all_resized (st' : RunState) : Prop :=
  exists done,
    resized done st'
    /\ done `prefix_of` w_video_frames w.

Lemma wp_encode_and_finish_resized st :
  trace st = tr0 ->
  wp (encode_and_finish settings w total)
     (fun _ st' => all_resized st') (fun _ st' => all_resized st') st.
Proof.
  intros Ht. unfold encode_and_finish, process_video. do 3 wp_step.
  eapply wp_mono; [apply (wp_video_loop_resized [])| |]; st_simpl.
  { exists []. rewrite app_nil_r. by repeat split. }
  2: { intros ? st1 H1. exact H1. }
  intros ? st1 (done & H1 & Hd). simpl in Hd.
  assert (done `prefix_of` w_video_frames w) as Hpre
    by (by destruct Hd as [->|[_ ?]]).
  wp_step.
  eapply emits_wp; [apply emits_process_audio| |]; intros ? st2 Hadv2;
    assert (resized done st2) as H2
      by (apply (resized_advance audio_event done st1);
          [event_cases|done|done]);
    [|by exists done].
  wp_step.
  eapply emits_wp; [apply emits_flush_encoders| |]; intros ? st3 Hadv3;
    assert (resized done st3) as H3
      by (apply (resized_advance flush_event done st2);
          [event_cases|done|done]);
    [|by exists done].
  unfold close_containers, report.
  wp_go; [by exists done|..]; exists done; (split; [|done]);
    (eapply (resized_grow done st3);
     [done|st_simpl; rewrite <- ?app_assoc; reflexivity
     |by repeat constructor]).
Qed.

End Resized.

(** The frames a run whose resolution is looked up as 1920 by 1080 has
    reformatted and handed to the encoder. *)
Lemma run_resized (s : CompressionSettings) (w : World) :
  get_resolution_dimensions (resolution s) = (1920, 1080) ->
  resolution s <> "original" ->
  exists done,
    done `prefix_of` w_video_frames w
    /\ reformats (trace (run s w)) = map (fun f => (f, 1920, 1080)) done
    /\ submitted (trace (run s w)) = map full_hd_frame done.
Proof.
  intros Hd Hne.
  assert (forall tr, Forall (fun e => setup_event e = true) tr ->
                     Forall (fun e => untouched e = true) tr) as Hsetup.
  { intros tr Htr. eapply Forall_impl; [exact Htr|]. event_cases. }
  assert (wp (run_body s w)
            (fun _ st' => exists tr0,
               Forall (fun e => setup_event e = true) tr0
               /\ all_resized w tr0 st')
            (fun _ st' => exists tr0,
               Forall (fun e => setup_event e = true) tr0
               /\ all_resized w tr0 st')
            initial_state) as H.
  { apply wp_run_body.
    - intros e st Hs. exists (trace st). split; [done|]. exists [].
      split; [|apply prefix_nil]. exists []. by rewrite app_nil_r.
    - intros vs T st Hs _ _.
      eapply wp_mono;
        [by apply (wp_encode_and_finish_resized s w T Hd Hne (trace st))| |];
        intros ? st' Hall; by exists (trace st). }
  assert (forall st tail,
    (exists tr0, Forall (fun e => setup_event e = true) tr0
                 /\ all_resized w tr0 st) ->
    Forall (fun e => untouched e = true) tail ->
    exists done,
      done `prefix_of` w_video_frames w
      /\ reformats (trace st ++ tail) = map (fun f => (f, 1920, 1080)) done
      /\ submitted (trace st ++ tail) = map full_hd_frame done) as Hend.
  { intros st tail (tr0 & Hs & done & (evs & Ht & Hr & Hsub) & Hpre) Htail.
    exists done. split; [done|].
    rewrite Ht, !reformats_app, !submitted_app, Hr, Hsub.
    rewrite (reformats_untouched tr0), (submitted_untouched tr0)
      by (by apply Hsetup).
    rewrite (reformats_untouched tail), (submitted_untouched tail) by done.
    by rewrite !app_nil_r. }
  rewrite run_of_body. unfold wp in H.
  destruct (run_body s w initial_state) as [[[]|e] st]; st_simpl;
    (apply Hend; [exact H|by repeat constructor]).
Qed.

Lemma prefix_same_length {A} (l1 l2 l : list A) :
  l1 `prefix_of` l -> l2 `prefix_of` l -> length l1 = length l2 -> l1 = l2.
Proof.
  intros [k1 ->] [k2 H] Hlen. by apply app_inj_1 in H as [-> _].
Qed.

(** C10.  A resolution string outside the table, "original" too, is
    looked up as (1920, 1080), without an error.  When the setting is
    such a string, and not "original", [resize_frame] asks for a frame of
    1920 by 1080 and raises only if [reformat] does; the output stream
    is 1920 by 1080; the run is the run of the setting "1080p", event by
    event; and the run resizes every frame: the frames of the input it
    gets to, all of them when it succeeds, are each reformatted to 1920
    by 1080 and handed to the encoder in that size. *)
Theorem C10_unknown_resolution_is_full_hd
    (s : CompressionSettings) (w : World) (r : string) :
  r <> "1080p" -> r <> "720p" -> r <> "480p" ->
  get_resolution_dimensions r = (1920, 1080)
  /\ (resolution s = r -> r <> "original" ->
      let tr := trace (run s w) in
      (forall frame st,
          resize_frame s w frame st
          = match w_reformat_error w frame with
            | Some msg => (Raise (AVError msg), st)
            | None =>
                (Ok (full_hd_frame frame),
                 with_trace (trace st ++ [Reformat frame 1920 1080]) st)
            end)
      /\ (forall input_stream, output_dimensions s input_stream = (1920, 1080))
      /\ run s w = run (set_resolution "1080p" s) w
      /\ Forall (fun e => full_hd e = true) tr
      /\ exists done,
           done `prefix_of` w_video_frames w
           /\ reformats tr = map (fun f => (f, 1920, 1080)) done
           /\ submitted tr = map full_hd_frame done
           /\ (terminal_events tr = [(true, success_message)] ->
               done = w_video_frames w)).
Proof.
  intros H1 H2 H3.
  pose proof (get_resolution_dimensions_default _ H1 H2 H3) as Hd.
  split; [exact Hd|]. intros Hr H4 tr. subst r tr.
  split; [|split; [|split; [|split]]].
  - intros frame st. by apply resize_frame_full_hd.
  - intros vs. unfold output_dimensions.
    by rewrite bool_decide_eq_false_2.
  - by apply run_unknown_resolution.
  - by apply run_full_hd.
  - destruct (run_resized s w Hd H4) as (done & Hpre & Hre & Hsub).
    exists done. split; [done|]. split; [done|]. split; [done|].
    intros Hsucc.
    destruct (run_sent s w) as (done' & Hsub' & Hpre' & Hall).
    destruct (Hall Hsucc) as [-> _].
    apply (prefix_same_length _ _ (w_video_frames w)); [done|done|].
    rewrite <- (length_map full_hd_frame done), <- Hsub, Hsub'.
    by rewrite length_map.
Qed.

(** The resolution "4k" is not in the table: the healthy run reformats
    and encodes its three frames of 3840 by 2160 in 1920 by 1080. *)
Lemma C10_unknown_resolution_is_full_hd_witness :
  get_resolution_dimensions "4k" = (1920, 1080)
  /\ submitted (trace (run (set_resolution "4k" default_settings)
                           Examples.healthy))
     = [ {| fr_index := 0; fr_width := 1920; fr_height := 1080 |};
         {| fr_index := 1; fr_width := 1920; fr_height := 1080 |};
         {| fr_index := 2; fr_width := 1920; fr_height := 1080 |} ]
  /\ reformats (trace (run (set_resolution "4k" default_settings)
                           Examples.healthy))
     = [ (Examples.frame 0, 1920, 1080); (Examples.frame 1, 1920, 1080);
         (Examples.frame 2, 1920, 1080) ].
Proof.
  destruct (C10_unknown_resolution_is_full_hd
              (set_resolution "4k" default_settings) Examples.healthy "4k")
    as [H1 H2]; [done|done|done|].
  destruct (H2 eq_refl ltac:(done))
    as (_ & _ & _ & _ & frames & _ & Hre & Hsub & Hall).
  rewrite Hre, Hsub, (Hall eq_refl). by repeat split.
Defined.

(** * The detector *)

Lemma any_available_elem (encoders : gset string) codecs e :
  e ∈ codecs -> e ∈ encoders ->
  SystemDetector.any_available encoders codecs = true.
Proof.
  intros Hin He. unfold SystemDetector.any_available.
  apply existsb_exists. exists e. split.
  - by apply list_elem_of_In.
  - by apply bool_decide_eq_true.
Qed.

Lemma first_available_elem (available : gset string) l e :
  SystemDetector.first_available available l = Some e ->
  e ∈ l /\ e ∈ available.
Proof.
  induction l as [|x l IH]; simpl; [done|].
  destruct (decide (x ∈ available)).
  - intros [= <-]. split; [apply list_elem_of_here|done].
  - intros H. destruct (IH H). split; [by apply list_elem_of_further|done].
Qed.

(** An encoder name of a family is one of the names the detector probes
    for that family; for VAAPI, or one of the two it does not probe. *)
Definition family_ok (e : string) : bool :=
  implb (PyStr.contains "nvenc" e)
        (bool_decide (e ∈ ["h264_nvenc"; "hevc_nvenc"; "av1_nvenc"]))
  && implb (PyStr.contains "qsv" e)
           (bool_decide (e ∈ ["h264_qsv"; "hevc_qsv"; "av1_qsv"]))
  && implb (PyStr.contains "videotoolbox" e)
           (bool_decide (e ∈ ["h264_videotoolbox"; "hevc_videotoolbox"]))
  && implb (PyStr.contains "vaapi" e)
           (bool_decide (e ∈ ["h264_vaapi"; "hevc_vaapi";
                              "vp9_vaapi"; "av1_vaapi"])).

Lemma encoder_priority_families c l :
  SystemDetector.encoder_priority !! c = Some l ->
  Forall (fun e => family_ok e = true) l.
Proof.
  unfold SystemDetector.encoder_priority. intros H.
  repeat (apply lookup_insert_Some in H as [[_ <-]|[_ H]];
          [by repeat constructor|]).
  by rewrite lookup_empty in H.
Qed.

Lemma software_families e : is_hardware e = false -> family_ok e = true.
Proof.
  unfold is_hardware, accelerators, family_ok. simpl.
  intros H. repeat (apply orb_false_iff in H as [-> H]). done.
Qed.

(** X6.  When [get_optimal_encoder] picks an NVENC, QuickSync or
    VideoToolbox encoder, [detect_gpu_capabilities] has set the flag of
    that family.  For VAAPI this holds for the H.264 and HEVC encoders
    only: [vp9_vaapi] and [av1_vaapi] are in the priority lists but not
    among the names the detector probes, so either can be picked while
    the flag is unset. *)
Theorem X6_hardware_choice_detected (available : gset string) (c : string) :
  let e := SystemDetector.get_optimal_encoder available c in
  let caps := SystemDetector.detect_gpu_capabilities available in
  (PyStr.contains "nvenc" e = true -> SystemDetector.nvenc caps = true)
  /\ (PyStr.contains "qsv" e = true -> SystemDetector.qsv caps = true)
  /\ (PyStr.contains "videotoolbox" e = true ->
      SystemDetector.videotoolbox caps = true)
  /\ (PyStr.contains "vaapi" e = true ->
      SystemDetector.vaapi caps = true \/ e = "vp9_vaapi" \/ e = "av1_vaapi")
  /\ (SystemDetector.get_optimal_encoder {["vp9_vaapi"]} "vp9" = "vp9_vaapi"
      /\ SystemDetector.vaapi
           (SystemDetector.detect_gpu_capabilities {["vp9_vaapi"]}) = false).
Proof.
  intros e caps.
  assert (family_ok e = true /\ (is_hardware e = true -> e ∈ available))
    as [Hok Hin].
  { subst e. unfold SystemDetector.get_optimal_encoder.
    destruct (SystemDetector.first_available available
                (default [] (SystemDetector.encoder_priority !! c)))
      as [e|] eqn:Hfirst.
    - apply first_available_elem in Hfirst as [Hl He]. split; [|done].
      destruct (SystemDetector.encoder_priority !! c) as [l|] eqn:Hc;
        simpl in Hl; [|by apply elem_of_nil in Hl].
      pose proof (encoder_priority_families c l Hc) as Hall.
      rewrite Forall_forall in Hall. by apply Hall.
    - pose proof (fallback_is_software c) as Hsw. split.
      + by apply software_families.
      + intros Hhw. congruence. }
  assert (forall family, PyStr.contains family e = true ->
                         family ∈ accelerators -> e ∈ available) as Hav.
  { intros family Hc Hf. apply Hin. unfold is_hardware.
    apply existsb_exists. exists family. split; [|done].
    by apply list_elem_of_In. }
  unfold family_ok in Hok.
  apply andb_true_iff in Hok as [Hok Hva].
  apply andb_true_iff in Hok as [Hok Hvt].
  apply andb_true_iff in Hok as [Hnv Hqs].
  subst caps. unfold SystemDetector.detect_gpu_capabilities.
  cbn [SystemDetector.nvenc SystemDetector.qsv SystemDetector.vaapi
       SystemDetector.videotoolbox].
  split; [|split; [|split; [|split]]].
  - intros Hc. rewrite Hc in Hnv. apply bool_decide_eq_true in Hnv.
    eapply any_available_elem; [exact Hnv|].
    apply (Hav "nvenc"); [done|]. unfold accelerators.
    repeat first [apply list_elem_of_here|apply list_elem_of_further].
  - intros Hc. rewrite Hc in Hqs. apply bool_decide_eq_true in Hqs.
    eapply any_available_elem; [exact Hqs|].
    apply (Hav "qsv"); [done|]. unfold accelerators.
    repeat first [apply list_elem_of_here|apply list_elem_of_further].
  - intros Hc. rewrite Hc in Hvt. apply bool_decide_eq_true in Hvt.
    eapply any_available_elem; [exact Hvt|].
    apply (Hav "videotoolbox"); [done|]. unfold accelerators.
    repeat first [apply list_elem_of_here|apply list_elem_of_further].
  - intros Hc. rewrite Hc in Hva. apply bool_decide_eq_true in Hva.
    assert (e ∈ available) as He.
    { apply (Hav "vaapi"); [done|]. unfold accelerators.
      repeat first [apply list_elem_of_here|apply list_elem_of_further]. }
    apply elem_of_cons in Hva as [Hva|Hva];
      [left; eapply any_available_elem; [|exact He]; rewrite Hva;
       apply list_elem_of_here|].
    apply elem_of_cons in Hva as [Hva|Hva];
      [left; eapply any_available_elem; [|exact He]; rewrite Hva;
       apply list_elem_of_further, list_elem_of_here|].
    apply elem_of_cons in Hva as [Hva|Hva]; [by right; left|].
    apply elem_of_cons in Hva as [Hva|Hva]; [by right; right|].
    by apply elem_of_nil in Hva.
  - split; by vm_compute.
Qed.

(** With only the NVENC H.264 encoder available it is picked, and the
    flag is set. *)
Lemma X6_hardware_choice_detected_witness :
  SystemDetector.nvenc
    (SystemDetector.detect_gpu_capabilities {["h264_nvenc"]}) = true.
Proof.
  destruct (X6_hardware_choice_detected {["h264_nvenc"]} "h264") as [H _].
  apply H. by vm_compute.
Defined.

(** * Settings the encoder never reads *)

(** X7.  The quality settings that do not belong to the chosen mode are
    never read.  With [quality_mode = "crf"] the whole run is the same
    whatever the bitrate string is, even an unparsable one; in the other
    mode it is the same whatever the CRF value and the preset are; and an
    NVENC or QuickSync stream is configured the same whatever the preset
    is. *)
Theorem X7_unused_quality_settings
    (s : CompressionSettings) (w : World) :
  (quality_mode s = "crf" ->
   forall b1 b2, run (set_bitrate b1 s) w = run (set_bitrate b2 s) w)
  /\ (quality_mode s <> "crf" ->
      forall c1 c2 p1 p2,
        run (set_quality c1 p1 s) w = run (set_quality c2 p2 s) w)
  /\ (forall encoder_name input_stream p1 p2,
        PyStr.contains "nvenc" encoder_name
        || PyStr.contains "qsv" encoder_name = true ->
        configure_video_stream
          (set_quality (crf_value s) p1 s) encoder_name input_stream
        = configure_video_stream
            (set_quality (crf_value s) p2 s) encoder_name input_stream).
Proof.
  split; [|split].
  - destruct s. simpl. intros -> b1 b2. reflexivity.
  - intros H c1 c2 p1 p2.
    unfold run, run_monadic, run_body, negotiate_video, negotiate,
      setup_video_encoder, configure_video_stream, quality_options.
    cbn [quality_mode set_quality].
    rewrite (bool_decide_eq_false_2 _ H).
    reflexivity.
  - intros enc vs p1 p2 H.
    unfold configure_video_stream, quality_options.
    cbn [quality_mode set_quality crf_value preset].
    destruct (PyStr.contains "nvenc" enc); [reflexivity|].
    simpl in H. rewrite H. reflexivity.
Qed.

(** A bitrate string that does not parse is harmless in CRF mode. *)
Lemma X7_unused_quality_settings_witness :
  run (set_bitrate "fast" default_settings) Examples.healthy
  = run default_settings Examples.healthy.
Proof.
  destruct (X7_unused_quality_settings default_settings Examples.healthy)
    as [H _].
  apply (H eq_refl "fast" "1M").
Defined.

(** * Settings from the window *)

Import MainWindow.

Lemma lookup_codec_map item :
  item ∈ codec_items ->
  exists c, codec_map !! item = Some c
            /\ is_Some (SystemDetector.encoder_priority !! c)
            /\ is_Some (SystemDetector.fallback !! c)
            /\ is_Some (SystemDetector.fallback_lists !! c).
Proof.
  unfold codec_items. intros H.
  repeat (apply elem_of_cons in H as [->|H];
          [eexists; split; [reflexivity|]; by repeat split|]).
  by apply elem_of_nil in H.
Qed.

Lemma lookup_gpu_map item :
  item ∈ gpu_items ->
  exists g, gpu_map !! item = Some g
            /\ g ∈ ["auto"; "nvenc"; "qsv"; "vaapi"; "cpu"].
Proof.
  unfold gpu_items. intros H.
  repeat (apply elem_of_cons in H as [->|H];
          [eexists; split; [reflexivity|];
           repeat first [apply list_elem_of_here|apply list_elem_of_further]|]).
  by apply elem_of_nil in H.
Qed.

(** X8.  Whatever items are selected in the combo boxes,
    [update_settings_from_ui] raises no [KeyError] and produces settings
    the worker has an entry for: the codec is a key of the three encoder
    tables, the quality mode is "crf" or "bitrate", the resolution is
    "original" or a key of the resolution table, so that the default of
    [get_resolution_dimensions] is not reached, the frame rate is
    "original" or parses as an integer, and the acceleration preference
    is one of the five names.  The audio settings stay as they were. *)
Theorem X8_window_settings_recognised
    (settings : CompressionSettings) (ui : Ui) :
  codec_combo ui ∈ codec_items ->
  resolution_combo ui ∈ resolution_items ->
  fps_combo ui ∈ fps_items ->
  gpu_combo ui ∈ gpu_items ->
  exists s,
    update_settings_from_ui settings ui = Some s
    /\ is_Some (SystemDetector.encoder_priority !! codec s)
    /\ is_Some (SystemDetector.fallback !! codec s)
    /\ is_Some (SystemDetector.fallback_lists !! codec s)
    /\ (quality_mode s = "crf" \/ quality_mode s = "bitrate")
    /\ (resolution s = "original" \/ is_Some (resolutions !! resolution s))
    /\ (forall input_stream, exists r, output_rate s input_stream = Ok r)
    /\ gpu_acceleration s ∈ ["auto"; "nvenc"; "qsv"; "vaapi"; "cpu"]
    /\ audio_codec s = audio_codec settings
    /\ audio_bitrate s = audio_bitrate settings.
Proof.
  intros Hc Hr Hf Hg.
  destruct (lookup_codec_map _ Hc) as (c & Hcm & H1 & H2 & H3).
  destruct (lookup_gpu_map _ Hg) as (g & Hgm & H4).
  unfold update_settings_from_ui. rewrite Hcm, Hgm.
  eexists. split; [reflexivity|]. cbn [codec quality_mode resolution fps
    gpu_acceleration audio_codec audio_bitrate].
  split; [done|]. split; [done|]. split; [done|].
  split; [destruct (PyStr.contains _ _); [by left|by right]|].
  split.
  { unfold resolution_items in Hr.
    repeat (apply elem_of_cons in Hr as [->|Hr];
            [first [left; reflexivity|right; eexists; reflexivity]|]).
    by apply elem_of_nil in Hr. }
  split.
  { intros vs. unfold output_rate. cbn [fps].
    unfold fps_items in Hf.
    apply elem_of_cons in Hf as [->|Hf].
    { simpl. destruct (truthy_rate (vs_average_rate vs)); [by eexists|].
      destruct (truthy_rate (vs_base_rate vs)); by eexists. }
    repeat (apply elem_of_cons in Hf as [->|Hf]; [by eexists|]).
    by apply elem_of_nil in Hf. }
  done.
Qed.

(** The combination the window starts with, on 720p at 24 frames per
    second. *)
Lemma X8_window_settings_recognised_witness :
  exists s,
    update_settings_from_ui default_settings
      {| input_file_edit := "in.mp4"; output_file_edit := "out.mp4";
         codec_combo := "H.264 - Best compatibility";
         quality_mode_combo := "CRF (Constant Quality)";
         crf_spin := 23; bitrate_edit := "1M";
         resolution_combo := "720p"; fps_combo := "24";
         gpu_combo := "Auto (Recommended)"; preset_combo := "medium";
         threads_spin := 0 |} = Some s
    /\ resolution s = "720p" /\ fps s = "24".
Proof.
  edestruct (X8_window_settings_recognised default_settings) as (s & Hs & _);
    [| | | |exists s; split; [exact Hs|]].
  - apply list_elem_of_here.
  - simpl. do 2 apply list_elem_of_further. apply list_elem_of_here.
  - simpl. apply list_elem_of_further, list_elem_of_here.
  - apply list_elem_of_here.
  - injection Hs as <-. by split.
Defined.

(** * Settings that do not parse *)

(** When the input and the output open and every attempt fails, the run
    ends without a video stream and without having decoded a frame. *)
Lemma run_exhausted (s : CompressionSettings) (w : World) (vs : VideoStream)
    (total : Z) :
  w_input_exists w = true ->
  w_open_input_error w = None ->
  w_video w = Some vs ->
  estimate_total_frames vs = Ok total ->
  w_open_output_error w = None ->
  Forall (fun a => is_Some (attempt_failure s w vs a))
         (attempt_plan (w_codecs_available w) s) ->
  terminal_events (trace (run s w))
  = [(false, "Compression failed: No working video encoder found")]
  /\ Forall (fun e => is_decode e = false) (trace (run s w))
  /\ forall a, a ∈ attempt_plan (w_codecs_available w) s ->
       Status ("❌ Encoder " +:+ a +:+ " failed: "
               +:+ default "" (attempt_failure s w vs a))
       ∈ trace (run s w).
Proof.
  intros Hex Hin Hv HT Hout Hall.
  set (plan := attempt_plan (w_codecs_available w) s) in *.
  assert (wp (run_body s w) (fun _ _ => False)
            (fun e st =>
               e = RuntimeError "No working video encoder found"
               /\ exists pre evs,
                    trace st = pre ++ evs
                    /\ terminal_events pre = []
                    /\ Forall (fun e => is_decode e = false) pre
                    /\ statuses evs
                       = flat_map (failed_attempt_statuses s w vs) plan
                    /\ terminal_events evs = []
                    /\ Forall (fun e => is_decode e = false) evs)
            initial_state) as Hbody.
  { unfold run_body, open_input, negotiate_video.
    rewrite Hex, Hin, Hv, Hout. do 11 wp_step. rewrite HT. do 13 wp_step.
    fold (attempt_plan (w_codecs_available w) s). fold plan.
    eapply wp_mono; [by apply wp_negotiate_all_fail| |done].
    intros ? st (evs & -> & Hst & Hte & Hdec & _). wp_go.
    split; [reflexivity|]. eexists _, evs. st_simpl.
    split; [reflexivity|]. split; [reflexivity|].
    split; [by repeat constructor|]. done. }
  rewrite run_of_body. unfold wp in Hbody.
  destruct (run_body s w initial_state) as [[[]|e] st]; [done|].
  destruct Hbody as (-> & pre & evs & Ht & Hpt & Hpd & Hst & Hte & Hdec).
  st_simpl. rewrite Ht. split; [|split].
  - by rewrite !terminal_events_app, Hpt, Hte.
  - apply Forall_app. split; [by apply Forall_app|by repeat constructor].
  - intros a Ha.
    assert ("❌ Encoder " +:+ a +:+ " failed: "
            +:+ default "" (attempt_failure s w vs a) ∈ statuses evs) as Hin'.
    { rewrite Hst. apply list_elem_of_In, in_flat_map. exists a.
      split; [by apply list_elem_of_In|].
      unfold failed_attempt_statuses. right. by left. }
    unfold statuses in Hin'. apply list_elem_of_omap in Hin' as (e & He & Hm).
    destruct e; try discriminate. injection Hm as ->.
    apply elem_of_app. left. apply elem_of_app. by right.
Qed.

(** X9.  A frame rate that is not "original" and not an integer, or, at
    the original frame rate and outside CRF mode, a bitrate that does not
    parse, makes the configuration of every candidate encoder raise: the
    error is reported once per candidate as that encoder's failure, and
    the run ends with "No working video encoder found" without having
    decoded a frame. *)
Theorem X9_unparsable_setting_exhausts_encoders
    (s : CompressionSettings) (w : World) (vs : VideoStream)
    (total : Z) (e : exn) :
  w_input_exists w = true ->
  w_open_input_error w = None ->
  w_video w = Some vs ->
  estimate_total_frames vs = Ok total ->
  w_open_output_error w = None ->
  (fps s <> "original" /\ int_of_str (fps s) = Raise e)
  \/ (fps s = "original" /\ quality_mode s <> "crf"
      /\ parse_bitrate (bitrate s) = Raise e) ->
  terminal_events (trace (run s w))
  = [(false, "Compression failed: No working video encoder found")]
  /\ Forall (fun e => is_decode e = false) (trace (run s w))
  /\ forall a, a ∈ attempt_plan (w_codecs_available w) s ->
       w_add_stream_error w a = None ->
       Status ("❌ Encoder " +:+ a +:+ " failed: " +:+ exn_str e)
       ∈ trace (run s w).
Proof.
  intros Hex Hin Hv HT Hout Hbad.
  assert (forall a, configure_video_stream s a vs = Raise e) as Hconf.
  { intros a. unfold configure_video_stream, output_rate, quality_options.
    destruct (output_dimensions s vs) as [wd ht].
    destruct Hbad as [[Hf He]|(Hf & Hq & Hb)].
    - by rewrite (bool_decide_eq_false_2 _ Hf), He.
    - rewrite (bool_decide_eq_true_2 _ Hf), (bool_decide_eq_false_2 _ Hq), Hb.
      destruct (truthy_rate (vs_average_rate vs)); [done|].
      by destruct (truthy_rate (vs_base_rate vs)). }
  assert (forall a, is_Some (attempt_failure s w vs a)) as Hfail.
  { intros a. unfold attempt_failure.
    destruct (w_add_stream_error w a); [by eexists|].
    rewrite Hconf. by eexists. }
  destruct (run_exhausted s w vs total Hex Hin Hv HT Hout) as (H1 & H2 & H3).
  { apply Forall_forall. intros a _. apply Hfail. }
  split; [done|]. split; [done|].
  intros a Ha Hadd. specialize (H3 a Ha).
  unfold attempt_failure in H3. by rewrite Hadd, Hconf in H3.
Qed.

(** The frame rate "abc" on the healthy input. *)
Lemma X9_unparsable_setting_exhausts_encoders_witness :
  terminal_events (trace (run (set_fps "abc" default_settings) Examples.healthy))
  = [(false, "Compression failed: No working video encoder found")].
Proof.
  refine (proj1 (X9_unparsable_setting_exhausts_encoders
                   (set_fps "abc" default_settings) Examples.healthy
                   Examples.video 3
                   (ValueError "invalid literal for int() with base 10: 'abc'")
                   _ _ _ _ _ _)); try reflexivity.
  left. split; [done|reflexivity].
Defined.

(** * The audio encoder *)

(** The message with which [setup_audio_encoder] fails, when it does. *)
Definition audio_failure (s : CompressionSettings) (w : World)
  : option exn :=
  match w_add_stream_error w (audio_codec s) with
  | Some msg => Some (AVError msg)
  | None =>
      match parse_bitrate (audio_bitrate s) with
      | Raise e => Some e
      | Ok _ => None
      end
  end.

(** X10.  The audio encoder has no fallback.  When the video encoder has
    been set up at the first attempt and the input has an audio stream,
    a failure of [add_stream] for the audio codec, or an audio bitrate
    that does not parse, ends the run with that error as its failure
    report, before any frame is decoded, with the variable
    [audio_output_stream] still [None] and the output left open.  The
    output container keeps the video stream; when it was the bitrate that
    did not parse, [add_stream] had returned before, and the container
    keeps the audio stream as well. *)
Theorem X10_audio_failure_aborts
    (s : CompressionSettings) (w : World) (vs : VideoStream) (total : Z)
    (os : OutputStream) (input_audio : AudioStream) (e : exn) :
  w_input_exists w = true ->
  w_open_input_error w = None ->
  w_video w = Some vs ->
  estimate_total_frames vs = Ok total ->
  w_open_output_error w = None ->
  let encoder_name :=
    SystemDetector.get_optimal_encoder (w_codecs_available w) (codec s) in
  w_add_stream_error w encoder_name = None ->
  configure_video_stream s encoder_name vs = Ok os ->
  w_audio w = Some input_audio ->
  audio_failure s w = Some e ->
  terminal_events (trace (run s w)) = [(false, failure_prefix +:+ exn_str e)]
  /\ Forall (fun e => is_decode e = false) (trace (run s w))
  /\ video_output_stream (run s w) = Some os
  /\ audio_output_stream (run s w) = None
  /\ output_container (run s w) = Opened
  /\ output_streams (trace (run s w))
     = encoder_name
         :: (if adds_stream w (audio_codec s) then [audio_codec s] else []).
Proof.
  intros Hex Hin Hv HT Hout enc Hadd Hconf Haudio Hfail.
  assert (wp (run_body s w) (fun _ _ => False)
            (fun e' st =>
               e' = e
               /\ terminal_events (trace st) = []
               /\ Forall (fun e => is_decode e = false) (trace st)
               /\ video_output_stream st = Some os
               /\ audio_output_stream st = None
               /\ output_container st = Opened
               /\ output_streams (trace st)
                  = enc :: (if adds_stream w (audio_codec s)
                            then [audio_codec s] else []))
            initial_state) as Hbody.
  { unfold run_body, open_input, negotiate_video, negotiate_audio,
      setup_audio_encoder.
    rewrite Hex, Hin, Hv, Hout, Haudio. do 11 wp_step. rewrite HT.
    do 13 wp_step. fold enc. simpl negotiate. unfold setup_video_encoder.
    rewrite Hadd, Hconf. unfold audio_failure in Hfail. unfold adds_stream.
    wp_go.
    - injection Hfail as <-. split; [done|]. split; [done|].
      split; [by repeat constructor|].
      rewrite bool_decide_eq_false_2 by congruence. done.
    - discriminate.
    - injection Hfail as <-.
      split; [done|]. split; [done|].
      split; [by repeat constructor|].
      rewrite bool_decide_eq_true_2 by done. done. }
  rewrite run_of_body. unfold wp in Hbody.
  destruct (run_body s w initial_state) as [[[]|e'] st]; [done|].
  destruct Hbody as (-> & Hte & Hdec & Hvos & Haos & Hoc & Hos).
  st_simpl. split; [|split; [|split; [|split; [|split]]]]; try done.
  - by rewrite terminal_events_app, Hte.
  - apply Forall_app. split; [done|by repeat constructor].
  - unfold output_streams in *. rewrite omap_app, Hos. simpl.
    by rewrite app_nil_r.
Qed.

(** The healthy input, with an audio bitrate that does not parse: the
    output is left with the video and the audio stream. *)
Lemma X10_audio_failure_aborts_witness :
  terminal_events
    (trace (run (set_audio_bitrate "high" default_settings) Examples.healthy))
  = [(false, "Compression failed: invalid literal for int() with base 10: 'HIGH'")]
  /\ output_streams
       (trace (run (set_audio_bitrate "high" default_settings)
                   Examples.healthy))
     = ["libx264"; "aac"].
Proof.
  destruct (X10_audio_failure_aborts
              (set_audio_bitrate "high" default_settings)
              Examples.healthy Examples.video 3
              {| os_encoder := "libx264"; os_width := 3840; os_height := 2160;
                 os_rate := {| numerator := 30; denominator := 1 |};
                 os_pix_fmt := "yuv420p";
                 os_options := <["preset" := "medium"]> (<["crf" := "23"]> ∅);
                 os_bit_rate := None; os_thread_count := None |}
              Examples.audio
              (ValueError "invalid literal for int() with base 10: 'HIGH'"))
    as (H1 & _ & _ & _ & _ & H2); try reflexivity.
  by split.
Defined.

(** * The flush comes last *)

Lemma wp_conj {A} (c : Run A) Q1 Q2 E1 E2 st :
  wp c Q1 E1 st -> wp c Q2 E2 st ->
  wp c (fun a st' => Q1 a st' /\ Q2 a st')
       (fun e st' => E1 e st' /\ E2 e st') st.
Proof. unfold wp. by destruct (c st) as [[a|e] st']. Qed.

(** What the video loop emits. *)
Definition loop_event (e : event) : bool :=
  match e with
  | Status _ | DecodeVideo _ | ReadFlag _ | Reformat _ _ _ | EncodeVideo _
  | Mux MainVideo _ | Progress _ => true
  | _ => false
  end.

(** [tr'] is [tr] followed by events of the class [P]. *)
Definition extends (P : event -> bool) (tr tr' : list event) : Prop :=
  exists evs, tr' = tr ++ evs /\ Forall (fun e => P e = true) evs.

Lemma extends_refl P tr : extends P tr tr.
Proof. exists []. by rewrite app_nil_r. Qed.

Lemma extends_trans P tr1 tr2 tr3 :
  extends P tr1 tr2 -> extends P tr2 tr3 -> extends P tr1 tr3.
Proof.
  intros (e1 & -> & H1) (e2 & -> & H2). exists (e1 ++ e2).
  rewrite <- app_assoc. split; [done|by apply Forall_app].
Qed.

Lemma extends_snoc P tr e : P e = true -> extends P tr (tr ++ [e]).
Proof. intros H. exists [e]. split; [done|by repeat constructor]. Qed.

Lemma advance_extends P st st' :
  advance P st st' -> extends P (trace st) (trace st').
Proof. intros (evs & -> & H). by exists evs. Qed.

Lemma extends_weaken (P Q : event -> bool) tr tr' :
  (forall e, P e = true -> Q e = true) -> extends P tr tr' -> extends Q tr tr'.
Proof.
  intros HPQ (evs & -> & H). exists evs. split; [done|].
  eapply Forall_impl; eauto.
Qed.

Section Flushed.

Variable settings : CompressionSettings.
Variable w : World.
Variable total : Z.

Lemma wp_video_loop_extends frames st :
  wp (video_loop settings w total frames)
     (fun _ st' => extends loop_event (trace st) (trace st'))
     (fun _ st' => extends loop_event (trace st) (trace st')) st.
Proof.
  revert st. induction frames as [|f rest IH]; intros st; simpl.
  { wp_go; apply extends_refl. }
  assert (extends loop_event (trace st)
            ((trace st ++ [DecodeVideo f])
               ++ [ReadFlag (flag_at w (length (trace st ++ [DecodeVideo f])))]))
    as H0.
  { eapply extends_trans; [by apply (extends_snoc _ _ (DecodeVideo f))|].
    by apply extends_snoc. }
  do 5 wp_step; [by wp_go|].
  wp_step.
  eapply emits_wp;
    [apply emits_maybe_resize with (P := loop_event); done| |];
    intros ? st1 Hadv1%advance_extends; cbn [trace with_trace] in Hadv1;
    pose proof (extends_trans _ _ _ _ H0 Hadv1) as H1; [|done].
  wp_step.
  eapply emits_wp;
    [apply emits_encode_and_mux with (P := loop_event); done| |];
    intros ? st2 Hadv2%advance_extends;
    pose proof (extends_trans _ _ _ _ H1 Hadv2) as H2; [|done].
  wp_go; try done;
    (eapply wp_mono; [apply IH| |]; intros ? st3 H3; cbn [trace with_trace with_processed] in H3;
     (eapply extends_trans; [|exact H3]);
     (eapply extends_trans; [exact H2|]);
     repeat (eapply extends_trans; [|by apply extends_snoc]);
     apply extends_refl).
Qed.

Variable tr0 : list event.

(** Not a frame handed to the video encoder, and not its flush. *)
Definition resting (e : event) : bool :=
  match e with EncodeVideo _ | FlushVideo => false | _ => true end.

(** Since [tr0] the frames [done] have been handed to the encoder, and
    the encoder has not been flushed. *)
Definition unflushed (done : list Frame) (st : RunState) : Prop :=
  exists evs,
    trace st = tr0 ++ evs
    /\ submitted evs = map (output_frame settings) done
    /\ FlushVideo ∉ evs.

Lemma unflushed_grow done st st' tail :
  unflushed done st -> trace st' = trace st ++ tail ->
  Forall (fun e => resting e = true) tail -> unflushed done st'.
Proof.
  intros (evs & H1 & H2 & H3) Ht Htail. exists (evs ++ tail).
  rewrite Ht, H1, <- app_assoc, submitted_app. split; [done|]. split.
  - rewrite H2, (submitted_nil tail), app_nil_r; [done|].
    eapply Forall_impl; [exact Htail|]. by intros [].
  - intros [?|Hin]%elem_of_app; [done|].
    rewrite Forall_forall in Htail. by specialize (Htail _ Hin).
Qed.

(** The state [encode_and_finish] ends in, whether it returns or raises:
    if the video encoder was flushed, every frame had been handed to
    it. *)
Definition flushed_last (st' : RunState) : Prop :=
  exists done evs,
    trace st' = tr0 ++ evs
    /\ submitted evs = map (output_frame settings) done
    /\ (FlushVideo ∈ evs -> done = w_video_frames w).

Lemma sent_flushed_last st :
  sent settings tr0 (w_video_frames w) st -> flushed_last st.
Proof. intros (evs & H1 & H2). by exists (w_video_frames w), evs. Qed.

Lemma unflushed_flushed_last done st : unflushed done st -> flushed_last st.
Proof. intros (evs & H1 & H2 & H3). by exists done, evs. Qed.

Lemma wp_encode_and_finish_flushed st :
  trace st = tr0 ->
  wp (encode_and_finish settings w total)
     (fun _ st' => flushed_last st') (fun _ st' => flushed_last st') st.
Proof.
  intros Ht. unfold encode_and_finish, process_video. do 3 wp_step.
  eapply wp_mono;
    [apply wp_conj;
     [apply (wp_video_loop_sent settings w total tr0 [])
     |apply wp_video_loop_extends]| |]; st_simpl.
  { exists []. rewrite app_nil_r. by repeat split. }
  2: { intros ? st1 [(done & (evs & H1 & H2) & _) (evs' & H3 & H4)].
       rewrite Ht, H1 in H3. apply app_inv_head in H3 as ->.
       exists done, evs'. split; [done|]. split; [done|].
       intros Hin. rewrite Forall_forall in H4. by specialize (H4 _ Hin). }
  intros ? st1 [(done & H1 & Hd) (evs' & H3 & H4)]. simpl in Hd.
  assert (unflushed done st1) as Hu.
  { destruct H1 as (evs & H1 & H2 & _).
    rewrite Ht, H1 in H3. apply app_inv_head in H3 as ->.
    exists evs'. split; [done|]. split; [done|].
    intros Hin. rewrite Forall_forall in H4. by specialize (H4 _ Hin). }
  apply sent_head_sent in H1.
  destruct Hd as [->|[Hflag _]].
  - (* every frame has been handed over *)
    wp_step.
    eapply emits_wp; [apply emits_process_audio| |]; intros ? st2 Hadv2;
      assert (sent settings tr0 (w_video_frames w) st2) as H2
        by (apply (sent_advance settings tr0 audio_event _ st1);
            [event_cases|done|done]);
      [|by apply sent_flushed_last].
    wp_step.
    eapply emits_wp; [apply emits_flush_encoders| |]; intros ? st3 Hadv3;
      assert (sent settings tr0 (w_video_frames w) st3) as H3'
        by (apply (sent_advance settings tr0 flush_event _ st2);
            [event_cases|done|done]);
      [|by apply sent_flushed_last].
    unfold close_containers, report.
    wp_go; [by apply sent_flushed_last|..]; apply sent_flushed_last;
      (eapply (sent_grow settings tr0 _ st3);
       [done|st_simpl; rewrite <- ?app_assoc; reflexivity
       |by repeat constructor]).
  - (* the loop has observed the flag *)
    wp_step.
    eapply emits_wp; [apply emits_process_audio| |]; intros ? st2 Hadv2;
      assert (unflushed done st2) as Hu2
        by (destruct Hadv2 as (tail & -> & Htail);
            apply (unflushed_grow done st1 _ tail); [done|done|];
            eapply Forall_impl; [exact Htail|]; event_cases);
      [|by apply (unflushed_flushed_last done)].
    apply (advance_flag w _ _ _ Hadv2) in Hflag.
    wp_step. unfold wp at 1. rewrite flush_when_cancelled by done.
    unfold close_containers, report.
    wp_go; apply (unflushed_flushed_last done);
      (eapply (unflushed_grow done st2);
       [done|st_simpl; rewrite <- ?app_assoc; reflexivity
       |by repeat constructor]).
Qed.

End Flushed.

(** X11.  The video encoder is flushed only after every decoded frame
    has been handed to it: a run whose trace has the flush, however it
    ends, has encoded all the frames of the input, in order. *)
Theorem X11_flush_after_all_frames (s : CompressionSettings) (w : World) :
  FlushVideo ∈ trace (run s w) ->
  submitted (trace (run s w))
  = map (output_frame s) (w_video_frames w).
Proof.
  assert (wp (run_body s w)
            (fun _ st' => exists tr0,
               Forall (fun e => setup_event e = true) tr0
               /\ flushed_last s w tr0 st')
            (fun _ st' =>
               Forall (fun e => setup_event e = true) (trace st')
               \/ exists tr0,
                    Forall (fun e => setup_event e = true) tr0
                    /\ flushed_last s w tr0 st')
            initial_state) as H.
  { apply wp_run_body.
    - intros e st Hs. by left.
    - intros vs T st Hs _ _.
      eapply wp_mono;
        [by apply (wp_encode_and_finish_flushed s w T (trace st))| |].
      + intros ? st' Hf. by exists (trace st).
      + intros ? st' Hf. right. by exists (trace st). }
  assert (forall tr0 st tail,
            Forall (fun e => setup_event e = true) tr0 ->
            flushed_last s w tr0 st ->
            Forall (fun e => resting e = true) tail ->
            FlushVideo ∈ trace st ++ tail ->
            submitted (trace st ++ tail)
            = map (output_frame s) (w_video_frames w)) as Hfin.
  { intros tr0 st tail Hs (done & evs & Ht & Hsub & Hflush) Htail Hin.
    assert (submitted tr0 = []) as Hs0.
    { apply submitted_nil. eapply Forall_impl; [exact Hs|]. event_cases. }
    assert (submitted tail = []) as Hst.
    { apply submitted_nil. eapply Forall_impl; [exact Htail|]. by intros []. }
    rewrite Ht, !submitted_app, Hs0, Hst, Hsub, app_nil_r. simpl.
    rewrite Hflush; [done|].
    rewrite Ht in Hin.
    apply elem_of_app in Hin as [[Hin|Hin]%elem_of_app|Hin]; [|done|].
    - rewrite Forall_forall in Hs. by specialize (Hs _ Hin).
    - rewrite Forall_forall in Htail. by specialize (Htail _ Hin). }
  rewrite run_of_body. unfold wp in H.
  destruct (run_body s w initial_state) as [[[]|e] st]; st_simpl.
  - destruct H as (tr0 & Hs & Hf).
    apply (Hfin tr0); [done|done|by repeat constructor].
  - destruct H as [Hs|(tr0 & Hs & Hf)].
    + intros [Hin|Hin]%elem_of_app; exfalso.
      * rewrite Forall_forall in Hs. by specialize (Hs _ Hin).
      * by repeat (apply elem_of_cons in Hin as [?|Hin]; [done|]);
          apply elem_of_nil in Hin.
    + apply (Hfin tr0); [done|done|by repeat constructor].
Qed.

(** The run cancelled after the flush has encoded its three frames. *)
Lemma X11_flush_after_all_frames_witness :
  terminal_events (trace (run default_settings Examples.late_cancel))
  = [(false, cancelled_message)]
  /\ submitted (trace (run default_settings Examples.late_cancel))
     = map (output_frame default_settings)
           (w_video_frames Examples.late_cancel).
Proof.
  split; [reflexivity|].
  apply (X11_flush_after_all_frames default_settings Examples.late_cancel).
  vm_compute.
  repeat first [apply list_elem_of_here | apply list_elem_of_further].
Defined.

(** * A successful run has flushed *)

Lemma wp_true {A} (c : Run A) st :
  wp c (fun _ _ => True) (fun _ _ => True) st.
Proof. unfold wp. by destruct (c st) as [[a|e] st']. Qed.

Lemma wp_flush_encoders_video w st :
  wp (flush_encoders w)
     (fun _ st' =>
        (length (trace st) <= length (trace st'))%nat
        /\ (flag_at w (length (trace st)) = false -> FlushVideo ∈ trace st'))
     (fun _ _ => True) st.
Proof.
  unfold flush_encoders. do 3 wp_step.
  { wp_go. st_simpl. rewrite length_app. split; [lia|congruence]. }
  do 3 wp_step.
  unfold wp at 1.
  match goal with |- context [encode_and_mux ?ph ?c ?r ?s0] =>
    destruct (encode_and_mux_exact ph c r s0) as (muxes & Hst2 & Hmux);
    destruct (encode_and_mux ph c r s0) as [[[]|e] st2]; [|done]
  end.
  simpl in Hst2. subst st2.
  assert (forall st', advance flush_event
                        (with_trace (((trace st ++ [ReadFlag false])
                                        ++ [Status "Finalizing..."])
                                       ++ FlushVideo :: muxes)
                           (with_trace ((trace st ++ [ReadFlag false])
                                          ++ [Status "Finalizing..."])
                              (with_trace (trace st ++ [ReadFlag false]) st)))
                        st' ->
                      (length (trace st) <= length (trace st'))%nat
                      /\ FlushVideo ∈ trace st') as Hkeep.
  { intros st' (evs & -> & _). st_simpl. split.
    - rewrite !length_app. lia.
    - apply elem_of_app. left. apply elem_of_app. right.
      apply list_elem_of_here. }
  wp_go.
  - eapply emits_wp;
      [apply emits_encode_and_mux with (P := flush_event); done| |done].
    intros ? st' Hadv. destruct (Hkeep _ Hadv). by split.
  - destruct (Hkeep _ (advance_refl _ _)). by split.
Qed.

(** X12.  A successful run has flushed the video encoder before it
    closed the containers. *)
Theorem X12_success_has_flushed (s : CompressionSettings) (w : World) :
  terminal_events (trace (run s w)) = [(true, success_message)] ->
  exists tr1,
    trace (run s w)
    = tr1 ++ [CloseInput; CloseOutput; ReadFlag false;
              Status success_message; Progress 100;
              Finished true success_message; GcCollect]
    /\ FlushVideo ∈ tr1.
Proof.
  intros Hsucc.
  set (good (st' : RunState) :=
         (exists tr1, trace st' = tr1 ++ [Finished false cancelled_message])
         \/ exists tr1,
              trace st'
              = tr1 ++ [CloseInput; CloseOutput; ReadFlag false;
                        Status success_message; Progress 100;
                        Finished true success_message]
              /\ FlushVideo ∈ tr1).
  assert (wp (run_body s w) (fun _ st' => good st') (fun _ _ => True)
            initial_state) as H.
  { apply wp_run_body; [done|].
    intros vs T st _ _ _. unfold encode_and_finish.
    wp_step. eapply wp_mono; [apply wp_true| |done]. intros ? st1 _.
    wp_step. eapply wp_mono; [apply wp_true| |done]. intros ? st2 _.
    wp_step. eapply wp_mono; [apply wp_flush_encoders_video| |done].
    intros ? st3 [Hlen Hflush]. unfold close_containers, report.
    wp_go; [done|done|..].
    - left. by eexists.
    - right. exists (trace st3). split; [by rewrite <- !app_assoc|].
      apply Hflush.
      destruct (flag_at w (length (trace st2))) eqn:Hf; [|done].
      apply (flag_at_mono w _ (length ((trace st3 ++ [CloseInput])
                                         ++ [CloseOutput]))) in Hf;
        [congruence|rewrite !length_app; lia]. }
  rewrite run_of_body in *. unfold wp in H.
  destruct (run_body s w initial_state) as [[[]|e] st];
    cbn [trace with_trace] in *.
  - destruct H as [[tr1 Ht]|(tr1 & Ht & Hin)].
    + exfalso. rewrite Ht, !terminal_events_app in Hsucc. simpl in Hsucc.
      rewrite app_nil_r in Hsucc. by apply not_success_snoc in Hsucc.
    + exists tr1. rewrite Ht, <- app_assoc. by split.
  - exfalso. rewrite terminal_events_app in Hsucc. simpl in Hsucc.
    by apply not_success_snoc in Hsucc.
Qed.

(** The healthy run. *)
Lemma X12_success_has_flushed_witness :
  FlushVideo ∈ trace (run default_settings Examples.healthy).
Proof.
  destruct (X12_success_has_flushed default_settings Examples.healthy eq_refl)
    as (tr1 & -> & Hin).
  apply elem_of_app. by left.
Defined.

(** * Containers of a failed run *)

Section Closing.

Variable settings : CompressionSettings.
Variable w : World.

Local Abbreviation all_unclosed tr := (Forall (fun e => unclosed e = true) tr).

(** What has been emitted when [e] is raised: no close at all, or the
    close of the input alone, and then [e] comes from
    [output_container.close()]. *)
Definition closing (e : exn) (tr : list event) : Prop :=
  all_unclosed tr
  \/ exists tr0 msg,
       tr = tr0 ++ [CloseInput] /\ all_unclosed tr0
       /\ w_close_output_error w = Some msg /\ e = AVError msg.

(** What has been emitted when [run_body] returns. *)
Definition reported (tr : list event) : Prop :=
  exists tr1 b m, tr = tr1 ++ [Finished b m] /\ is_failure_message m = false.

Lemma extends_unclosed (P : event -> bool) tr tr' :
  (forall e, P e = true -> unclosed e = true) ->
  all_unclosed tr -> extends P tr tr' -> all_unclosed tr'.
Proof.
  intros HP H (evs & -> & Hevs). apply Forall_app. split; [done|].
  eapply Forall_impl; [exact Hevs|done].
Qed.

Lemma wp_encode_and_finish_closing total_frames st :
  all_unclosed (trace st) ->
  wp (encode_and_finish settings w total_frames)
     (fun _ st' => reported (trace st'))
     (fun e st' => closing e (trace st')) st.
Proof.
  intros H. unfold encode_and_finish, process_video. do 3 wp_step.
  eapply wp_mono; [apply wp_video_loop_extends| |]; st_simpl;
    intros ? st1 H1;
    assert (all_unclosed (trace st1)) as Hu1
      by (apply (extends_unclosed loop_event (trace st));
          [event_cases|done|done]);
    [|by left].
  wp_step.
  eapply emits_wp; [apply emits_process_audio| |]; intros ? st2 Hadv2;
    assert (all_unclosed (trace st2)) as Hu2
      by (apply (extends_unclosed audio_event (trace st1));
          [event_cases|done|by apply advance_extends]);
    [|by left].
  wp_step.
  eapply emits_wp; [apply emits_flush_encoders| |]; intros ? st3 Hadv3;
    assert (all_unclosed (trace st3)) as Hu3
      by (apply (extends_unclosed flush_event (trace st2));
          [event_cases|done|by apply advance_extends]);
    [|by left].
  unfold close_containers, report. wp_go.
  - by left.
  - right. eexists (trace st3), _. by repeat split.
  - by eexists _, false, _.
  - by eexists _, true, _.
Qed.

Lemma run_body_closing :
  wp (run_body settings w)
     (fun _ st' => reported (trace st'))
     (fun e st' => closing e (trace st')) initial_state.
Proof.
  apply wp_run_body.
  - intros e st H. left. eapply Forall_impl; [exact H|]. event_cases.
  - intros vs T st H _ _. apply wp_encode_and_finish_closing.
    eapply Forall_impl; [exact H|]. event_cases.
Qed.

End Closing.

Lemma terminal_events_snoc_inv tr (b b' : bool) (m m' : string) tail :
  terminal_events tail = [] ->
  terminal_events ((tr ++ [Finished b' m']) ++ tail) = [(b, m)] ->
  b' = b /\ m' = m.
Proof.
  intros Htail H. rewrite !terminal_events_app, Htail, app_nil_r in H.
  simpl in H. apply (f_equal last) in H. rewrite last_snoc in H.
  by injection H as -> ->.
Qed.

(** X3.  A run that ends in a failure report has not closed the output
    container.  It has closed the input container only when it was
    [output_container.close()] that raised: the close of the input is
    then the last thing the run did before the report, and the report
    carries the message of that error.  The terminal message and the
    status message emitted just before it are both "Compression failed: "
    followed by the text of the exception. *)
Theorem X3_failed_run_closes_no_output
    (s : CompressionSettings) (w : World) (b : bool) (m : string) :
  let tr := trace (run s w) in
  terminal_events tr = [(b, m)] ->
  is_failure_message m = true ->
  b = false
  /\ (CloseOutput ∉ tr)
  /\ (exists tr0, tr = tr0 ++ [Status m; Finished false m; GcCollect]
                  /\ (CloseOutput ∉ tr0)
                  /\ (CloseInput ∈ tr0 ->
                      exists tr1 msg,
                        tr0 = tr1 ++ [CloseInput]
                        /\ (CloseInput ∉ tr1)
                        /\ w_close_output_error w = Some msg
                        /\ m = failure_prefix +:+ msg))
  /\ (w_close_output_error w = None -> CloseInput ∉ tr).
Proof.
  intros tr Hterm Hmsg. subst tr.
  pose proof (run_body_closing s w) as H. unfold wp in H.
  rewrite run_of_body in *.
  destruct (run_body s w initial_state) as [[[]|e] st];
    cbn [trace with_trace] in *.
  { exfalso. destruct H as (tr1 & b' & m' & Ht & Hm').
    rewrite Ht in Hterm.
    apply terminal_events_snoc_inv in Hterm as [_ ->]; [|done]. congruence. }
  assert (trace st ++ [Status (failure_prefix +:+ exn_str e);
                       Finished false (failure_prefix +:+ exn_str e);
                       GcCollect]
          = (trace st ++ [Status (failure_prefix +:+ exn_str e)]
               ++ [Finished false (failure_prefix +:+ exn_str e)])
              ++ [GcCollect]) as Hshape by (by rewrite <- !app_assoc).
  rewrite Hshape, app_assoc in Hterm.
  apply terminal_events_snoc_inv in Hterm as [<- <-]; [|done].
  clear Hshape.
  assert (forall tr0 x, Forall (fun e => unclosed e = true) tr0 ->
                        unclosed x = false -> x ∉ tr0) as Hun.
  { intros tr0 x Hall Hx Hin. rewrite Forall_forall in Hall.
    specialize (Hall _ Hin). congruence. }
  assert (forall x, unclosed x = false ->
            x ∉ [Status (failure_prefix +:+ exn_str e);
                 Finished false (failure_prefix +:+ exn_str e); GcCollect])
    as Htail.
  { intros x Hx Hin.
    by repeat (apply elem_of_cons in Hin as [->|Hin]; [done|]);
      apply elem_of_nil in Hin. }
  assert (CloseOutput ∉ trace st) as Hout.
  { destruct H as [H|(tr0 & msg & -> & H & _)]; [by apply Hun|].
    intros [Hin|Hin]%elem_of_app; [by apply (Hun tr0 CloseOutput)|].
    apply elem_of_cons in Hin as [?|Hin]; [done|]. by apply elem_of_nil in Hin. }
  split; [reflexivity|]. split; [|split].
  - intros [Hin|Hin]%elem_of_app; [done|]. by apply (Htail CloseOutput).
  - exists (trace st). split; [reflexivity|]. split; [done|].
    intros Hin. destruct H as [H|(tr0 & msg & Ht & H & Hc & ->)].
    + by apply (Hun (trace st) CloseInput) in Hin.
    + exists tr0, msg. split; [done|]. split; [by apply Hun|]. by split.
  - intros Hnone [Hin|Hin]%elem_of_app; [|by apply (Htail CloseInput)].
    destruct H as [H|(tr0 & msg & Ht & H & Hc & ->)].
    + by apply (Hun (trace st) CloseInput) in Hin.
    + congruence.
Qed.

(** The run whose output cannot be closed has closed its input, and
    nothing else. *)
Lemma X3_failed_run_closes_no_output_witness :
  (CloseOutput ∉ trace (run default_settings Examples.full_disk))
  /\ exists tr0,
       trace (run default_settings Examples.full_disk)
       = tr0 ++ [Status "Compression failed: [Errno 28] No space left on device";
                 Finished false "Compression failed: [Errno 28] No space left on device";
                 GcCollect].
Proof.
  destruct (X3_failed_run_closes_no_output default_settings Examples.full_disk
              false "Compression failed: [Errno 28] No space left on device")
    as (_ & H1 & (tr0 & H2 & _) & _); [reflexivity|reflexivity|].
  split; [exact H1|]. by exists tr0.
Defined.
